(** * BusTub storage core: LRU-K replacer, buffer pool manager, page
      guards, extendible hash table pages and the disk extendible hash
      table; and the observed-remove set of the primer.

    A shallow embedding of the C++ sources.  Every method becomes a function
    on an explicit state record; a C++ exception, a failed [assert] and
    undefined behaviour (out-of-bounds array access, erasing through an
    iterator that does not belong to the list) are distinct outcomes.

    The embedding is sequential: [latch_.lock()] / [latch_.unlock()] calls
    and page latches are not part of the state.  The replacer's latch, which
    some paths of its methods leave locked, is followed where calls are put
    in sequence ([LRUKReplacer.play]). *)

From stdpp Require Import gmap list sorting.
From Stdlib Require Import ZArith Lia.

Local Open Scope Z_scope.

(** ** Machine integers *)

(** [size_t] arithmetic (64 bit) wraps around. *)
Definition wrap64 (x : Z) : Z := x mod 2 ^ 64.
(** [uint32_t] arithmetic wraps around. *)
Definition wrap32 (x : Z) : Z := x mod 2 ^ 32.
(** [uint8_t] arithmetic wraps around. *)
Definition wrap8 (x : Z) : Z := x mod 2 ^ 8.
(** [static_cast<int>(x)]: conversion to a 32-bit signed integer. *)
Definition to_int (x : Z) : Z := (x + 2 ^ 31) mod 2 ^ 32 - 2 ^ 31.

Definition is_int (x : Z) : Prop := - 2 ^ 31 <= x < 2 ^ 31.
Definition is_size_t (x : Z) : Prop := 0 <= x < 2 ^ 64.

(** ** Outcomes of a method call *)

Inductive failure : Set :=
| AssertionFailed      (* a failed [assert]: the process aborts *)
| UndefinedBehaviour   (* out-of-bounds access, foreign or singular iterator *)
| OutOfFuel            (* the bound given to a loop or recursion ran out *)
| Blocked              (* [lock()] on a latch that is never unlocked: no return *)
| Terminated.          (* [std::terminate]: an exception left a [noexcept] function *)

Inductive exception : Set :=
| invalid_argument
| logic_error.

(** A call on a state [St] either returns a value and a new state, throws
    (the state is what the method left behind when it threw), or fails. *)
Inductive outcome (St A : Type) : Type :=
| Ret (a : A) (s : St)
| Throw (e : exception) (s : St)
| Fail (f : failure).
Arguments Ret {St A} a s.
Arguments Throw {St A} e s.
Arguments Fail {St A} f.

(** The value a call returned, if it returned. *)
Definition returned {St A} (o : outcome St A) : option A :=
  match o with
  | Ret a _ => Some a
  | _ => None
  end.

Definition M (St A : Type) : Type := St -> outcome St A.

Definition ret {St A} (a : A) : M St A := fun s => Ret a s.
Definition bind {St A B} (m : M St A) (f : A -> M St B) : M St B :=
  fun s => match m s with
           | Ret a s' => f a s'
           | Throw e s' => Throw e s'
           | Fail x => Fail x
           end.
Definition get {St} : M St St := fun s => Ret s s.
Definition put {St} (s : St) : M St unit := fun _ => Ret tt s.
Definition modify {St} (f : St -> St) : M St unit := fun s => Ret tt (f s).
Definition throw {St A} (e : exception) : M St A := fun s => Throw e s.
Definition fail {St A} (x : failure) : M St A := fun _ => Fail x.

(** [assert(c)]: aborts unless assertions are compiled out ([NDEBUG]). *)
Definition assert {St} (NDEBUG : bool) (c : bool) : M St unit :=
  if c || NDEBUG then ret tt else fail AssertionFailed.

(** A function declared [noexcept]: an exception that would leave it ends
    the program in [std::terminate]. *)
Definition noexcept {St A} (m : M St A) : M St A := fun s =>
  match m s with
  | Throw _ _ => Fail Terminated
  | o => o
  end.

(** [1 << n] on [int]: shifting by the width or more, or by a negative
    amount, is undefined. *)
Definition shl1 {St} (n : Z) : M St Z :=
  if bool_decide (0 <= n < 32) then ret (Z.shiftl 1 n) else fail UndefinedBehaviour.

(** Read and write of slot [i] of a fixed-size array member. *)
Definition array_get {A} (a : list A) (i : Z) : option A :=
  if bool_decide (0 <= i) then a !! Z.to_nat i else None.
Definition array_set {A} (a : list A) (i : Z) (x : A) : option (list A) :=
  if bool_decide (0 <= i < Z.of_nat (length a))
  then Some (<[Z.to_nat i := x]> a) else None.

(** Signed [int] arithmetic: overflow is undefined behaviour. *)
Definition int_arith {St} (x : Z) : M St Z :=
  if bool_decide (- 2 ^ 31 <= x < 2 ^ 31) then ret x else fail UndefinedBehaviour.

(** Run a method of a sub-object stored in the state. *)
Definition zoom {St Sub A} (proj : St -> Sub) (upd : Sub -> St -> St)
    (m : M Sub A) : M St A :=
  fun s => match m (proj s) with
           | Ret a sub => Ret a (upd sub s)
           | Throw e sub => Throw e (upd sub s)
           | Fail x => Fail x
           end.

Declare Scope m_scope.
Delimit Scope m_scope with M.
Notation "'let*' x ':=' c 'in' k" := (bind c (fun x => k))
  (at level 10, x pattern, c at level 100, k at level 200) : m_scope.
Notation "c ';;' k" := (bind c (fun _ => k))
  (at level 100, k at level 200, right associativity) : m_scope.

(** * LRU-K replacer (src/buffer/lru_k_replacer.cpp) *)

Module LRUKNode.
(** Which of the replacer's two lists an iterator points into. *)
Inductive list_tag : Set := Hist | Cache.

#[global] Instance list_tag_eq_dec : EqDecision list_tag.
Proof. solve_decision. Defined.

(** The fields that lru_k_replacer.cpp reads and writes.  [pos_] is a
    [std::list] iterator.  The replacer only ever stores in the node of
    frame [f] the iterator returned by [begin()] right after
    [emplace_front(f)], so [Some l] stands for "the front-most cell
    holding [f] in list [l]" and [None] for the singular iterator of a
    default-constructed node. *)
Record t : Set := mk {
  k_ : Z;
  is_evictable_ : bool;
  pos_ : option list_tag
}.

(** Modelled from the spec: the class and its member initialisers are
    declared in lru_k_replacer.h, which is not among the sources.  The first
    access leaves a frame "with counter 1 and evictable=false", so a
    default-constructed node has counter 0 and is not evictable. *)
Definition default : t := {| k_ := 0; is_evictable_ := false; pos_ := None |}.
End LRUKNode.

Module LRUKReplacer.
Import LRUKNode.

Record t : Type := mk {
  node_store_ : gmap Z LRUKNode.t;
  hist_list_ : list Z;
  cache_list_ : list Z;
  curr_size_ : Z;
  replacer_size_ : Z;
  k_ : Z
}.

(** [LRUKReplacer(num_frames, k)].  Modelled from the spec: the initial
    value of [curr_size_] is given in the header; a new replacer tracks no
    frame, so its size is 0. *)
Definition new (num_frames k : Z) : t :=
  {| node_store_ := ∅; hist_list_ := []; cache_list_ := [];
     curr_size_ := 0; replacer_size_ := num_frames; k_ := k |}.

Definition set_node_store ns (s : t) : t :=
  {| node_store_ := ns; hist_list_ := hist_list_ s;
     cache_list_ := cache_list_ s; curr_size_ := curr_size_ s;
     replacer_size_ := replacer_size_ s; k_ := k_ s |}.
Definition set_hist_list l (s : t) : t :=
  {| node_store_ := node_store_ s; hist_list_ := l;
     cache_list_ := cache_list_ s; curr_size_ := curr_size_ s;
     replacer_size_ := replacer_size_ s; k_ := k_ s |}.
Definition set_cache_list l (s : t) : t :=
  {| node_store_ := node_store_ s; hist_list_ := hist_list_ s;
     cache_list_ := l; curr_size_ := curr_size_ s;
     replacer_size_ := replacer_size_ s; k_ := k_ s |}.
Definition set_curr_size n (s : t) : t :=
  {| node_store_ := node_store_ s; hist_list_ := hist_list_ s;
     cache_list_ := cache_list_ s; curr_size_ := n;
     replacer_size_ := replacer_size_ s; k_ := k_ s |}.

(** [node_store_[f]]: [operator[]] default-constructs a missing node. *)
Definition subscript (ns : gmap Z LRUKNode.t) (f : Z)
    : LRUKNode.t * gmap Z LRUKNode.t :=
  match ns !! f with
  | Some n => (n, ns)
  | None => (LRUKNode.default, <[f := LRUKNode.default]> ns)
  end.

(** The [for (rit = l.rbegin(); rit != l.rend(); ++rit)] loop of [Evict],
    run over the reversed list: the first cell (from the tail) whose node
    is evictable is erased.  Returns the victim with the remaining cells
    (still reversed), and the node store the subscripts leave behind. *)
Fixpoint scan (rl : list Z) (ns : gmap Z LRUKNode.t)
    : option (Z * list Z) * gmap Z LRUKNode.t :=
  match rl with
  | [] => (None, ns)
  | f :: rest =>
      let '(n, ns1) := subscript ns f in
      if is_evictable_ n then (Some (f, rest), ns1)
      else
        let '(r, ns2) := scan rest ns1 in
        (match r with
         | Some (v, rest') => Some (v, f :: rest')
         | None => None
         end, ns2)
  end.

Definition empty (l : list Z) : bool :=
  match l with [] => true | _ => false end.

Definition Evict (s : t) : option Z * t :=
  (* Try to find victim in history list *)
  let '(r1, ns1) :=
    if negb (empty (hist_list_ s)) then scan (rev (hist_list_ s)) (node_store_ s)
    else (None, node_store_ s) in
  let s1 := set_node_store ns1 s in
  let '(victim, s2) :=
    match r1 with
    | Some (f, rest) => (Some f, set_hist_list (rev rest) s1)
    | None =>
        (* Try to find victim in cache list *)
        if negb (empty (cache_list_ s1)) then
          let '(r2, ns2) := scan (rev (cache_list_ s1)) ns1 in
          let s1' := set_node_store ns2 s1 in
          match r2 with
          | Some (f, rest) => (Some f, set_cache_list (rev rest) s1')
          | None => (None, s1')
          end
        else (None, s1)
    end in
  match victim with
  | Some f =>
      (Some f,
       set_curr_size (wrap64 (curr_size_ s2 - 1))
         (set_node_store (delete f (node_store_ s2)) s2))
  | None => (None, s2)
  end.

(** Unlink the front-most cell holding [f]. *)
Fixpoint remove_first (f : Z) (l : list Z) : list Z :=
  match l with
  | [] => []
  | x :: l' => if bool_decide (x = f) then l' else x :: remove_first f l'
  end.

(** [l.erase(pos)] for the iterator [pos] stored in the node of frame [f],
    where [l] is the list tagged [tag]: defined only when the iterator
    points into [l]. *)
Definition erase (tag : list_tag) (l : list Z) (f : Z)
    (pos : option list_tag) : option (list Z) :=
  match pos with
  | Some tag' =>
      if bool_decide (tag' = tag) && bool_decide (f ∈ l)
      then Some (remove_first f l) else None
  | None => None
  end.

Definition set_node (f : Z) (n : LRUKNode.t) (s : t) : t :=
  set_node_store (<[f := n]> (node_store_ s)) s.

(** [throw std::invalid_argument] guard shared by [RecordAccess] and
    [SetEvictable]: [frame_id > static_cast<int>(replacer_size_)]. *)
Definition invalid_frame (s : t) (frame_id : Z) : bool :=
  bool_decide (frame_id > to_int (replacer_size_ s)).

Definition RecordAccess (frame_id : Z) : M t unit := fun s =>
  (* Check if frame_id is valid *)
  if invalid_frame s frame_id then Throw invalid_argument s
  else
    (* size_t new_count = ++node_store_[frame_id].k_; *)
    let '(n, ns) := subscript (node_store_ s) frame_id in
    let new_count := wrap64 (LRUKNode.k_ n + 1) in
    let bump pos :=
      {| LRUKNode.k_ := new_count;
         LRUKNode.is_evictable_ := is_evictable_ n;
         LRUKNode.pos_ := pos |} in
    let s := set_node_store ns s in
    if bool_decide (new_count = 1) then
      Ret tt (set_node frame_id (bump (Some Hist))
                (set_hist_list (frame_id :: hist_list_ s) s))
    else if bool_decide (new_count = k_ s) then
      match erase Hist (hist_list_ s) frame_id (pos_ n) with
      | Some hist =>
          Ret tt (set_node frame_id (bump (Some Cache))
                    (set_cache_list (frame_id :: cache_list_ s)
                       (set_hist_list hist s)))
      | None => Fail UndefinedBehaviour
      end
    else if bool_decide (new_count > k_ s) then
      match erase Cache (cache_list_ s) frame_id (pos_ n) with
      | Some cache =>
          Ret tt (set_node frame_id (bump (Some Cache))
                    (set_cache_list (frame_id :: cache) s))
      | None => Fail UndefinedBehaviour
      end
    else Ret tt (set_node frame_id (bump (pos_ n)) s).

Definition SetEvictable (frame_id : Z) (set_evictable : bool) : M t unit := fun s =>
  (* Check if frame_id is valid *)
  if invalid_frame s frame_id then Throw invalid_argument s
  else
    match node_store_ s !! frame_id with
    | None => Ret tt s
    | Some n =>
        let size :=
          if set_evictable && negb (is_evictable_ n) then wrap64 (curr_size_ s + 1)
          else if is_evictable_ n && negb set_evictable then wrap64 (curr_size_ s - 1)
          else curr_size_ s in
        Ret tt (set_node frame_id
                  {| LRUKNode.k_ := LRUKNode.k_ n;
                     LRUKNode.is_evictable_ := set_evictable;
                     LRUKNode.pos_ := pos_ n |}
                  (set_curr_size size s))
    end.

Definition Remove (frame_id : Z) : M t unit := fun s =>
  (* Find the frame first, if not exist then return *)
  match node_store_ s !! frame_id with
  | None => Ret tt s
  | Some n =>
      (* If not evictable, throw an exception *)
      if negb (is_evictable_ n) then Throw logic_error s
      else
        (* Decide where to remove a frame *)
        let erased :=
          if bool_decide (LRUKNode.k_ n < k_ s) then
            option_map (fun l => set_hist_list l s)
              (erase Hist (hist_list_ s) frame_id (pos_ n))
          else
            option_map (fun l => set_cache_list l s)
              (erase Cache (cache_list_ s) frame_id (pos_ n)) in
        match erased with
        | Some s' =>
            (* Remove the record from the node_store_ *)
            Ret tt (set_node_store (delete frame_id (node_store_ s'))
                      (set_curr_size (wrap64 (curr_size_ s' - 1)) s'))
        | None => Fail UndefinedBehaviour
        end
  end.

Definition Size (s : t) : Z := curr_size_ s.

(** *** Vocabulary for the statements *)

(** Frame [f] is tracked and its evictable flag is set. *)
Definition evictable (ns : gmap Z LRUKNode.t) (f : Z) : bool :=
  match ns !! f with
  | Some n => is_evictable_ n
  | None => false
  end.

(** Number of recorded accesses of frame [f]: 0 for an untracked frame. *)
Definition access_count (ns : gmap Z LRUKNode.t) (f : Z) : Z :=
  match ns !! f with
  | Some n => LRUKNode.k_ n
  | None => 0
  end.

(** Number of tracked frames whose evictable flag is true. *)
Definition evictable_count (ns : gmap Z LRUKNode.t) : nat :=
  size (filter (fun kv => is_evictable_ kv.2 = true) ns).

(** [ns'] is [ns] with default nodes added for some untracked frames (what
    [operator[]] leaves behind). *)
Definition extends (ns ns' : gmap Z LRUKNode.t) : Prop :=
  forall g, ns' !! g = ns !! g \/ (ns !! g = None /\ ns' !! g = Some LRUKNode.default).

(** The frames tracked by [ns] all satisfy [P]. *)
Definition tracked_all (P : Z -> Prop) (ns : gmap Z LRUKNode.t) : Prop :=
  forall g, is_Some (ns !! g) -> P g.

(** The invariant behind [Size]: [curr_size_] counts the evictable frames,
    and every frame the replacer knows of is an [int]. *)
Record counted (s : t) : Prop := {
  counted_size : curr_size_ s = Z.of_nat (evictable_count (node_store_ s));
  counted_tracked : tracked_all is_int (node_store_ s);
  counted_listed : Forall is_int (hist_list_ s ++ cache_list_ s)
}.

(** The list structure of the replacer: no frame is listed twice, an
    untracked frame is not listed, and a tracked frame with counter [c] is
    in the history list if [c < k] and in the cache list otherwise, its
    iterator pointing there.  [bound] limits the counters. *)
Record placed (bound : Z) (s : t) : Prop := {
  placed_k : 2 <= k_ s;
  placed_nodup : NoDup (hist_list_ s ++ cache_list_ s);
  placed_nodes : forall f,
    match node_store_ s !! f with
    | Some n =>
        1 <= LRUKNode.k_ n <= bound /\
        if bool_decide (LRUKNode.k_ n < k_ s)
        then pos_ n = Some Hist /\ f ∈ hist_list_ s
        else pos_ n = Some Cache /\ f ∈ cache_list_ s
    | None => f ∉ hist_list_ s ++ cache_list_ s
    end
}.

(** The calls a client can make. *)
Inductive call : Set :=
| CRecordAccess (frame_id : Z)
| CSetEvictable (frame_id : Z) (set_evictable : bool)
| CEvict
| CRemove (frame_id : Z).

Definition call_frame_ok (c : call) : Prop :=
  match c with
  | CRecordAccess f | CSetEvictable f _ | CRemove f => is_int f
  | CEvict => True
  end.

Definition exec (c : call) (s : t) : outcome t unit :=
  match c with
  | CRecordAccess f => RecordAccess f s
  | CSetEvictable f b => SetEvictable f b s
  | CEvict => Ret tt (Evict s).2
  | CRemove f => Remove f s
  end.

(** Each of the four methods starts with [latch_.lock()].  Whether the call
    [c], made in state [s], reaches its [latch_.unlock()]: [Evict] always
    does; [RecordAccess] and [SetEvictable] throw on an invalid frame id
    before it; [SetEvictable] and [Remove] return before it when the frame
    is not tracked; [Remove] throws before it when the frame is not
    evictable. *)
Definition unlocks_latch (c : call) (s : t) : bool :=
  match c with
  | CRecordAccess f => negb (invalid_frame s f)
  | CSetEvictable f _ =>
      negb (invalid_frame s f) && bool_decide (is_Some (node_store_ s !! f))
  | CEvict => true
  | CRemove f => evictable (node_store_ s) f
  end.

(** A sequence of calls made by one client; [locked] tells whether
    [latch_] is locked when the sequence starts.  A thrown exception leaves
    the replacer as the method left it, and the client goes on with the next
    call.  Modelled from the spec: [latch_] is declared in the header, which
    is not among the sources; "all mutating operations hold an internal
    lock for their full duration.  The replacer is not reentrant", so a call
    made while the latch is locked does not return. *)
Fixpoint play (locked : bool) (cs : list call) (s : t) : outcome t unit :=
  match cs with
  | [] => Ret tt s
  | c :: cs' =>
      if locked then Fail Blocked
      else
        match exec c s with
        | Ret _ s' | Throw _ s' => play (negb (unlocks_latch c s)) cs' s'
        | Fail x => Fail x
        end
  end.

(** The state after a sequence of calls on a replacer whose latch is free,
    if the sequence runs to its end. *)
Definition run (cs : list call) (s : t) : option t :=
  match play false cs s with
  | Ret _ s' => Some s'
  | _ => None
  end.
End LRUKReplacer.

(** * Buffer pool manager (src/buffer/buffer_pool_manager.cpp) *)

(** Modelled from the spec: page ids are non-negative and "INVALID is a
    distinguished sentinel"; the constant is declared in common/config.h,
    which is not among the sources.  No proof below depends on its value. *)
Definition INVALID_PAGE_ID : Z := -1.

Module Page.
Section Page.
Context {Data : Type}.

Record t : Type := mk {
  data_ : Data;
  page_id_ : Z;
  pin_count_ : Z;
  is_dirty_ : bool
}.

Definition set_data d (p : t) : t :=
  {| data_ := d; page_id_ := page_id_ p; pin_count_ := pin_count_ p;
     is_dirty_ := is_dirty_ p |}.
Definition set_page_id i (p : t) : t :=
  {| data_ := data_ p; page_id_ := i; pin_count_ := pin_count_ p;
     is_dirty_ := is_dirty_ p |}.
Definition set_pin_count n (p : t) : t :=
  {| data_ := data_ p; page_id_ := page_id_ p; pin_count_ := n;
     is_dirty_ := is_dirty_ p |}.
Definition set_is_dirty b (p : t) : t :=
  {| data_ := data_ p; page_id_ := page_id_ p; pin_count_ := pin_count_ p;
     is_dirty_ := b |}.
End Page.
Arguments t : clear implicits.
End Page.

Module BufferPoolManager.
Section BufferPoolManager.
(** The contents of a frame, and the all-zero contents. *)
Context {Data : Type}.
(** Modelled from the spec: [Page::ResetMemory] lives in a header that is not
    among the sources; NewPage is specified to "zero the frame's contents". *)
Variable zeroed : Data.

Record t : Type := mk {
  pool_size_ : Z;
  pages_ : list (Page.t Data);
  page_table_ : gmap Z Z;
  free_list_ : list Z;
  replacer_ : LRUKReplacer.t;
  next_page_id_ : Z;
  (** the block device behind the disk scheduler: block id to contents *)
  disk_ : gmap Z Data
}.

Definition set_pages ps (b : t) : t :=
  {| pool_size_ := pool_size_ b; pages_ := ps; page_table_ := page_table_ b;
     free_list_ := free_list_ b; replacer_ := replacer_ b;
     next_page_id_ := next_page_id_ b; disk_ := disk_ b |}.
Definition set_page_table pt (b : t) : t :=
  {| pool_size_ := pool_size_ b; pages_ := pages_ b; page_table_ := pt;
     free_list_ := free_list_ b; replacer_ := replacer_ b;
     next_page_id_ := next_page_id_ b; disk_ := disk_ b |}.
Definition set_free_list fl (b : t) : t :=
  {| pool_size_ := pool_size_ b; pages_ := pages_ b; page_table_ := page_table_ b;
     free_list_ := fl; replacer_ := replacer_ b;
     next_page_id_ := next_page_id_ b; disk_ := disk_ b |}.
Definition set_replacer r (b : t) : t :=
  {| pool_size_ := pool_size_ b; pages_ := pages_ b; page_table_ := page_table_ b;
     free_list_ := free_list_ b; replacer_ := r;
     next_page_id_ := next_page_id_ b; disk_ := disk_ b |}.
Definition set_next_page_id n (b : t) : t :=
  {| pool_size_ := pool_size_ b; pages_ := pages_ b; page_table_ := page_table_ b;
     free_list_ := free_list_ b; replacer_ := replacer_ b;
     next_page_id_ := n; disk_ := disk_ b |}.
Definition set_disk d (b : t) : t :=
  {| pool_size_ := pool_size_ b; pages_ := pages_ b; page_table_ := page_table_ b;
     free_list_ := free_list_ b; replacer_ := replacer_ b;
     next_page_id_ := next_page_id_ b; disk_ := d |}.

(** Modelled from the spec: a default-constructed [Page] (the class is
    declared in a header that is not among the sources) is a free frame:
    resident page id INVALID, pin count 0, clean, contents zeroed. *)
Definition fresh_page : Page.t Data :=
  {| Page.data_ := zeroed; Page.page_id_ := INVALID_PAGE_ID;
     Page.pin_count_ := 0; Page.is_dirty_ := false |}.

(** [BufferPoolManager(pool_size, disk_manager, replacer_k)] over a device
    holding [disk]. *)
Definition new (pool_size replacer_k : Z) (disk : gmap Z Data) : t :=
  {| pool_size_ := pool_size;
     pages_ := replicate (Z.to_nat pool_size) fresh_page;
     page_table_ := ∅;
     (* Initially, every page is in the free list. *)
     free_list_ := Z.of_nat <$> seq 0 (Z.to_nat pool_size);
     replacer_ := LRUKReplacer.new pool_size replacer_k;
     next_page_id_ := 0;
     disk_ := disk |}.

(** [pages_ + frame_id], dereferenced: outside the array it is undefined. *)
Definition page_at (frame_id : Z) : M t (Page.t Data) := fun b =>
  if bool_decide (0 <= frame_id) then
    match pages_ b !! Z.to_nat frame_id with
    | Some p => Ret p b
    | None => Fail UndefinedBehaviour
    end
  else Fail UndefinedBehaviour.

(** Assignment through the [Page *] of frame [frame_id]. *)
Definition update_page (frame_id : Z) (f : Page.t Data -> Page.t Data) : M t unit :=
  (let* p := page_at frame_id in
   modify (fun b => set_pages (<[Z.to_nat frame_id := f p]> (pages_ b)) b))%M.

Definition with_replacer {A} (m : M LRUKReplacer.t A) : M t A :=
  zoom replacer_ set_replacer m.

(** The disk scheduler, run to completion: a write request followed by
    [future.get()]. *)
Definition disk_write (page_id : Z) (d : Data) : M t unit :=
  modify (fun b => set_disk (<[page_id := d]> (disk_ b)) b).

(** Modelled from the spec: the block device itself is an external
    collaborator ("read/write a fixed-size block by id"); a block never
    written reads as zeroes. *)
Definition disk_read (page_id : Z) : M t Data := fun b =>
  Ret (default zeroed (disk_ b !! page_id)) b.

(** [AllocatePage]: [return next_page_id_++] on a 32-bit atomic. *)
Definition AllocatePage : M t Z := fun b =>
  Ret (next_page_id_ b) (set_next_page_id (to_int (next_page_id_ b + 1)) b).

(** Modelled from the spec: [DeallocatePage] is defined in the header only;
    the pool keeps no record of released ids ("Page ids start at 0 and
    increase monotonically"). *)
Definition DeallocatePage (page_id : Z) : M t unit := ret tt.

(** The frame-finding prologue that [NewPage] and [FetchPage] share: pop the
    back of the free list, or ask the replacer for a victim. *)
Definition obtain_frame : M t (option Z) := fun b =>
  match free_list_ b with
  | _ :: _ =>
      (* Get frame id from free list *)
      Ret (last (free_list_ b)) (set_free_list (removelast (free_list_ b)) b)
  | [] =>
      (* Get frame id from replacer *)
      let '(victim, r) := LRUKReplacer.Evict (replacer_ b) in
      Ret victim (set_replacer r b)
  end.

(** Write back dirty page *)
Definition write_back (frame_id : Z) : M t unit :=
  (let* page := page_at frame_id in
   if Page.is_dirty_ page then
     disk_write (Page.page_id_ page) (Page.data_ page);;
     update_page frame_id (Page.set_is_dirty false)
   else ret tt)%M.

(** [page_table_.emplace(k, v)] keeps an existing mapping. *)
Definition emplace (k v : Z) (pt : gmap Z Z) : gmap Z Z :=
  match pt !! k with
  | Some _ => pt
  | None => <[k := v]> pt
  end.

(** Returns the new page id and the frame that holds it ([Page *]), or
    [None] for [nullptr]. *)
Definition NewPage : M t (option (Z * Z)) :=
  (let* frame := obtain_frame in
   match frame with
   | None => ret None
   | Some frame_id =>
       write_back frame_id;;
       (* Alloc a page id *)
       let* page_id := AllocatePage in
       let* page := page_at frame_id in
       (* Delete old map *)
       modify (fun b => set_page_table (delete (Page.page_id_ page) (page_table_ b)) b);;
       (* Add new map *)
       modify (fun b => set_page_table (emplace page_id frame_id (page_table_ b)) b);;
       (* Set page id *)
       update_page frame_id
         (fun p => Page.set_data zeroed (Page.set_pin_count 1 (Page.set_page_id page_id p)));;
       (* Update replacer *)
       with_replacer (LRUKReplacer.RecordAccess frame_id);;
       with_replacer (LRUKReplacer.SetEvictable frame_id false);;
       ret (Some (page_id, frame_id))
   end)%M.

(** Returns the frame that holds the page ([Page *]), or [None] for
    [nullptr]. *)
Definition FetchPage (page_id : Z) : M t (option Z) :=
  (if bool_decide (page_id = INVALID_PAGE_ID) then ret None
   else
     let* b := get in
     match page_table_ b !! page_id with
     | Some frame_id =>
         (* If exist *)
         let* page := page_at frame_id in
         (* Update replacer *)
         with_replacer (LRUKReplacer.RecordAccess frame_id);;
         with_replacer (LRUKReplacer.SetEvictable frame_id false);;
         (* Update pin count *)
         let* n := int_arith (Page.pin_count_ page + 1) in
         update_page frame_id (Page.set_pin_count n);;
         ret (Some frame_id)
     | None =>
         (* If not exist *)
         let* frame := obtain_frame in
         match frame with
         | None => ret None
         | Some frame_id =>
             write_back frame_id;;
             let* page := page_at frame_id in
             (* Erase old map *)
             modify (fun b => set_page_table (delete (Page.page_id_ page) (page_table_ b)) b);;
             (* Add new map *)
             modify (fun b => set_page_table (emplace page_id frame_id (page_table_ b)) b);;
             (* Update page *)
             update_page frame_id
               (fun p => Page.set_data zeroed (Page.set_pin_count 1 (Page.set_page_id page_id p)));;
             (* Update replacer *)
             with_replacer (LRUKReplacer.RecordAccess frame_id);;
             with_replacer (LRUKReplacer.SetEvictable frame_id false);;
             (* Read page from disk *)
             let* d := disk_read page_id in
             update_page frame_id (Page.set_data d);;
             ret (Some frame_id)
         end
     end)%M.

Definition UnpinPage (page_id : Z) (is_dirty : bool) : M t bool :=
  (if bool_decide (page_id = INVALID_PAGE_ID) then ret false
   else
     let* b := get in
     match page_table_ b !! page_id with
     | Some frame_id =>
         (* If exist *)
         let* page := page_at frame_id in
         (* Set dirty *)
         (if is_dirty then update_page frame_id (Page.set_is_dirty is_dirty)
          else ret tt);;
         (* If pin count is 0 *)
         if bool_decide (Page.pin_count_ page = 0) then ret false
         else
           (* Decrement pin count *)
           let* n := int_arith (Page.pin_count_ page - 1) in
           update_page frame_id (Page.set_pin_count n);;
           (if bool_decide (n = 0)
            then with_replacer (LRUKReplacer.SetEvictable frame_id true)
            else ret tt);;
           ret true
     | None => ret false
     end)%M.

Definition FlushPage (page_id : Z) : M t bool :=
  (if bool_decide (page_id = INVALID_PAGE_ID) then ret false
   else
     let* b := get in
     match page_table_ b !! page_id with
     | None => ret false
     | Some frame_id =>
         (* Get page *)
         let* page := page_at frame_id in
         (* Write back *)
         disk_write (Page.page_id_ page) (Page.data_ page);;
         (* Clean *)
         update_page frame_id (Page.set_is_dirty false);;
         ret true
     end)%M.

(** The body of the [for (size_t i = 0; i < pool_size_; i++)] loop of
    [FlushAllPages], for the frames [i, i + n). *)
Fixpoint flush_frames (i : Z) (n : nat) : M t unit :=
  match n with
  | O => ret tt
  | S n' =>
      (let* page := page_at i in
       (if bool_decide (Page.page_id_ page = INVALID_PAGE_ID) then ret tt
        else
          disk_write (Page.page_id_ page) (Page.data_ page);;
          update_page i (Page.set_is_dirty false));;
       flush_frames (i + 1) n')%M
  end.

Definition FlushAllPages : M t unit := fun b =>
  flush_frames 0 (Z.to_nat (pool_size_ b)) b.

Definition DeletePage (page_id : Z) : M t bool :=
  (if bool_decide (page_id = INVALID_PAGE_ID) then ret true
   else
     let* b := get in
     match page_table_ b !! page_id with
     | Some frame_id =>
         (* Page exist *)
         let* page := page_at frame_id in
         (* If can not delete *)
         if bool_decide (Page.pin_count_ page > 0) then ret false
         else
           (* Delete page *)
           modify (fun b => set_page_table (delete page_id (page_table_ b)) b);;
           modify (fun b => set_free_list (free_list_ b ++ [frame_id]) b);;
           with_replacer (LRUKReplacer.Remove frame_id);;
           (* Reset page memory *)
           update_page frame_id (fun _ => fresh_page);;
           DeallocatePage page_id;;
           ret true
     | None =>
         DeallocatePage page_id;;
         ret true
     end)%M.

(** *** Vocabulary for the statements *)

(** The pool after the dirty flag of frame [frame_id], which holds [page],
    was OR-ed with [is_dirty]. *)
Definition dirtied (frame_id : Z) (page : Page.t Data) (is_dirty : bool) (b : t) : t :=
  set_pages (<[Z.to_nat frame_id :=
                 Page.set_is_dirty (Page.is_dirty_ page || is_dirty) page]> (pages_ b)) b.
End BufferPoolManager.
Arguments t : clear implicits.
End BufferPoolManager.

(** * Bucket page (src/storage/page/extendible_htable_bucket_page.cpp) *)

(** Modelled from the spec: the comparators live in storage/index, which is
    not among the sources; "total order over K, returning {−1, 0, 1}".  The
    instance for [int] keys. *)
Definition IntComparator (lhs rhs : Z) : Z :=
  if bool_decide (lhs < rhs) then -1
  else if bool_decide (lhs > rhs) then 1
  else 0.

(** The comparator contract the bucket page relies on: a three-way
    comparison of a strict total order, consistent with equality. *)
Record three_way {K : Type} (cmp : K -> K -> Z) : Prop := {
  three_way_range : forall a b, cmp a b = -1 \/ cmp a b = 0 \/ cmp a b = 1;
  three_way_eq : forall a b, cmp a b = 0 <-> a = b;
  three_way_flip : forall a b, cmp a b = -1 <-> cmp b a = 1;
  three_way_trans : forall a b c, cmp a b = -1 -> cmp b c = -1 -> cmp a c = -1
}.

Module ExtendibleHTableBucketPage.
Section BucketPage.
Context {K V : Type}.
(** The comparator [KC]: returns -1, 0 or 1. *)
Variable cmp : K -> K -> Z.
(** Whether assertions are compiled out. *)
Variable NDEBUG : bool.

(** [array_] has a fixed number of slots (what fits in the page); the slots
    at [size_] and beyond keep whatever was last stored there. *)
Record t : Type := mk {
  size_ : Z;
  max_size_ : Z;
  array_ : list (K * V)
}.

Definition set_size n (b : t) : t :=
  {| size_ := n; max_size_ := max_size_ b; array_ := array_ b |}.
Definition set_array a (b : t) : t :=
  {| size_ := size_ b; max_size_ := max_size_ b; array_ := a |}.

Definition Init (max_size : Z) : M t unit := fun b =>
  Ret tt {| size_ := 0; max_size_ := max_size; array_ := array_ b |}.

Definition Size : M t Z := fun b => Ret (size_ b) b.
Definition IsFull : M t bool := fun b => Ret (bool_decide (size_ b >= max_size_ b)) b.
Definition IsEmpty : M t bool := fun b => Ret (bool_decide (size_ b = 0)) b.

(** [array_[i]] as an rvalue and as an lvalue. *)
Definition read (i : Z) : M t (K * V) := fun b =>
  match array_get (array_ b) i with
  | Some e => Ret e b
  | None => Fail UndefinedBehaviour
  end.
Definition write (i : Z) (e : K * V) : M t unit := fun b =>
  match array_set (array_ b) i e with
  | Some a => Ret tt (set_array a b)
  | None => Fail UndefinedBehaviour
  end.

Definition KeyAt (bucket_idx : Z) : M t K :=
  (let* e := read bucket_idx in ret e.1)%M.
Definition ValueAt (bucket_idx : Z) : M t V :=
  (let* e := read bucket_idx in ret e.2)%M.
Definition EntryAt (bucket_idx : Z) : M t (K * V) := read bucket_idx.

(** The [while (left <= right)] loop of [KeyIndex]; [fuel] bounds the
    number of iterations. *)
Fixpoint KeyIndex_loop (fuel : nat) (key : K) (left right : Z) : M t Z :=
  if bool_decide (left <= right) then
    match fuel with
    | O => fail OutOfFuel
    | S fuel' =>
        (let mid := (left + right) `quot` 2 in
         let* e := read mid in
         let r := cmp key e.1 in
         if bool_decide (r = 1) then KeyIndex_loop fuel' key (mid + 1) right
         else if bool_decide (r = -1) then KeyIndex_loop fuel' key left (mid - 1)
         else ret (wrap32 mid))%M
    end
  else ret (wrap32 left).

Definition KeyIndex (key : K) : M t Z :=
  (let* sz := Size in
   let size := to_int sz in
   KeyIndex_loop (S (Z.to_nat size)) key 0 (size - 1))%M.

(** Returns [Some value] for [true] (with the out-parameter), [None] for
    [false]. *)
Definition Lookup (key : K) : M t (option V) :=
  (let* sz := Size in
   let size := to_int sz in
   if bool_decide (size = 0) then ret None
   else
     let* bucket_idx := KeyIndex key in
     let* sz := Size in
     if bool_decide (bucket_idx > sz) then ret None
     else
       let* k := KeyAt bucket_idx in
       if bool_decide (cmp key k = 0) then
         let* v := ValueAt bucket_idx in ret (Some v)
       else ret None)%M.

(** [for (int i = ...; i >= bucket_idx; i--) array_[i + 1] = array_[i]],
    [n] iterations starting at [i]. *)
Fixpoint InsertAt_loop (n : nat) (i : Z) : M t unit :=
  match n with
  | O => ret tt
  | S n' =>
      (let* e := read i in
       write (i + 1) e;;
       InsertAt_loop n' (i - 1))%M
  end.

Definition InsertAt (bucket_idx : Z) (key : K) (value : V) : M t unit :=
  (let* sz := Size in
   let size := to_int sz in
   InsertAt_loop (Z.to_nat (size - to_int bucket_idx)) (size - 1);;
   write bucket_idx (key, value);;
   modify (fun b => set_size (wrap32 (size_ b + 1)) b))%M.

(** [for (int i = bucket_idx; i < size - 1; i++) array_[i] = array_[i + 1]],
    [n] iterations starting at [i]. *)
Fixpoint RemoveAt_loop (n : nat) (i : Z) : M t unit :=
  match n with
  | O => ret tt
  | S n' =>
      (let* e := read (i + 1) in
       write i e;;
       RemoveAt_loop n' (i + 1))%M
  end.

Definition RemoveAt (bucket_idx : Z) : M t unit :=
  (let* sz := Size in
   assert NDEBUG (bool_decide (bucket_idx < sz));;
   let size := to_int sz in
   RemoveAt_loop (Z.to_nat (size - 1 - to_int bucket_idx)) (to_int bucket_idx);;
   modify (fun b => set_size (wrap32 (size_ b - 1)) b))%M.

Definition Insert (key : K) (value : V) : M t bool :=
  (let* sz := Size in
   let size := to_int sz in
   let* full := IsFull in
   if full then ret false
   else if bool_decide (size = 0) then
     InsertAt 0 key value;; ret true
   else
     let* bucket_idx := KeyIndex key in
     let* k := KeyAt bucket_idx in
     if bool_decide (cmp key k = 0) then ret false
     else InsertAt bucket_idx key value;; ret true)%M.

Definition Remove (key : K) : M t bool :=
  (let* sz := Size in
   let size := to_int sz in
   if bool_decide (size = 0) then ret false
   else
     let* bucket_idx := KeyIndex key in
     let* k := KeyAt bucket_idx in
     if bool_decide (cmp key k <> 0) then ret false
     else RemoveAt bucket_idx;; ret true)%M.

(** *** Vocabulary for the statements *)

(** Keys strictly increasing by the comparator. *)
Fixpoint strictly_sorted (l : list K) : bool :=
  match l with
  | [] => true
  | x :: l' => forallb (fun y => bool_decide (cmp x y = -1)) l' && strictly_sorted l'
  end.

(** The live entries: the first [size_] slots. *)
Definition live (b : t) : list (K * V) := take (Z.to_nat (size_ b)) (array_ b).

(** The bucket invariant: the live entries fit the array and their keys are
    strictly increasing. *)
Definition well_formed (b : t) : bool :=
  bool_decide (0 <= size_ b <= Z.of_nat (length (array_ b)))
  && bool_decide (size_ b < 2 ^ 31)
  && strictly_sorted (take (Z.to_nat (size_ b)) (array_ b)).*1.

(** The slot right behind the live entries, if the array has one. *)
Definition behind (b : t) : option (K * V) := array_ b !! Z.to_nat (size_ b).

(** The slot behind the live entries does not hold [key]; the slots of an
    empty bucket are never compared. *)
Definition behind_free (b : t) (key : K) : Prop :=
  size_ b = 0 \/ exists e, behind b = Some e /\ e.1 <> key.

(** [p] is the lower bound of [key] among the live entries: the keys in the
    slots before [p] are smaller than [key], the keys from slot [p] on are
    not. *)
Definition lower_bound (b : t) (key : K) (p : Z) : Prop :=
  0 <= p <= size_ b /\
  (forall i e, 0 <= i < p -> array_ b !! Z.to_nat i = Some e -> cmp e.1 key = -1) /\
  (forall i e, p <= i < size_ b -> array_ b !! Z.to_nat i = Some e ->
               cmp key e.1 <> 1).
End BucketPage.
Arguments t : clear implicits.
End ExtendibleHTableBucketPage.

(** * Directory page (src/storage/page/extendible_htable_directory_page.cpp) *)

Module ExtendibleHTableDirectoryPage.
Section DirectoryPage.
(** Length of the two arrays of the page, a parameter here: the constant is
    declared in the page's header file, which is not among the sources. *)
Variable HTABLE_DIRECTORY_ARRAY_SIZE : nat.
(** Whether assertions are compiled out. *)
Variable NDEBUG : bool.

Record t : Type := mk {
  max_depth_ : Z;
  global_depth_ : Z;
  local_depths_ : list Z;
  bucket_page_ids_ : list Z
}.

Definition set_global_depth g (d : t) : t :=
  {| max_depth_ := max_depth_ d; global_depth_ := g;
     local_depths_ := local_depths_ d; bucket_page_ids_ := bucket_page_ids_ d |}.
Definition set_local_depths l (d : t) : t :=
  {| max_depth_ := max_depth_ d; global_depth_ := global_depth_ d;
     local_depths_ := l; bucket_page_ids_ := bucket_page_ids_ d |}.
Definition set_bucket_page_ids l (d : t) : t :=
  {| max_depth_ := max_depth_ d; global_depth_ := global_depth_ d;
     local_depths_ := local_depths_ d; bucket_page_ids_ := l |}.

Definition Init (max_depth : Z) : M t unit := fun _ =>
  Ret tt {| max_depth_ := max_depth; global_depth_ := 0;
            bucket_page_ids_ := replicate HTABLE_DIRECTORY_ARRAY_SIZE INVALID_PAGE_ID;
            local_depths_ := replicate HTABLE_DIRECTORY_ARRAY_SIZE 0 |}.

(** [bucket_page_ids_[i]] and [local_depths_[i]] as rvalues and lvalues. *)
Definition read_page_id (i : Z) : M t Z := fun d =>
  match array_get (bucket_page_ids_ d) i with
  | Some x => Ret x d
  | None => Fail UndefinedBehaviour
  end.
Definition write_page_id (i : Z) (x : Z) : M t unit := fun d =>
  match array_set (bucket_page_ids_ d) i x with
  | Some a => Ret tt (set_bucket_page_ids a d)
  | None => Fail UndefinedBehaviour
  end.
Definition read_local_depth (i : Z) : M t Z := fun d =>
  match array_get (local_depths_ d) i with
  | Some x => Ret x d
  | None => Fail UndefinedBehaviour
  end.
Definition write_local_depth (i : Z) (x : Z) : M t unit := fun d =>
  match array_set (local_depths_ d) i x with
  | Some a => Ret tt (set_local_depths a d)
  | None => Fail UndefinedBehaviour
  end.

Definition GetGlobalDepth : M t Z := fun d => Ret (global_depth_ d) d.

(** Modelled from the spec: [GetMaxDepth] is declared in the header only;
    it reads the page's [max_depth] field. *)
Definition GetMaxDepth : M t Z := fun d => Ret (max_depth_ d) d.

(** Modelled from the spec: [GetGlobalDepthMask] is declared in the header
    only; the spec gives [HashToBucketIndex(h) = h & ((1 << global_depth) - 1)]. *)
Definition GetGlobalDepthMask : M t Z :=
  (let* g := GetGlobalDepth in
   let* p := shl1 g in
   ret (wrap32 (p - 1)))%M.

Definition HashToBucketIndex (hash : Z) : M t Z :=
  (let* mask := GetGlobalDepthMask in
   ret (Z.land hash mask))%M.

Definition Size : M t Z :=
  (let* g := GetGlobalDepth in
   let* p := shl1 g in
   ret (wrap32 p))%M.

Definition GetBucketPageId (bucket_idx : Z) : M t Z :=
  (let* sz := Size in
   assert NDEBUG (bool_decide (bucket_idx < sz));;
   read_page_id bucket_idx)%M.

Definition SetBucketPageId (bucket_idx bucket_page_id : Z) : M t unit :=
  (let* sz := Size in
   assert NDEBUG (bool_decide (bucket_idx < sz));;
   write_page_id bucket_idx bucket_page_id)%M.

Definition GetSplitImageIndex (bucket_idx : Z) : M t Z :=
  (let* ld := read_local_depth bucket_idx in
   let* bit := shl1 (ld - 1) in
   ret (wrap32 (Z.lxor bucket_idx bit)))%M.

(** The [for (int i = 0; i < 1 << global_depth_; i++)] loop of
    [IncrGlobalDepth], [n] iterations starting at [i]; [half] is
    [1 << global_depth_]. *)
Fixpoint IncrGlobalDepth_loop (n : nat) (half i : Z) : M t unit :=
  match n with
  | O => ret tt
  | S n' =>
      (let* pid := read_page_id i in
       write_page_id (half + i) pid;;
       let* ld := read_local_depth i in
       write_local_depth (half + i) ld;;
       IncrGlobalDepth_loop n' half (i + 1))%M
  end.

Definition IncrGlobalDepth : M t unit :=
  (let* d := get in
   if bool_decide (global_depth_ d > max_depth_ d) then ret tt
   else
     let* half := shl1 (global_depth_ d) in
     IncrGlobalDepth_loop (Z.to_nat half) half 0;;
     modify (fun d => set_global_depth (wrap32 (global_depth_ d + 1)) d))%M.

Definition DecrGlobalDepth : M t unit :=
  (let* d := get in
   if bool_decide (global_depth_ d <= 0) then ret tt
   else modify (fun d => set_global_depth (wrap32 (global_depth_ d - 1)) d))%M.

(** [std::all_of(local_depths_, local_depths_ + Size(), ...)], [n] slots
    starting at [i]. *)
Fixpoint CanShrink_loop (n : nat) (i : Z) : M t bool :=
  match n with
  | O => ret true
  | S n' =>
      (let* depth := read_local_depth i in
       let* g := GetGlobalDepth in
       if bool_decide (depth < g) then CanShrink_loop n' (i + 1)
       else ret false)%M
  end.

Definition CanShrink : M t bool :=
  (let* sz := Size in CanShrink_loop (Z.to_nat sz) 0)%M.

Definition GetLocalDepth (bucket_idx : Z) : M t Z :=
  (let* sz := Size in
   assert NDEBUG (bool_decide (bucket_idx < sz));;
   read_local_depth bucket_idx)%M.

Definition SetLocalDepth (bucket_idx local_depth : Z) : M t unit :=
  (let* sz := Size in
   assert NDEBUG (bool_decide (bucket_idx < sz));;
   write_local_depth bucket_idx local_depth)%M.

Definition IncrLocalDepth (bucket_idx : Z) : M t unit :=
  (let* sz := Size in
   assert NDEBUG (bool_decide (bucket_idx < sz));;
   let* ld := read_local_depth bucket_idx in
   let* d := get in
   if bool_decide (ld >= max_depth_ d) then ret tt
   else write_local_depth bucket_idx (wrap8 (ld + 1)))%M.

Definition DecrLocalDepth (bucket_idx : Z) : M t unit :=
  (let* sz := Size in
   assert NDEBUG (bool_decide (bucket_idx < sz));;
   let* ld := read_local_depth bucket_idx in
   if bool_decide (ld <= 0) then ret tt
   else write_local_depth bucket_idx (wrap8 (ld - 1)))%M.
End DirectoryPage.
End ExtendibleHTableDirectoryPage.

(** * Header page *)

Module ExtendibleHTableHeaderPage.
(** Modelled from the spec: extendible_htable_header_page.cpp is not among
    the sources.  The spec describes the page as [max_depth] followed by an
    array of [2^max_depth] directory page ids, "each INVALID until first
    use", with [HashToDirectoryIndex(h) = h >> (32 - max_depth)]. *)
Record t : Type := mk {
  max_depth_ : Z;
  directory_page_ids_ : list Z
}.

Definition Init (max_depth : Z) : M t unit := fun _ =>
  Ret tt {| max_depth_ := max_depth;
            directory_page_ids_ :=
              replicate (Z.to_nat (2 ^ max_depth)) INVALID_PAGE_ID |}.

Definition HashToDirectoryIndex (hash : Z) : M t Z := fun h =>
  Ret (Z.shiftr hash (32 - max_depth_ h)) h.

Definition GetDirectoryPageId (directory_idx : Z) : M t Z := fun h =>
  match array_get (directory_page_ids_ h) directory_idx with
  | Some x => Ret x h
  | None => Fail UndefinedBehaviour
  end.

Definition SetDirectoryPageId (directory_idx directory_page_id : Z) : M t unit := fun h =>
  match array_set (directory_page_ids_ h) directory_idx directory_page_id with
  | Some a => Ret tt {| max_depth_ := max_depth_ h; directory_page_ids_ := a |}
  | None => Fail UndefinedBehaviour
  end.
End ExtendibleHTableHeaderPage.

(** * Disk extendible hash table
      (src/container/disk/hash/disk_extendible_hash_table.cpp)

    The table reaches its pages only through the buffer pool's page
    interface ([NewPageGuarded], [FetchPageRead], [FetchPageWrite], guards
    dropped at scope exit).  Here that interface is a store from page ids
    to page contents: a fetched page holds what was last written to it, and
    the pool never runs out of frames.  Pins, latches and dirty flags are
    not part of the table's state. *)

Module DiskExtendibleHashTable.
Module Bucket := ExtendibleHTableBucketPage.
Module Directory := ExtendibleHTableDirectoryPage.
Module Header := ExtendibleHTableHeaderPage.

Section HashTable.
Context {K V : Type}.
(** Constructor arguments [cmp] and [hash_fn]. *)
Variable cmp : K -> K -> Z.
Variable hash_fn : K -> Z.
(** Whether assertions are compiled out. *)
Variable NDEBUG : bool.
(** Array lengths fixed by the page headers, which are not among the
    sources, and the key/value pair whose bytes are all zero (what a slot of
    a freshly allocated page holds). *)
Variable HTABLE_DIRECTORY_ARRAY_SIZE : nat.
Variable bucket_array_size : nat.
Variable zero_entry : K * V.

Inductive page : Type :=
| HeaderPage (h : Header.t)
| DirectoryPage (d : Directory.t)
| BucketPage (b : Bucket.t K V).

Record t : Type := mk {
  bpm_ : gmap Z page;
  next_page_id_ : Z;
  header_max_depth_ : Z;
  directory_max_depth_ : Z;
  bucket_max_size_ : Z;
  header_page_id_ : Z
}.

Definition set_bpm m (T : t) : t :=
  {| bpm_ := m; next_page_id_ := next_page_id_ T;
     header_max_depth_ := header_max_depth_ T;
     directory_max_depth_ := directory_max_depth_ T;
     bucket_max_size_ := bucket_max_size_ T;
     header_page_id_ := header_page_id_ T |}.
Definition set_next_page_id n (T : t) : t :=
  {| bpm_ := bpm_ T; next_page_id_ := n;
     header_max_depth_ := header_max_depth_ T;
     directory_max_depth_ := directory_max_depth_ T;
     bucket_max_size_ := bucket_max_size_ T;
     header_page_id_ := header_page_id_ T |}.

(** A page as [NewPage] hands it out (all bytes zero), seen as a header,
    a directory or a bucket page. *)
Definition zeroed_header : Header.t :=
  {| Header.max_depth_ := 0; Header.directory_page_ids_ := [] |}.
Definition zeroed_directory : Directory.t :=
  {| Directory.max_depth_ := 0; Directory.global_depth_ := 0;
     Directory.local_depths_ := replicate HTABLE_DIRECTORY_ARRAY_SIZE 0;
     Directory.bucket_page_ids_ := replicate HTABLE_DIRECTORY_ARRAY_SIZE 0 |}.
Definition zeroed_bucket : Bucket.t K V :=
  {| Bucket.size_ := 0; Bucket.max_size_ := 0;
     Bucket.array_ := replicate bucket_array_size zero_entry |}.

(** [bpm_->NewPageGuarded(&page_id)] followed by [AsMut<...>()->Init(...)]:
    the next page id, holding the initialised page. *)
Definition NewPageGuarded (init : page) : M t Z := fun T =>
  let page_id := next_page_id_ T in
  Ret page_id
    (set_next_page_id (to_int (page_id + 1))
       (set_bpm (<[page_id := init]> (bpm_ T)) T)).

(** [bpm_->DeletePage(page_id)] *)
Definition DeletePage (page_id : Z) : M t unit :=
  modify (fun T => set_bpm (delete page_id (bpm_ T)) T).

(** Run a method on the page [page_id] seen as a header, a directory or a
    bucket page ([FetchPage...(page_id)] then [As] / [AsMut]).  Fetching
    [INVALID_PAGE_ID] yields a null page. *)
Definition on_header {A} (page_id : Z) (m : M Header.t A) : M t A := fun T =>
  match bpm_ T !! page_id with
  | Some (HeaderPage h) =>
      if bool_decide (page_id = INVALID_PAGE_ID) then Fail UndefinedBehaviour
      else zoom (fun _ => h) (fun h' T => set_bpm (<[page_id := HeaderPage h']> (bpm_ T)) T) m T
  | _ => Fail UndefinedBehaviour
  end.
Definition on_directory {A} (page_id : Z) (m : M Directory.t A) : M t A := fun T =>
  match bpm_ T !! page_id with
  | Some (DirectoryPage d) =>
      if bool_decide (page_id = INVALID_PAGE_ID) then Fail UndefinedBehaviour
      else zoom (fun _ => d) (fun d' T => set_bpm (<[page_id := DirectoryPage d']> (bpm_ T)) T) m T
  | _ => Fail UndefinedBehaviour
  end.
Definition on_bucket {A} (page_id : Z) (m : M (Bucket.t K V) A) : M t A := fun T =>
  match bpm_ T !! page_id with
  | Some (BucketPage b) =>
      if bool_decide (page_id = INVALID_PAGE_ID) then Fail UndefinedBehaviour
      else zoom (fun _ => b) (fun b' T => set_bpm (<[page_id := BucketPage b']> (bpm_ T)) T) m T
  | _ => Fail UndefinedBehaviour
  end.

Definition new_header (max_depth : Z) : page :=
  match Header.Init max_depth zeroed_header with
  | Ret _ h => HeaderPage h
  | _ => HeaderPage zeroed_header
  end.
Definition new_directory (max_depth : Z) : page :=
  match Directory.Init HTABLE_DIRECTORY_ARRAY_SIZE max_depth zeroed_directory with
  | Ret _ d => DirectoryPage d
  | _ => DirectoryPage zeroed_directory
  end.
Definition new_bucket (max_size : Z) : page :=
  match Bucket.Init max_size zeroed_bucket with
  | Ret _ b => BucketPage b
  | _ => BucketPage zeroed_bucket
  end.

(** The constructor. *)
Definition new (header_max_depth directory_max_depth bucket_max_size : Z) : t :=
  {| bpm_ := {[ 0 := new_header header_max_depth ]};
     next_page_id_ := 1;
     header_max_depth_ := header_max_depth;
     directory_max_depth_ := directory_max_depth;
     bucket_max_size_ := bucket_max_size;
     header_page_id_ := 0 |}.

(** Modelled from the spec: [Hash] is declared in the header only; "Hash
    function: 32-bit unsigned". *)
Definition Hash (key : K) : Z := wrap32 (hash_fn key).

(** Modelled from the spec: [FindBucketPageID] is not among the sources.
    "walk header → directory → bucket following the index formulas above.
    If any level is missing, miss." *)
Definition FindBucketPageID (key : K) : M t (option Z) :=
  (let* T := get in
   if bool_decide (header_page_id_ T = INVALID_PAGE_ID) then ret None
   else
     let* directory_idx :=
       on_header (header_page_id_ T) (Header.HashToDirectoryIndex (Hash key)) in
     let* directory_page_id :=
       on_header (header_page_id_ T) (Header.GetDirectoryPageId directory_idx) in
     if bool_decide (directory_page_id = INVALID_PAGE_ID) then ret None
     else
       let* bucket_idx :=
         on_directory directory_page_id (Directory.HashToBucketIndex (Hash key)) in
       let* bucket_page_id :=
         on_directory directory_page_id (Directory.GetBucketPageId NDEBUG bucket_idx) in
       if bool_decide (bucket_page_id = INVALID_PAGE_ID) then ret None
       else ret (Some bucket_page_id))%M.

(** Returns [Some value] for [true] (the value pushed to [result]), [None]
    for [false]. *)
Definition GetValue (key : K) : M t (option V) :=
  (let* found := FindBucketPageID key in
   match found with
   | None => ret None
   | Some bucket_page_id =>
       (* Look up the key in the bucket *)
       on_bucket bucket_page_id (Bucket.Lookup cmp key)
   end)%M.

(** Overwrite the live entries of a bucket, keeping the slots behind them. *)
Definition refill (l : list (K * V)) : M (Bucket.t K V) unit := fun b =>
  Ret tt (Bucket.set_size (Z.of_nat (length l))
            (Bucket.set_array (l ++ drop (length l) (Bucket.array_ b)) b)).

(** Modelled from the spec: [SplitBucket] is not among the sources.
    "allocate a new bucket page at the split image; rehash existing entries,
    keeping those whose hash masked to the new local_depth equals the
    original slot value in the old bucket, and placing the rest in the new
    bucket.  Update every directory slot that aliased the old bucket: slots
    whose low local_depth bits match the old bucket_idx pattern keep
    pointing to the old bucket; the others point to the new bucket (both
    receive the new local_depth)." *)
Definition SplitBucket (directory_page_id bucket_page_id bucket_idx : Z) : M t bool :=
  (let* T := get in
   let* new_page_id := NewPageGuarded (new_bucket (bucket_max_size_ T)) in
   let* local_depth :=
     on_directory directory_page_id (Directory.GetLocalDepth NDEBUG bucket_idx) in
   let* p := shl1 local_depth in
   let mask := p - 1 in
   let stays (i : Z) : bool := bool_decide (Z.land i mask = Z.land bucket_idx mask) in
   let* b := on_bucket bucket_page_id get in
   let live := take (Z.to_nat (Bucket.size_ b)) (Bucket.array_ b) in
   on_bucket bucket_page_id (refill (filter (fun e => stays (Hash e.1) = true) live));;
   on_bucket new_page_id (refill (filter (fun e => stays (Hash e.1) = false) live));;
   let* d := on_directory directory_page_id get in
   let* sz := on_directory directory_page_id Directory.Size in
   let relink (i : nat) (page_id : Z) : Z :=
     if bool_decide (Z.of_nat i < sz) && bool_decide (page_id = bucket_page_id)
        && negb (stays (Z.of_nat i))
     then new_page_id else page_id in
   let redepth (i : nat) (page_id_depth : Z * Z) : Z :=
     if bool_decide (Z.of_nat i < sz) && bool_decide (page_id_depth.1 = bucket_page_id)
     then local_depth else page_id_depth.2 in
   on_directory directory_page_id
     (put (Directory.set_bucket_page_ids
             (imap relink (Directory.bucket_page_ids_ d))
             (Directory.set_local_depths
                (imap redepth (zip (Directory.bucket_page_ids_ d)
                                   (Directory.local_depths_ d))) d)));;
   ret true)%M.

(** The recursion of [Insert]; [fuel] bounds its depth. *)
Fixpoint Insert_rec (fuel : nat) (key : K) (value : V) : M t bool :=
  match fuel with
  | O => fail OutOfFuel
  | S fuel' =>
    (let* T := get in
     if bool_decide (header_page_id_ T = INVALID_PAGE_ID) then ret false
     else
       let header := header_page_id_ T in
       (* Fetch or create the directory page *)
       let* directory_idx := on_header header (Header.HashToDirectoryIndex (Hash key)) in
       let* directory_page_id := on_header header (Header.GetDirectoryPageId directory_idx) in
       let* directory_page_id :=
         if bool_decide (directory_page_id = INVALID_PAGE_ID) then
           let* directory_page_id :=
             NewPageGuarded (new_directory (directory_max_depth_ T)) in
           on_header header (Header.SetDirectoryPageId directory_idx directory_page_id);;
           ret directory_page_id
         else ret directory_page_id in
       let directory := directory_page_id in
       (* Fetch or create the bucket page *)
       let* bucket_idx := on_directory directory (Directory.HashToBucketIndex (Hash key)) in
       let* bucket_page_id := on_directory directory (Directory.GetBucketPageId NDEBUG bucket_idx) in
       let* bucket_page_id :=
         if bool_decide (bucket_page_id = INVALID_PAGE_ID) then
           let* bucket_page_id := NewPageGuarded (new_bucket (bucket_max_size_ T)) in
           on_directory directory (Directory.SetBucketPageId NDEBUG bucket_idx bucket_page_id);;
           on_directory directory (Directory.SetLocalDepth NDEBUG bucket_idx 0);;
           ret bucket_page_id
         else ret bucket_page_id in
       let bucket := bucket_page_id in
       let* v := on_bucket bucket (Bucket.Lookup cmp key) in
       match v with
       | Some _ => ret false
       | None =>
           (* Split the bucket if full *)
           let* full := on_bucket bucket Bucket.IsFull in
           if full then
             (* Scale out the directory if needed *)
             let* local_depth := on_directory directory (Directory.GetLocalDepth NDEBUG bucket_idx) in
             let* global_depth := on_directory directory Directory.GetGlobalDepth in
             let* max_depth := on_directory directory Directory.GetMaxDepth in
             if bool_decide (local_depth = global_depth)
                && bool_decide (global_depth >= max_depth)
             then ret false
             else
               (if bool_decide (local_depth = global_depth)
                then on_directory directory Directory.IncrGlobalDepth
                else ret tt);;
               (* Get the local depth ready for splitting *)
               on_directory directory (Directory.IncrLocalDepth NDEBUG bucket_idx);;
               let* split := SplitBucket directory bucket bucket_idx in
               if negb split then ret false
               else Insert_rec fuel' key value
           else on_bucket bucket (Bucket.Insert cmp key value)
       end)%M
  end.

(** Every recursive call follows an increment of a local depth, which the
    directory's maximal depth bounds. *)
Definition Insert (key : K) (value : V) : M t bool := fun T =>
  Insert_rec (S (S (Z.to_nat (directory_max_depth_ T)))) key value T.

(** Modelled from the spec: [TryMergeBucket] is not among the sources.
    "if the bucket and its split image have equal local_depth > 0, and at
    least one is empty, (a) delete the empty bucket's page, (b) redirect
    its directory slots to the surviving bucket, (c) decrement the
    surviving bucket's local_depth and propagate to all aliasing slots,
    (d) recurse while a merge is still possible."  [fuel] bounds the
    recursion. *)
Fixpoint TryMergeBucket (fuel : nat) (directory_page_id bucket_idx : Z) : M t unit :=
  match fuel with
  | O => fail OutOfFuel
  | S fuel' =>
    (let directory := directory_page_id in
     let* local_depth := on_directory directory (Directory.GetLocalDepth NDEBUG bucket_idx) in
     if bool_decide (local_depth <= 0) then ret tt
     else
       let* split_idx := on_directory directory (Directory.GetSplitImageIndex bucket_idx) in
       let* split_depth := on_directory directory (Directory.GetLocalDepth NDEBUG split_idx) in
       if bool_decide (split_depth <> local_depth) then ret tt
       else
         let* bucket_page_id := on_directory directory (Directory.GetBucketPageId NDEBUG bucket_idx) in
         let* split_page_id := on_directory directory (Directory.GetBucketPageId NDEBUG split_idx) in
         let* bucket_empty := on_bucket bucket_page_id Bucket.IsEmpty in
         let* split_empty := on_bucket split_page_id Bucket.IsEmpty in
         if negb (bucket_empty || split_empty) then ret tt
         else
           let dead := if bucket_empty then bucket_page_id else split_page_id in
           let survivor := if bucket_empty then split_page_id else bucket_page_id in
           DeletePage dead;;
           let* d := on_directory directory get in
           let* sz := on_directory directory Directory.Size in
           let merged (i : nat) (page_id : Z) : bool :=
             bool_decide (Z.of_nat i < sz)
             && (bool_decide (page_id = dead) || bool_decide (page_id = survivor)) in
           let relink (i : nat) (page_id : Z) : Z :=
             if merged i page_id then survivor else page_id in
           let redepth (i : nat) (page_id_depth : Z * Z) : Z :=
             if merged i page_id_depth.1 then local_depth - 1 else page_id_depth.2 in
           on_directory directory
             (put (Directory.set_bucket_page_ids
                     (imap relink (Directory.bucket_page_ids_ d))
                     (Directory.set_local_depths
                        (imap redepth (zip (Directory.bucket_page_ids_ d)
                                           (Directory.local_depths_ d))) d)));;
           TryMergeBucket fuel' directory bucket_idx)%M
  end.

(** The [while (directory->CanShrink()) directory->DecrGlobalDepth()] loop
    of [Remove]; [fuel] bounds the number of iterations. *)
Fixpoint shrink_loop (fuel : nat) : M Directory.t unit :=
  (let* can := Directory.CanShrink in
   if can then
     match fuel with
     | O => fail OutOfFuel
     | S fuel' => Directory.DecrGlobalDepth;; shrink_loop fuel'
     end
   else ret tt)%M.

Definition Remove (key : K) : M t bool :=
  (let* T := get in
   if bool_decide (header_page_id_ T = INVALID_PAGE_ID) then ret false
   else
     let header := header_page_id_ T in
     (* Fetch the directory page *)
     let* directory_idx := on_header header (Header.HashToDirectoryIndex (Hash key)) in
     let* directory_page_id := on_header header (Header.GetDirectoryPageId directory_idx) in
     if bool_decide (directory_page_id = INVALID_PAGE_ID) then ret false
     else
       let directory := directory_page_id in
       (* Fetch the bucket page *)
       let* bucket_idx := on_directory directory (Directory.HashToBucketIndex (Hash key)) in
       let* bucket_page_id := on_directory directory (Directory.GetBucketPageId NDEBUG bucket_idx) in
       if bool_decide (bucket_page_id = INVALID_PAGE_ID) then ret false
       else
         (* Remove the key from the bucket *)
         let* removed := on_bucket bucket_page_id (Bucket.Remove cmp NDEBUG key) in
         if negb removed then ret false
         else
           (* Try to merge empty buckets if can *)
           let* local_depth := on_directory directory (Directory.GetLocalDepth NDEBUG bucket_idx) in
           TryMergeBucket (S (Z.to_nat local_depth)) directory bucket_idx;;
           let* global_depth := on_directory directory Directory.GetGlobalDepth in
           on_directory directory (shrink_loop (Z.to_nat global_depth));;
           ret true)%M.

(** *** Vocabulary for the statements *)

(** [key] is stored with [value]: the header and the directory lead from
    the key's hash to a well-formed bucket that holds the pair among its
    live entries. *)
Definition stored (T : t) (key : K) (value : V) : Prop :=
  exists h d b directory_idx directory_page_id bucket_idx bucket_page_id i,
    header_page_id_ T <> INVALID_PAGE_ID /\
    bpm_ T !! header_page_id_ T = Some (HeaderPage h) /\
    Header.HashToDirectoryIndex (Hash key) h = Ret directory_idx h /\
    Header.GetDirectoryPageId directory_idx h = Ret directory_page_id h /\
    directory_page_id <> INVALID_PAGE_ID /\
    bpm_ T !! directory_page_id = Some (DirectoryPage d) /\
    Directory.HashToBucketIndex (Hash key) d = Ret bucket_idx d /\
    Directory.GetBucketPageId NDEBUG bucket_idx d = Ret bucket_page_id d /\
    bucket_page_id <> INVALID_PAGE_ID /\
    bpm_ T !! bucket_page_id = Some (BucketPage b) /\
    Bucket.well_formed cmp b = true /\
    0 <= i < Bucket.size_ b /\
    Bucket.array_ b !! Z.to_nat i = Some (key, value).

(** The header and the directory lead from the hash of [key] to the bucket
    page [bucket_page_id], which holds the bucket [b]. *)
Definition routes (T : t) (key : K) (bucket_page_id : Z) (b : Bucket.t K V) : Prop :=
  exists h d directory_idx directory_page_id bucket_idx,
    header_page_id_ T <> INVALID_PAGE_ID /\
    bpm_ T !! header_page_id_ T = Some (HeaderPage h) /\
    Header.HashToDirectoryIndex (Hash key) h = Ret directory_idx h /\
    Header.GetDirectoryPageId directory_idx h = Ret directory_page_id h /\
    directory_page_id <> INVALID_PAGE_ID /\
    bpm_ T !! directory_page_id = Some (DirectoryPage d) /\
    Directory.HashToBucketIndex (Hash key) d = Ret bucket_idx d /\
    Directory.GetBucketPageId NDEBUG bucket_idx d = Ret bucket_page_id d /\
    bucket_page_id <> INVALID_PAGE_ID /\
    bpm_ T !! bucket_page_id = Some (BucketPage b).

(** The calls a client can make and what they return. *)
Inductive call : Type :=
| CInsert (key : K) (value : V)
| CRemove (key : K)
| CGetValue (key : K).

Inductive answer : Type :=
| ABool (b : bool)
| AValue (v : option V).

Definition exec (c : call) : M t answer :=
  match c with
  | CInsert key value => (let* b := Insert key value in ret (ABool b))%M
  | CRemove key => (let* b := Remove key in ret (ABool b))%M
  | CGetValue key => (let* v := GetValue key in ret (AValue v))%M
  end.

(** Run a sequence of calls, collecting the answers. *)
Fixpoint run (cs : list call) : M t (list answer) :=
  match cs with
  | [] => ret []
  | c :: cs' =>
      (let* a := exec c in
       let* rest := run cs' in
       ret (a :: rest))%M
  end.
End HashTable.
Arguments page : clear implicits.
Arguments t : clear implicits.
Arguments call : clear implicits.
Arguments answer : clear implicits.
End DiskExtendibleHashTable.

(** * Page guards (src/storage/page/page_guard.cpp) and the guard factories
      of the buffer pool manager

    A guard holds a pointer to the pool and a pointer to a frame.  There is
    one pool, the state the guard's methods run on, so [bpm_] records
    whether the pointer is set, and [page_] is the frame the [Page *]
    points to.  Page latches ([RLatch], [WLatch] and their unlatch calls)
    are not part of the sequential state. *)

Module BasicPageGuard.
Section PageGuard.
Context {Data : Type}.

Record t : Set := mk {
  bpm_ : bool;
  page_ : option Z;
  is_dirty_ : bool
}.

(** [BasicPageGuard(bpm, page)].  Modelled from the spec: the constructor
    and the initialiser of [is_dirty_] are in page_guard.h, which is not
    among the sources; a guard unpins "passing the dirty flag accumulated on
    the guard", and a new guard has accumulated nothing. *)
Definition new (page : option Z) : t :=
  {| bpm_ := true; page_ := page; is_dirty_ := false |}.

(** What the source of a move is left as: both pointers null. *)
Definition moved_from (that : t) : t :=
  {| bpm_ := false; page_ := None; is_dirty_ := is_dirty_ that |}.

(** [BasicPageGuard(BasicPageGuard &&that)]: the new guard and what is left
    of [that]. *)
Definition move (that : t) : t * t :=
  ({| bpm_ := bpm_ that; page_ := page_ that; is_dirty_ := is_dirty_ that |},
   moved_from that).

Definition Drop (g : t) : M (BufferPoolManager.t Data) t :=
  ((if bpm_ g then
      match page_ g with
      | Some frame_id =>
          let* page := BufferPoolManager.page_at frame_id in
          let* _ := BufferPoolManager.UnpinPage (Page.page_id_ page) (is_dirty_ g) in
          ret tt
      | None => ret tt
      end
    else ret tt);;
   ret {| bpm_ := false; page_ := None; is_dirty_ := is_dirty_ g |})%M.

(** [*this = std::move(that)], declared [noexcept]; [self] tells whether
    [this == &that].  Returns the two guards, the assigned one first. *)
Definition move_assign (self : bool) (this that : t)
    : M (BufferPoolManager.t Data) (t * t) :=
  noexcept
    (if self then ret (this, this)
     else
       let* this := Drop this in
       ret ({| bpm_ := bpm_ that; page_ := page_ that; is_dirty_ := is_dirty_ that |},
            moved_from that))%M.

(** [~BasicPageGuard()]; a destructor is [noexcept]. *)
Definition destroy (g : t) : M (BufferPoolManager.t Data) unit :=
  noexcept (let* _ := Drop g in ret tt)%M.

(** [UpgradeRead] builds a [ReadPageGuard] from the two pointers and nulls
    them in [*this]; the guard returned wraps a [BasicPageGuard] (see
    [ReadPageGuard] below).  Returns that inner guard and what is left of
    [*this]. *)
Definition UpgradeRead (g : t) : t * t :=
  ({| bpm_ := bpm_ g; page_ := page_ g; is_dirty_ := false |},
   {| bpm_ := false; page_ := None; is_dirty_ := is_dirty_ g |}).

(** [UpgradeWrite], likewise with a [WritePageGuard]. *)
Definition UpgradeWrite (g : t) : t * t :=
  ({| bpm_ := bpm_ g; page_ := page_ g; is_dirty_ := false |},
   {| bpm_ := false; page_ := None; is_dirty_ := is_dirty_ g |}).
End PageGuard.
End BasicPageGuard.

(** [ReadPageGuard] and [WritePageGuard] wrap a [BasicPageGuard] in their
    member [guard_]; without the latches a read guard is that member. *)
Module ReadPageGuard.
Section PageGuard.
Context {Data : Type}.

Definition Drop (guard_ : BasicPageGuard.t) : M (BufferPoolManager.t Data) BasicPageGuard.t :=
  BasicPageGuard.Drop guard_.

(** [operator=], declared [noexcept]. *)
Definition move_assign (self : bool) (this that : BasicPageGuard.t)
    : M (BufferPoolManager.t Data) (BasicPageGuard.t * BasicPageGuard.t) :=
  noexcept
    (if self then ret (this, this)
     else BasicPageGuard.move_assign false this that)%M.
End PageGuard.
End ReadPageGuard.

Module WritePageGuard.
Section PageGuard.
Context {Data : Type}.

Definition Drop (guard_ : BasicPageGuard.t) : M (BufferPoolManager.t Data) BasicPageGuard.t :=
  BasicPageGuard.Drop
    {| BasicPageGuard.bpm_ := BasicPageGuard.bpm_ guard_;
       BasicPageGuard.page_ := BasicPageGuard.page_ guard_;
       BasicPageGuard.is_dirty_ := true |}.

(** [operator=], declared [noexcept]. *)
Definition move_assign (self : bool) (this that : BasicPageGuard.t)
    : M (BufferPoolManager.t Data) (BasicPageGuard.t * BasicPageGuard.t) :=
  noexcept
    (if self then ret (this, this)
     else BasicPageGuard.move_assign false this that)%M.
End PageGuard.
End WritePageGuard.

(** The guard factories of buffer_pool_manager.cpp. *)
Module GuardFactory.
Section GuardFactory.
Context {Data : Type}.
Variable zeroed : Data.

Definition FetchPageBasic (page_id : Z) : M (BufferPoolManager.t Data) BasicPageGuard.t :=
  (let* page := BufferPoolManager.FetchPage zeroed page_id in
   ret (BasicPageGuard.new page))%M.

(** The guard returned is a [ReadPageGuard]. *)
Definition FetchPageRead (page_id : Z) : M (BufferPoolManager.t Data) BasicPageGuard.t :=
  (let* page := BufferPoolManager.FetchPage zeroed page_id in
   ret (BasicPageGuard.new page))%M.

(** The guard returned is a [WritePageGuard]. *)
Definition FetchPageWrite (page_id : Z) : M (BufferPoolManager.t Data) BasicPageGuard.t :=
  (let* page := BufferPoolManager.FetchPage zeroed page_id in
   ret (BasicPageGuard.new page))%M.

(** Returns the page id written through the out-parameter, if [NewPage]
    wrote one, and the guard. *)
Definition NewPageGuarded : M (BufferPoolManager.t Data) (option Z * BasicPageGuard.t) :=
  (let* r := BufferPoolManager.NewPage zeroed in
   match r with
   | Some (page_id, frame_id) => ret (Some page_id, BasicPageGuard.new (Some frame_id))
   | None => ret (None, BasicPageGuard.new None)
   end)%M.
End GuardFactory.
End GuardFactory.

(** * Observed-remove set (src/primer/orset.cpp) *)

Module ORSet.
(** [ORSet<int>].  The two members are sequences of (element, uid) pairs:
    the source appends to them with [push_back] and [std::back_inserter]
    and erases through iterators.  Elements and uids are integers, of which
    only [==] and [<] are used. *)
Record t : Set := mk {
  elements : list (Z * Z);
  tombstones : list (Z * Z)
}.

Definition Contains (elem : Z) (s : t) : bool :=
  existsb (fun pair => bool_decide (pair.1 = elem)) (elements s).

(** The inner loop of [Add] and [Merge]: is the pair [it] among the
    tombstones. *)
Definition isInTombstones (tombs : list (Z * Z)) (it : Z * Z) : bool :=
  existsb (fun jt => bool_decide (it.1 = jt.1) && bool_decide (it.2 = jt.2)) tombs.

(** The outer loop: every element that is among the tombstones is erased. *)
Fixpoint purge (tombs els : list (Z * Z)) : list (Z * Z) :=
  match els with
  | [] => []
  | it :: rest =>
      if isInTombstones tombs it then purge tombs rest
      else it :: purge tombs rest
  end.

Definition Add (elem uid : Z) (s : t) : t :=
  {| elements := purge (tombstones s) (elements s ++ [(elem, uid)]);
     tombstones := tombstones s |}.

(** The loop of [Remove]: the pairs of [elem] are erased and collected in
    [removed], in order.  Returns what stays and [removed]. *)
Fixpoint take_out (elem : Z) (els : list (Z * Z)) : list (Z * Z) * list (Z * Z) :=
  match els with
  | [] => ([], [])
  | it :: rest =>
      let '(kept, removed) := take_out elem rest in
      if bool_decide (it.1 = elem) then (kept, it :: removed)
      else (it :: kept, removed)
  end.

Definition Remove (elem : Z) (s : t) : t :=
  let '(kept, removed) := take_out elem (elements s) in
  {| elements := kept; tombstones := tombstones s ++ removed |}.

(** [operator<] of [std::pair]. *)
Definition pair_lt (a b : Z * Z) : bool :=
  bool_decide (a.1 < b.1) || (negb (bool_decide (b.1 < a.1)) && bool_decide (a.2 < b.2)).

(** [std::set::insert] on the sorted sequence of the set's keys: a key
    equivalent to one already present is not inserted. *)
Fixpoint set_insert (x : Z * Z) (s : list (Z * Z)) : list (Z * Z) :=
  match s with
  | [] => [x]
  | y :: s' =>
      if pair_lt x y then x :: s
      else if pair_lt y x then y :: set_insert x s'
      else s
  end.

(** [std::set<std::pair<T, uid_t>>(first, last)], as the sequence its
    iteration yields. *)
Definition to_set (l : list (Z * Z)) : list (Z * Z) :=
  foldl (fun s x => set_insert x s) [] l.

(** [this->Merge(other)], for [other] an object distinct from [*this]. *)
Definition Merge (other : t) (s : t) : t :=
  let tombs := to_set (tombstones s ++ tombstones other) in
  let els := to_set (elements s ++ elements other) in
  {| elements := purge tombs els; tombstones := tombs |}.

Definition Elements (s : t) : list Z := (elements s).*1.
End ORSet.

(** * Facts

    ** Machine integers and the monad *)

Lemma to_int_id x : is_int x -> to_int x = x.
Proof. unfold is_int, to_int. intros H. rewrite Z.mod_small; lia. Qed.

Lemma wrap32_id x : 0 <= x < 2 ^ 32 -> wrap32 x = x.
Proof. unfold wrap32. intros H. rewrite Z.mod_small; lia. Qed.

Lemma bind_Ret {St A B} (m : M St A) (f : A -> M St B) s a s' :
  m s = Ret a s' -> bind m f s = f a s'.
Proof. intros H. unfold bind. by rewrite H. Qed.

Module LRUKReplacerFacts.
Import LRUKNode LRUKReplacer.


Lemma extends_refl ns : extends ns ns.
Proof. intros g. by left. Qed.

Lemma extends_trans ns1 ns2 ns3 : extends ns1 ns2 -> extends ns2 ns3 -> extends ns1 ns3.
Proof.
  intros H12 H23 g. destruct (H12 g) as [E|[E1 E2]], (H23 g) as [F|[F1 F2]].
  - left. congruence.
  - right. split; congruence.
  - right. split; congruence.
  - congruence.
Qed.


Lemma extends_evictable ns ns' g : extends ns ns' -> evictable ns' g = evictable ns g.
Proof.
  intros H. unfold evictable. destruct (H g) as [->|[-> ->]]; reflexivity.
Qed.

Lemma extends_tracked ns ns' g :
  extends ns ns' -> is_Some (ns !! g) -> ns' !! g = ns !! g.
Proof.
  intros H [n Hn]. destruct (H g) as [E|[E _]]; congruence.
Qed.

Lemma subscript_spec ns f :
  extends ns (subscript ns f).2 /\
  is_evictable_ (subscript ns f).1 = evictable ns f.
Proof.
  unfold subscript, evictable. destruct (ns !! f) as [n|] eqn:E; simpl.
  - split; [apply extends_refl | reflexivity].
  - split; [|reflexivity]. intros g. destruct (decide (g = f)) as [->|Hne].
    + right. by rewrite lookup_insert_eq.
    + left. by rewrite lookup_insert_ne.
Qed.

(** What the reverse scan finds: the first evictable frame of [rl], with
    the frames before it not evictable. *)
Lemma scan_spec rl : forall ns,
  extends ns (scan rl ns).2 /\
  match (scan rl ns).1 with
  | Some (f, rest) =>
      exists pre post, rl = pre ++ f :: post /\ rest = pre ++ post /\
        Forall (fun g => evictable ns g = false) pre /\ evictable ns f = true
  | None => Forall (fun g => evictable ns g = false) rl
  end.
Proof.
  induction rl as [|f rest IH]; intros ns; simpl.
  - split; [apply extends_refl | constructor].
  - destruct (subscript_spec ns f) as [Hext Hev].
    destruct (subscript ns f) as [n ns1]; simpl in *.
    destruct (is_evictable_ n) eqn:En; simpl.
    + split; [done|]. exists [], rest. by repeat split.
    + destruct (IH ns1) as [Hext' Hr].
      destruct (scan rest ns1) as [r ns2]; simpl in *.
      split; [by eapply extends_trans|].
      destruct r as [[v rest']|].
      * destruct Hr as (pre & post & -> & -> & Hpre & Hv).
        exists (f :: pre), post. repeat split; [|by rewrite <- (extends_evictable ns ns1)].
        constructor; [done|].
        eapply Forall_impl; [exact Hpre|]. intros g Hg. simpl in Hg.
        by rewrite <- (extends_evictable ns ns1).
      * constructor; [done|].
        eapply Forall_impl; [exact Hr|]. intros g Hg. simpl in Hg.
        by rewrite <- (extends_evictable ns ns1).
Qed.

(** The same, read on the list in its own order: the victim is the
    evictable frame closest to the tail. *)
Lemma scan_rev_spec l ns :
  extends ns (scan (rev l) ns).2 /\
  match (scan (rev l) ns).1 with
  | Some (f, rest) =>
      exists l1 l2, l = l1 ++ f :: l2 /\ rev rest = l1 ++ l2 /\
        Forall (fun g => evictable ns g = false) l2 /\ evictable ns f = true
  | None => Forall (fun g => evictable ns g = false) l
  end.
Proof.
  destruct (scan_spec (rev l) ns) as [Hext H]. split; [done|].
  destruct (scan (rev l) ns).1 as [[f rest]|].
  - destruct H as (pre & post & Hl & -> & Hpre & Hf).
    exists (rev post), (rev pre). repeat split; [| |by apply Forall_rev|done].
    + apply (f_equal (@rev Z)) in Hl. rewrite rev_involutive in Hl.
      rewrite Hl, rev_app_distr. simpl. by rewrite <- app_assoc.
    + by rewrite rev_app_distr.
  - rewrite <- (rev_involutive l). by apply Forall_rev.
Qed.

Lemma tracked_all_insert P ns f n :
  P f -> tracked_all P ns -> tracked_all P (<[f := n]> ns).
Proof.
  intros Hf H g [m Hm]. destruct (decide (g = f)) as [->|Hne]; [done|].
  rewrite lookup_insert_ne in Hm by done. apply H. by exists m.
Qed.

Lemma tracked_all_delete P ns f :
  tracked_all P ns -> tracked_all P (delete f ns).
Proof.
  intros H g [m Hm]. apply lookup_delete_Some in Hm as [_ Hm]. apply H. by exists m.
Qed.

Lemma tracked_all_subscript P ns f :
  P f -> tracked_all P ns -> tracked_all P (subscript ns f).2.
Proof.
  intros Hf H. unfold subscript. destruct (ns !! f); simpl; [done|].
  by apply tracked_all_insert.
Qed.

Lemma scan_tracked P rl : forall ns,
  Forall P rl -> tracked_all P ns -> tracked_all P (scan rl ns).2.
Proof.
  induction rl as [|f rest IH]; intros ns Hrl Hns; simpl; [done|].
  inversion Hrl as [|? ? Hf Hrest]; subst.
  pose proof (tracked_all_subscript P ns f Hf Hns) as H1.
  destruct (subscript ns f) as [n ns1]; simpl in *.
  destruct (is_evictable_ n); simpl; [done|].
  specialize (IH ns1 Hrest H1).
  destruct (scan rest ns1) as [r ns2]; simpl in *. done.
Qed.

Lemma subscript_tracked ns f n :
  ns !! f = Some n -> subscript ns f = (n, ns).
Proof. intros H. unfold subscript. by rewrite H. Qed.

Lemma scan_tracked_id rl : forall ns,
  Forall (fun g => is_Some (ns !! g)) rl -> (scan rl ns).2 = ns.
Proof.
  induction rl as [|f rest IH]; intros ns Hall; simpl; [done|].
  inversion Hall as [|? ? [n Hn] Hrest]; subst.
  rewrite (subscript_tracked ns f n Hn).
  destruct (is_evictable_ n); simpl; [done|].
  specialize (IH ns Hrest). by destruct (scan rest ns) as [r ns2].
Qed.

(** The three ways [Evict] can go. *)
Lemma Evict_cases (s : LRUKReplacer.t) :
  let ns := node_store_ s in
  let quiet l := Forall (fun g => evictable ns g = false) l in
  exists ns2,
    extends ns ns2 /\
    (forall P, Forall P (hist_list_ s ++ cache_list_ s) ->
               tracked_all P ns -> tracked_all P ns2) /\
    (Forall (fun g => is_Some (ns !! g)) (hist_list_ s ++ cache_list_ s) -> ns2 = ns) /\
    ((exists f l1 l2,
        hist_list_ s = l1 ++ f :: l2 /\ quiet l2 /\ evictable ns f = true /\
        Evict s = (Some f,
                   {| node_store_ := delete f ns2; hist_list_ := l1 ++ l2;
                      cache_list_ := cache_list_ s;
                      curr_size_ := wrap64 (curr_size_ s - 1);
                      replacer_size_ := replacer_size_ s; k_ := k_ s |}))
     \/
     (exists f l1 l2,
        quiet (hist_list_ s) /\
        cache_list_ s = l1 ++ f :: l2 /\ quiet l2 /\ evictable ns f = true /\
        Evict s = (Some f,
                   {| node_store_ := delete f ns2; hist_list_ := hist_list_ s;
                      cache_list_ := l1 ++ l2;
                      curr_size_ := wrap64 (curr_size_ s - 1);
                      replacer_size_ := replacer_size_ s; k_ := k_ s |}))
     \/
     (quiet (hist_list_ s ++ cache_list_ s) /\
      Evict s = (None, set_node_store ns2 s))).
Proof.
  intros ns quiet. subst ns quiet. unfold Evict.
  destruct (scan_rev_spec (hist_list_ s) (node_store_ s)) as [Hext1 H1].
  pose proof (fun P => scan_tracked P (rev (hist_list_ s)) (node_store_ s)) as Ht1.
  pose proof (scan_tracked_id (rev (hist_list_ s)) (node_store_ s)) as Hid1.
  assert (Hh : (if negb (empty (hist_list_ s))
                then scan (rev (hist_list_ s)) (node_store_ s)
                else (None, node_store_ s))
               = scan (rev (hist_list_ s)) (node_store_ s)).
  { destruct (hist_list_ s); reflexivity. }
  rewrite Hh. clear Hh.
  destruct (scan (rev (hist_list_ s)) (node_store_ s)) as [r1 ns1]; simpl in *.
  destruct r1 as [[f rest]|].
  - destruct H1 as (l1 & l2 & Hl & Hrest & Hl2 & Hf).
    exists ns1. split; [done|]. split; [|split].
    + intros P HP. apply Forall_app in HP as [HPh HPc].
      apply Ht1. by apply Forall_rev.
    + intros HP. apply Forall_app in HP as [HPh HPc].
      apply Hid1. by apply Forall_rev.
    + left. exists f, l1, l2. rewrite Hrest. by repeat split.
  - destruct (scan_rev_spec (cache_list_ s) ns1) as [Hext2 H2].
    pose proof (fun P => scan_tracked P (rev (cache_list_ s)) ns1) as Ht2.
    pose proof (scan_tracked_id (rev (cache_list_ s)) ns1) as Hid2.
    destruct (cache_list_ s) as [|c0 cl] eqn:Ecl.
    { exists ns1. simpl. split; [done|]. split; [|split].
      - intros P HP. apply Forall_app in HP as [HPh HPc].
        apply Ht1. by apply Forall_rev.
      - intros HP. apply Forall_app in HP as [HPh HPc].
        apply Hid1. by apply Forall_rev.
      - right. right. split; [|done]. by rewrite app_nil_r. }
    simpl negb. cbv iota. rewrite <- Ecl in *.
    assert (Hquiet : forall l, Forall (fun g => evictable ns1 g = false) l ->
                               Forall (fun g => evictable (node_store_ s) g = false) l).
    { intros l Hl. eapply Forall_impl; [exact Hl|]. intros g Hg. simpl in Hg.
      by rewrite <- (extends_evictable _ _ _ Hext1). }
    destruct (scan (rev (cache_list_ s)) ns1) as [r2 ns2]; simpl in *.
    assert (Hns2 : Forall (fun g => is_Some (node_store_ s !! g))
                     (hist_list_ s ++ cache_list_ s) -> ns2 = node_store_ s).
    { intros HP. apply Forall_app in HP as [HPh HPc].
      assert (ns1 = node_store_ s) as E1 by (apply Hid1; by apply Forall_rev).
      rewrite E1 in Hid2. apply Hid2. by apply Forall_rev. }
    assert (Htr2 : forall P, Forall P (hist_list_ s ++ cache_list_ s) ->
                     tracked_all P (node_store_ s) -> tracked_all P ns2).
    { intros P HP Hns. apply Forall_app in HP as [HPh HPc].
      apply Ht2; [by apply Forall_rev|]. apply Ht1; [by apply Forall_rev|done]. }
    exists ns2. split; [by eapply extends_trans|]. split; [done|]. split; [done|].
    destruct r2 as [[f rest]|]; simpl.
    + destruct H2 as (l1 & l2 & Hl & Hrest & Hl2 & Hf).
      right. left. exists f, l1, l2. rewrite Hrest.
      rewrite (extends_evictable _ _ _ Hext1) in Hf.
      split; [done|]. split; [done|]. split; [by apply Hquiet|]. by split.
    + right. right. split; [|done]. apply Forall_app. split; [done|by apply Hquiet].
Qed.


(** C4.  In every replacer state that lists at least one evictable frame,
    [Evict] returns an evictable frame [f].  If the history list holds an
    evictable frame, [f] is the one closest to its tail (every frame behind
    it, [l2], is not evictable) and the cache list is untouched; only when no
    frame of the history list is evictable does [f] come from the cache
    list, again the evictable frame closest to the tail.  The cell of [f] is
    unlinked from its list, [f] leaves the node store (the nodes of the
    other tracked frames are unchanged) and [curr_size_] is decremented. *)
Theorem Evict_prefers_history_tail (s : LRUKReplacer.t) :
  (exists g, g ∈ hist_list_ s ++ cache_list_ s /\ evictable (node_store_ s) g = true) ->
  exists f s' l1 l2,
    Evict s = (Some f, s') /\
    evictable (node_store_ s) f = true /\
    Forall (fun g => evictable (node_store_ s) g = false) l2 /\
    ((hist_list_ s = l1 ++ f :: l2 /\ hist_list_ s' = l1 ++ l2 /\
      cache_list_ s' = cache_list_ s)
     \/
     (Forall (fun g => evictable (node_store_ s) g = false) (hist_list_ s) /\
      cache_list_ s = l1 ++ f :: l2 /\ cache_list_ s' = l1 ++ l2 /\
      hist_list_ s' = hist_list_ s)) /\
    node_store_ s' !! f = None /\
    (forall g, g <> f -> is_Some (node_store_ s !! g) ->
               node_store_ s' !! g = node_store_ s !! g) /\
    curr_size_ s' = wrap64 (curr_size_ s - 1).
Proof.
  intros (g & Hg & Hev).
  destruct (Evict_cases s) as (ns2 & Hext & _ & _ & Hcases).
  assert (Hstore : forall f, delete f ns2 !! f = None /\
            forall g', g' <> f -> is_Some (node_store_ s !! g') ->
                       delete f ns2 !! g' = node_store_ s !! g').
  { intros f. split; [apply lookup_delete_eq|].
    intros g' Hne Hsome. rewrite lookup_delete_ne by done.
    by apply extends_tracked. }
  destruct Hcases as [(f & l1 & l2 & Eh & Hq & Hf & HE)
                     |[(f & l1 & l2 & Hqh & Ec & Hq & Hf & HE)|[Hq HE]]].
  - eexists f, _, l1, l2. split; [exact HE|]. simpl.
    destruct (Hstore f) as [Hnone Hrest].
    split; [done|]. split; [done|]. split; [by left|]. by split.
  - eexists f, _, l1, l2. split; [exact HE|]. simpl.
    destruct (Hstore f) as [Hnone Hrest].
    split; [done|]. split; [done|]. split; [by right|]. by split.
  - rewrite Forall_forall in Hq. apply Hq in Hg. congruence.
Qed.

(** A state with frames 3, 2, 1 in the history list (1 at the tail) and 4 in
    the cache list; 1, 3 and 4 are evictable. *)
Lemma Evict_prefers_history_tail_witness :
  let s :=
    {| node_store_ :=
         <[1 := LRUKNode.mk 1 true (Some Hist)]>
           (<[2 := LRUKNode.mk 1 false (Some Hist)]>
              (<[3 := LRUKNode.mk 1 true (Some Hist)]>
                 (<[4 := LRUKNode.mk 2 true (Some Cache)]> ∅)));
       hist_list_ := [3; 2; 1]; cache_list_ := [4];
       curr_size_ := 3; replacer_size_ := 7; k_ := 2 |} in
  (exists g, g ∈ hist_list_ s ++ cache_list_ s /\ evictable (node_store_ s) g = true) /\
  (Evict s).1 = Some 1 /\
  exists f s' l1 l2,
    Evict s = (Some f, s') /\
    evictable (node_store_ s) f = true /\
    Forall (fun g => evictable (node_store_ s) g = false) l2 /\
    ((hist_list_ s = l1 ++ f :: l2 /\ hist_list_ s' = l1 ++ l2 /\
      cache_list_ s' = cache_list_ s)
     \/
     (Forall (fun g => evictable (node_store_ s) g = false) (hist_list_ s) /\
      cache_list_ s = l1 ++ f :: l2 /\ cache_list_ s' = l1 ++ l2 /\
      hist_list_ s' = hist_list_ s)) /\
    node_store_ s' !! f = None /\
    (forall g, g <> f -> is_Some (node_store_ s !! g) ->
               node_store_ s' !! g = node_store_ s !! g) /\
    curr_size_ s' = wrap64 (curr_size_ s - 1).
Proof.
  intros s.
  assert (H : exists g, g ∈ hist_list_ s ++ cache_list_ s
                        /\ evictable (node_store_ s) g = true).
  { exists 4. split; [simpl; repeat constructor | vm_compute; reflexivity]. }
  split; [exact H|]. split; [vm_compute; reflexivity|].
  exact (Evict_prefers_history_tail s H).
Defined.

(** [SetEvictable(frame, true)] on a tracked, valid frame returns and leaves
    the frame evictable. *)
Lemma SetEvictable_marks_evictable s f n :
  invalid_frame s f = false -> node_store_ s !! f = Some n ->
  exists s', SetEvictable f true s = Ret tt s' /\
             evictable (node_store_ s') f = true.
Proof.
  intros Hv Hn. unfold SetEvictable. rewrite Hv, Hn.
  eexists. split; [reflexivity|]. unfold evictable. simpl.
  by rewrite lookup_insert_eq.
Qed.

(** C6, counterexample.  A frame id equal to [num_frames] passes the guard
    [frame_id > static_cast<int>(replacer_size_)]: the call returns and the
    frame is now tracked at the front of the history list. *)
Lemma RecordAccess_accepts_frame_equal_to_num_frames :
  7 >= replacer_size_ (LRUKReplacer.new 7 2) /\
  exists s',
    RecordAccess 7 (LRUKReplacer.new 7 2) = Ret tt s' /\
    hist_list_ s' = [7] /\
    node_store_ s' !! 7 = Some (LRUKNode.mk 1 false (Some Hist)) /\
    s' <> LRUKReplacer.new 7 2.
Proof.
  split; [simpl; lia|]. eexists. split; [vm_compute; reflexivity|].
  split; [reflexivity|]. split; [vm_compute; reflexivity|]. discriminate.
Qed.

(** C6, as amended.  For every frame id strictly greater than [num_frames],
    [RecordAccess] throws [std::invalid_argument] and leaves the replacer
    (node store, history list, cache list, [curr_size_]) unchanged. *)
Theorem RecordAccess_rejects_above_num_frames (s : LRUKReplacer.t) (frame_id : Z) :
  is_int frame_id -> is_size_t (replacer_size_ s) ->
  frame_id > replacer_size_ s ->
  RecordAccess frame_id s = Throw invalid_argument s.
Proof.
  intros Hf Hs Hgt. unfold RecordAccess, invalid_frame.
  rewrite to_int_id by (unfold is_int, is_size_t in *; lia).
  by rewrite bool_decide_eq_true_2.
Qed.

Lemma RecordAccess_rejects_above_num_frames_witness :
  is_int 8 /\ is_size_t (replacer_size_ (LRUKReplacer.new 7 2)) /\
  8 > replacer_size_ (LRUKReplacer.new 7 2) /\
  RecordAccess 8 (LRUKReplacer.new 7 2) = Throw invalid_argument (LRUKReplacer.new 7 2).
Proof.
  assert (H1 : is_int 8) by (unfold is_int; lia).
  assert (H2 : is_size_t (replacer_size_ (LRUKReplacer.new 7 2)))
    by (unfold is_size_t; simpl; lia).
  assert (H3 : 8 > replacer_size_ (LRUKReplacer.new 7 2)) by (simpl; lia).
  split; [exact H1|]. split; [exact H2|]. split; [exact H3|].
  exact (RecordAccess_rejects_above_num_frames _ 8 H1 H2 H3).
Defined.

(** C10.  For every frame id absent from the node store, [Remove] returns
    without throwing and leaves the replacer (node store, history list,
    cache list, [curr_size_]) unchanged. *)
Theorem Remove_untracked_is_noop (s : LRUKReplacer.t) (frame_id : Z) :
  node_store_ s !! frame_id = None ->
  Remove frame_id s = Ret tt s.
Proof. intros H. unfold Remove. by rewrite H. Qed.

Lemma Remove_untracked_is_noop_witness :
  node_store_ (LRUKReplacer.new 7 2) !! 3 = None /\
  Remove 3 (LRUKReplacer.new 7 2) = Ret tt (LRUKReplacer.new 7 2).
Proof.
  assert (H : node_store_ (LRUKReplacer.new 7 2) !! 3 = None) by reflexivity.
  split; [exact H | exact (Remove_untracked_is_noop _ 3 H)].
Defined.

(** *** Counting evictable frames *)

Lemma evictable_count_insert ns f n :
  evictable_count (<[f := n]> ns)
  = ((if is_evictable_ n then 1 else 0) + evictable_count (delete f ns))%nat.
Proof.
  unfold evictable_count. rewrite map_filter_insert. simpl.
  destruct (is_evictable_ n) eqn:E.
  - rewrite decide_True by done.
    rewrite <- insert_delete_eq, map_size_insert_None by apply lookup_delete_eq.
    by rewrite map_filter_delete.
  - rewrite decide_False by (simpl; congruence). done.
Qed.

Lemma evictable_count_delete ns f :
  evictable_count ns
  = ((if evictable ns f then 1 else 0) + evictable_count (delete f ns))%nat.
Proof.
  unfold evictable. destruct (ns !! f) as [n|] eqn:E.
  - rewrite <- (insert_delete_id ns f n) at 1 by done.
    by rewrite evictable_count_insert, delete_delete_eq.
  - by rewrite delete_id.
Qed.

Lemma evictable_count_extends ns ns' :
  extends ns ns' -> evictable_count ns' = evictable_count ns.
Proof.
  intros H. unfold evictable_count. f_equal.
  apply map_eq. intros g. apply option_eq. intros n.
  rewrite !map_lookup_filter_Some. simpl.
  destruct (H g) as [->|[E1 E2]]; [done|]. rewrite E1, E2.
  split; intros [E Hev]; [|done]. by inversion E; subst.
Qed.

Lemma NoDup_bounded_length (n : nat) (l : list nat) :
  NoDup l -> Forall (fun x => (x < n)%nat) l -> (length l <= n)%nat.
Proof.
  intros Hnd Hall.
  transitivity (length (seq 0 n)); [|by rewrite length_seq].
  apply NoDup_incl_length; [by apply NoDup_ListNoDup|].
  intros x Hx. apply in_seq. rewrite Forall_forall in Hall.
  apply list_elem_of_In, Hall in Hx. lia.
Qed.

Lemma tracked_int_size ns :
  tracked_all is_int ns -> Z.of_nat (size ns) <= 2 ^ 32.
Proof.
  intros Hall. rewrite <- length_map_to_list.
  rewrite <- (length_fmap fst).
  rewrite <- (length_fmap (fun z => Z.to_nat (z + 2 ^ 31))).
  assert (Hin : forall z, z ∈ (map_to_list ns).*1 -> is_int z).
  { intros z Hz. apply list_elem_of_fmap in Hz as [[z' n] [-> Hz]].
    apply elem_of_map_to_list in Hz. apply Hall. by exists n. }
  pose proof (NoDup_bounded_length (Z.to_nat (2 ^ 32))
                ((fun z => Z.to_nat (z + 2 ^ 31)) <$> (map_to_list ns).*1)) as Hb.
  assert (Hlen : (length ((fun z => Z.to_nat (z + 2 ^ 31)) <$> (map_to_list ns).*1)
                  <= Z.to_nat (2 ^ 32))%nat).
  { apply Hb.
    - apply NoDup_fmap_2_strong; [|apply NoDup_fst_map_to_list].
      intros x y Hx%Hin Hy%Hin. unfold is_int in *. lia.
    - apply Forall_fmap, Forall_forall. intros z Hz%Hin. simpl.
      unfold is_int in *. lia. }
  lia.
Qed.

Lemma evictable_count_le_size ns : (evictable_count ns <= size ns)%nat.
Proof. apply map_size_filter. Qed.

(** *** The invariant behind [Size] *)


Lemma counted_new num_frames k : counted (LRUKReplacer.new num_frames k).
Proof.
  split; simpl.
  - unfold evictable_count. by rewrite map_filter_empty, map_size_empty.
  - intros g [n Hn]. by rewrite lookup_empty in Hn.
  - constructor.
Qed.

Lemma Forall_remove_first (P : Z -> Prop) f l :
  Forall P l -> Forall P (remove_first f l).
Proof.
  induction 1 as [|x l Hx Hl IH]; simpl; [constructor|].
  case_bool_decide; [done|by constructor].
Qed.

Lemma erase_Forall (P : Z -> Prop) tag l f pos l' :
  erase tag l f pos = Some l' -> Forall P l -> Forall P l'.
Proof.
  unfold erase. destruct pos as [tag'|]; [|done].
  destruct (_ && _); [|done]. intros [= <-]. apply Forall_remove_first.
Qed.

Lemma counted_Evict s : counted s -> counted (Evict s).2.
Proof.
  intros [Hsz Htr Hls].
  destruct (Evict_cases s) as (ns2 & Hext & HP & _ & Hcases).
  pose proof (HP is_int Hls Htr) as Htr2.
  assert (Hdec : forall f, evictable (node_store_ s) f = true ->
            wrap64 (curr_size_ s - 1) = Z.of_nat (evictable_count (delete f ns2))).
  { intros f Hev. rewrite Hsz, <- (evictable_count_extends _ _ Hext).
    rewrite <- (extends_evictable _ _ f Hext) in Hev.
    rewrite (evictable_count_delete ns2 f), Hev.
    pose proof (evictable_count_le_size (delete f ns2)) as Hle.
    pose proof (tracked_int_size (delete f ns2) (tracked_all_delete _ _ _ Htr2)) as Hb.
    unfold wrap64. rewrite Z.mod_small; lia. }
  destruct Hcases as [(f & l1 & l2 & Eh & _ & Hf & ->)
                     |[(f & l1 & l2 & _ & Ec & _ & Hf & ->)|[_ ->]]]; simpl.
  - split; simpl; [by apply Hdec|by apply tracked_all_delete|].
    rewrite Eh in Hls. revert Hls. rewrite !Forall_app, Forall_cons. tauto.
  - split; simpl; [by apply Hdec|by apply tracked_all_delete|].
    rewrite Ec in Hls. revert Hls. rewrite !Forall_app, Forall_cons. tauto.
  - split; simpl; [|done..]. by rewrite (evictable_count_extends _ _ Hext).
Qed.

Lemma evictable_count_update ns f n n' :
  ns !! f = Some n -> is_evictable_ n' = is_evictable_ n ->
  evictable_count (<[f := n']> ns) = evictable_count ns.
Proof.
  intros Hn Hev. rewrite evictable_count_insert, (evictable_count_delete ns f).
  unfold evictable. by rewrite Hn, Hev.
Qed.

Lemma subscript_lookup ns f :
  (subscript ns f).2 !! f = Some (subscript ns f).1.
Proof.
  unfold subscript. destruct (ns !! f) eqn:E; simpl; [done|].
  by rewrite lookup_insert_eq.
Qed.

Lemma counted_RecordAccess f s a s' :
  is_int f -> counted s ->
  RecordAccess f s = Ret a s' \/ (exists e, RecordAccess f s = Throw e s') ->
  counted s'.
Proof.
  intros Hf [Hsz Htr Hls] Hrun. unfold RecordAccess in Hrun.
  destruct (invalid_frame s f).
  { destruct Hrun as [?|[e He]]; [done|]. inversion He; subst. by split. }
  destruct (subscript_spec (node_store_ s) f) as [Hext Hev].
  pose proof (subscript_lookup (node_store_ s) f) as Hlk.
  pose proof (tracked_all_subscript is_int _ f Hf Htr) as Htr1.
  destruct (subscript (node_store_ s) f) as [n ns1]; simpl in *.
  apply Forall_app in Hls as [Hh Hc].
  assert (Hcount : forall pos,
    Z.of_nat (evictable_count
      (<[f := {| LRUKNode.k_ := wrap64 (LRUKNode.k_ n + 1);
                 is_evictable_ := is_evictable_ n; pos_ := pos |}]> ns1))
    = curr_size_ s).
  { intros pos. rewrite (evictable_count_update ns1 f n) by done.
    by rewrite (evictable_count_extends _ _ Hext). }
  repeat case_bool_decide.
  - destruct Hrun as [Hrun|[e Hrun]]; [|done]. inversion Hrun; subst; simpl.
    split; simpl; [by rewrite Hcount|by apply tracked_all_insert|].
    rewrite ?Forall_cons, ?Forall_app; eauto using erase_Forall.
  - destruct (erase Hist (hist_list_ s) f (pos_ n)) as [hist|] eqn:Eer.
    2:{ destruct Hrun as [?|[? ?]]; done. }
    destruct Hrun as [Hrun|[e Hrun]]; [|done]. inversion Hrun; subst; simpl.
    split; simpl; [by rewrite Hcount|by apply tracked_all_insert|].
    rewrite ?Forall_cons, ?Forall_app; eauto using erase_Forall.
  - destruct (erase Cache (cache_list_ s) f (pos_ n)) as [cache|] eqn:Eer.
    2:{ destruct Hrun as [?|[? ?]]; done. }
    destruct Hrun as [Hrun|[e Hrun]]; [|done]. inversion Hrun; subst; simpl.
    split; simpl; [by rewrite Hcount|by apply tracked_all_insert|].
    rewrite ?Forall_cons, ?Forall_app; eauto using erase_Forall.
  - destruct Hrun as [Hrun|[e Hrun]]; [|done]. inversion Hrun; subst; simpl.
    split; simpl; [by rewrite Hcount|by apply tracked_all_insert|].
    rewrite ?Forall_cons, ?Forall_app; eauto using erase_Forall.
Qed.

Lemma counted_SetEvictable f b s a s' :
  counted s ->
  SetEvictable f b s = Ret a s' \/ (exists e, SetEvictable f b s = Throw e s') ->
  counted s'.
Proof.
  intros [Hsz Htr Hls] Hrun. unfold SetEvictable in Hrun.
  destruct (invalid_frame s f).
  { destruct Hrun as [?|[e He]]; [done|]. inversion He; subst. by split. }
  destruct (node_store_ s !! f) as [n|] eqn:En.
  2:{ destruct Hrun as [Hrun|[e Hrun]]; [|done]. inversion Hrun; subst. by split. }
  destruct Hrun as [Hrun|[e Hrun]]; [|done]. inversion Hrun; subst; simpl.
  assert (Hf : is_int f) by (apply Htr; by exists n).
  split; simpl; [|by apply tracked_all_insert|done].
  rewrite evictable_count_insert. simpl.
  pose proof (evictable_count_delete (node_store_ s) f) as Hd.
  unfold evictable in Hd. rewrite En in Hd.
  pose proof (evictable_count_le_size (delete f (node_store_ s))) as Hle.
  pose proof (tracked_int_size _ Htr) as Hb.
  pose proof (map_size_delete_Some f (node_store_ s) (ltac:(by exists n))) as Hsd.
  assert (size (node_store_ s) <> 0)%nat
    by (apply (map_size_ne_0_lookup_2 _ f); by exists n).
  unfold wrap64.
  destruct b, (is_evictable_ n); simpl; rewrite ?Z.mod_small; lia.
Qed.

Lemma counted_Remove f s a s' :
  counted s ->
  Remove f s = Ret a s' \/ (exists e, Remove f s = Throw e s') ->
  counted s'.
Proof.
  intros [Hsz Htr Hls] Hrun. unfold Remove in Hrun.
  destruct (node_store_ s !! f) as [n|] eqn:En.
  2:{ destruct Hrun as [Hrun|[e Hrun]]; [|done]. inversion Hrun; subst. by split. }
  destruct (is_evictable_ n) eqn:Ev; simpl in Hrun.
  2:{ destruct Hrun as [?|[e He]]; [done|]. inversion He; subst. by split. }
  apply Forall_app in Hls as [Hh Hc].
  assert (Hcnt : wrap64 (curr_size_ s - 1)
                 = Z.of_nat (evictable_count (delete f (node_store_ s)))).
  { rewrite Hsz, (evictable_count_delete (node_store_ s) f).
    unfold evictable. rewrite En, Ev.
    pose proof (evictable_count_le_size (delete f (node_store_ s))) as Hle.
    pose proof (tracked_int_size _ (tracked_all_delete _ _ f Htr)) as Hb.
    unfold wrap64. rewrite Z.mod_small; lia. }
  case_bool_decide.
  - destruct (erase Hist (hist_list_ s) f (pos_ n)) as [hist|] eqn:Eer; simpl in Hrun.
    2:{ destruct Hrun as [?|[? ?]]; done. }
    destruct Hrun as [Hrun|[e Hrun]]; [|done]. inversion Hrun; subst; simpl.
    split; simpl; [done|by apply tracked_all_delete|].
    rewrite ?Forall_cons, ?Forall_app; eauto using erase_Forall.
  - destruct (erase Cache (cache_list_ s) f (pos_ n)) as [cache|] eqn:Eer; simpl in Hrun.
    2:{ destruct Hrun as [?|[? ?]]; done. }
    destruct Hrun as [Hrun|[e Hrun]]; [|done]. inversion Hrun; subst; simpl.
    split; simpl; [done|by apply tracked_all_delete|].
    rewrite ?Forall_cons, ?Forall_app; eauto using erase_Forall.
Qed.

Lemma counted_exec c s a s' :
  call_frame_ok c -> counted s ->
  exec c s = Ret a s' \/ (exists e, exec c s = Throw e s') ->
  counted s'.
Proof.
  intros Hok Hinv Hrun. destruct c as [f|f b| |f]; simpl in *.
  - by eapply counted_RecordAccess.
  - by eapply counted_SetEvictable.
  - destruct Hrun as [Hrun|[e Hrun]]; [|done]. inversion Hrun; subst.
    by apply counted_Evict.
  - by eapply counted_Remove.
Qed.

Lemma counted_play cs : forall locked s s',
  Forall call_frame_ok cs -> counted s -> play locked cs s = Ret tt s' -> counted s'.
Proof.
  induction cs as [|c cs IH]; intros locked s s' Hok Hinv Hrun; simpl in Hrun.
  - by inversion Hrun; subst.
  - inversion Hok as [|? ? Hc Hcs]; subst.
    destruct locked; [done|].
    destruct (exec c s) as [a s1|e s1|x] eqn:Ex; [| |done].
    + eapply IH; [done| |done]. apply (counted_exec c s a s1 Hc Hinv). by left.
    + eapply IH; [done| |done]. apply (counted_exec c s tt s1 Hc Hinv). right. by exists e.
Qed.

Lemma run_Some cs s s' : run cs s = Some s' <-> play false cs s = Ret tt s'.
Proof.
  unfold run. destruct (play false cs s) as [[] s1|e s1|x]; split; intros H;
    (done || by inversion H).
Qed.

(** [curr_size_] counts the evictable frames in every state a sequence of
    calls ends in. *)
Lemma counted_run cs : forall s s',
  Forall call_frame_ok cs -> counted s -> run cs s = Some s' -> counted s'.
Proof.
  intros s s' Hok Hinv Hrun. apply run_Some in Hrun. by eapply counted_play.
Qed.

(** *** The list structure *)

Lemma placed_new num_frames k : 2 <= k -> placed 0 (LRUKReplacer.new num_frames k).
Proof.
  intros Hk. split; simpl; [done|constructor|].
  intros f. rewrite lookup_empty. set_solver.
Qed.

Lemma placed_mono b b' s : b <= b' -> placed b s -> placed b' s.
Proof.
  intros Hb [Hk Hnd Hn]. split; [done..|].
  intros f. specialize (Hn f). destruct (node_store_ s !! f); [|done].
  destruct Hn as [Hc Hp]. split; [lia|done].
Qed.

Lemma remove_first_decompose f l :
  f ∈ l -> exists l1 l2, l = l1 ++ f :: l2 /\ remove_first f l = l1 ++ l2.
Proof.
  induction l as [|x l IH]; intros Hf; [by inversion Hf|]. simpl.
  case_bool_decide as Hx.
  - subst x. by exists [], l.
  - apply elem_of_cons in Hf as [?|Hin]; [congruence|].
    destruct (IH Hin) as (l1 & l2 & -> & ->). by exists (x :: l1), l2.
Qed.

Lemma NoDup_middle (a b : list Z) f :
  NoDup (a ++ f :: b) <-> (f ∉ a ++ b) /\ NoDup (a ++ b).
Proof.
  rewrite <- NoDup_cons. by rewrite (Permutation_middle a b f).
Qed.

Lemma placed_tracked_listed b s :
  placed b s ->
  Forall (fun g => is_Some (node_store_ s !! g)) (hist_list_ s ++ cache_list_ s).
Proof.
  intros [_ _ Hn]. apply Forall_forall. intros g Hg. specialize (Hn g).
  destruct (node_store_ s !! g); [by eexists|done].
Qed.

Lemma wrap64_small x : 0 <= x < 2 ^ 64 -> wrap64 x = x.
Proof. intros H. unfold wrap64. by rewrite Z.mod_small. Qed.

(** Unlinking the cell of a tracked frame and dropping its node. *)
Lemma placed_drop b s f hist cache :
  placed b s ->
  (exists l1 l2, hist_list_ s = l1 ++ f :: l2 /\ hist = l1 ++ l2 /\ cache = cache_list_ s)
  \/ (exists l1 l2, cache_list_ s = l1 ++ f :: l2 /\ cache = l1 ++ l2 /\ hist = hist_list_ s) ->
  forall c,
  placed b {| node_store_ := delete f (node_store_ s); hist_list_ := hist;
              cache_list_ := cache; curr_size_ := c;
              replacer_size_ := replacer_size_ s; k_ := k_ s |}.
Proof.
  intros [Hk Hnd Hn] Hl c.
  assert (Hmem : NoDup (hist ++ cache) /\ (f ∉ hist ++ cache) /\
                 forall g, g <> f -> (g ∈ hist_list_ s -> g ∈ hist) /\
                                     (g ∈ cache_list_ s -> g ∈ cache) /\
                                     (g ∈ hist ++ cache -> g ∈ hist_list_ s ++ cache_list_ s)).
  { destruct Hl as [(l1 & l2 & Eh & -> & ->)|(l1 & l2 & Ec & -> & ->)].
    - rewrite Eh, <- app_assoc in Hnd. simpl in Hnd.
      apply NoDup_middle in Hnd as [Hf Hnd]. rewrite app_assoc in Hf, Hnd.
      split; [done|]. split; [done|]. intros g Hg. rewrite Eh. set_solver.
    - rewrite Ec, app_assoc in Hnd.
      apply NoDup_middle in Hnd as [Hf Hnd]. rewrite <- app_assoc in Hf, Hnd.
      split; [done|]. split; [done|]. intros g Hg. rewrite Ec. set_solver. }
  destruct Hmem as (Hnd' & Hf & Hg).
  split; simpl; [done..|].
  intros g. destruct (decide (g = f)) as [->|Hne].
  - by rewrite lookup_delete_eq.
  - rewrite lookup_delete_ne by done. specialize (Hn g).
    destruct (Hg g Hne) as (Hh & Hc & Hback).
    destruct (node_store_ s !! g) as [n|]; [|by intros ?%Hback].
    destruct Hn as [Hb Hp]. split; [done|].
    destruct (bool_decide (LRUKNode.k_ n < k_ s)); destruct Hp; auto.
Qed.

Lemma placed_Evict b s : placed b s -> placed b (Evict s).2.
Proof.
  intros Hp. destruct (Evict_cases s) as (ns2 & _ & _ & Hid & Hcases).
  rewrite (Hid (placed_tracked_listed b s Hp)) in Hcases.
  destruct Hcases as [(f & l1 & l2 & Eh & _ & _ & ->)
                     |[(f & l1 & l2 & _ & Ec & _ & _ & ->)|[_ ->]]]; simpl.
  - apply placed_drop; [done|]. left. by exists l1, l2.
  - apply placed_drop; [done|]. right. by exists l1, l2.
  - by destruct s.
Qed.

Lemma placed_Remove b s f :
  placed b s ->
  exists s', (Remove f s = Ret tt s' \/ exists e, Remove f s = Throw e s') /\ placed b s'.
Proof.
  intros Hp. pose proof (placed_nodes b s Hp f) as Hf. unfold Remove.
  destruct (node_store_ s !! f) as [n|] eqn:En; [|exists s; by split; [left|]].
  destruct (is_evictable_ n); simpl; [|exists s; split; [right; by eexists|done]].
  destruct Hf as [Hb Hpos]. unfold erase.
  case_bool_decide as Hlt; destruct Hpos as [-> Hin]; simpl;
    rewrite (bool_decide_eq_true_2 _ Hin); simpl;
    destruct (remove_first_decompose f _ Hin) as (l1 & l2 & El & ->);
    eexists; (split; [left; reflexivity|]); simpl.
  - apply (placed_drop b s f); [done|]. left. by exists l1, l2.
  - apply (placed_drop b s f); [done|]. right. by exists l1, l2.
Qed.

Lemma placed_SetEvictable b s f flag :
  placed b s ->
  exists s', (SetEvictable f flag s = Ret tt s' \/ exists e, SetEvictable f flag s = Throw e s')
             /\ placed b s'.
Proof.
  intros Hp. unfold SetEvictable.
  destruct (invalid_frame s f); [exists s; split; [right; by eexists|done]|].
  destruct (node_store_ s !! f) as [n|] eqn:En; [|exists s; by split; [left|]].
  eexists. split; [left; reflexivity|].
  destruct Hp as [Hk Hnd Hn]. split; simpl; [done..|].
  intros g. destruct (decide (g = f)) as [->|Hne].
  - rewrite lookup_insert_eq. simpl. specialize (Hn f). by rewrite En in Hn.
  - rewrite lookup_insert_ne by done. apply Hn.
Qed.

Lemma placed_RecordAccess b s f :
  placed b s -> 0 <= b -> b + 1 < 2 ^ 64 ->
  exists s', (RecordAccess f s = Ret tt s' \/ exists e, RecordAccess f s = Throw e s')
             /\ placed (b + 1) s'.
Proof.
  intros Hp Hb0 Hb. unfold RecordAccess.
  destruct (invalid_frame s f).
  { exists s. split; [right; by eexists|]. apply (placed_mono b); [lia|done]. }
  pose proof Hp as [Hk Hnd Hn].
  pose proof (Hn f) as Hf. unfold subscript.
  destruct (node_store_ s !! f) as [n|] eqn:En.
  - (* a tracked frame *)
    destruct Hf as [Hc Hpos].
    rewrite (wrap64_small (LRUKNode.k_ n + 1)) by lia.
    rewrite (bool_decide_eq_false_2 (LRUKNode.k_ n + 1 = 1)) by lia.
    cbn [k_ hist_list_ cache_list_ node_store_ set_node_store].
    assert (Hothers : forall (hist cache : list Z) n',
      1 <= LRUKNode.k_ n' <= b + 1 ->
      (if bool_decide (LRUKNode.k_ n' < k_ s)
       then pos_ n' = Some Hist /\ f ∈ hist
       else pos_ n' = Some Cache /\ f ∈ cache) ->
      NoDup (hist ++ cache) ->
      (forall g, g <> f -> (g ∈ hist_list_ s -> g ∈ hist) /\
                           (g ∈ cache_list_ s -> g ∈ cache) /\
                           (g ∈ hist ++ cache -> g ∈ hist_list_ s ++ cache_list_ s)) ->
      forall c,
      placed (b + 1)
        {| node_store_ := <[f := n']> (node_store_ s); hist_list_ := hist;
           cache_list_ := cache; curr_size_ := c;
           replacer_size_ := replacer_size_ s; k_ := k_ s |}).
    { intros hist cache n' Hc' Hpos' Hnd' Hg c. split; simpl; [done..|].
      intros g. destruct (decide (g = f)) as [->|Hne].
      - rewrite lookup_insert_eq. by split.
      - rewrite lookup_insert_ne by done. specialize (Hn g).
        destruct (Hg g Hne) as (Hh & Hca & Hback).
        destruct (node_store_ s !! g) as [m|]; [|by intros ?%Hback].
        destruct Hn as [Hbm Hpm]. split; [lia|].
        destruct (bool_decide (LRUKNode.k_ m < k_ s)); destruct Hpm; auto. }
    case_bool_decide as Hlt.
    + destruct Hpos as [Epos Hin].
      case_bool_decide as Hk1.
      * (* the k-th access: history list to cache list *)
        unfold erase. rewrite Epos. simpl.
        rewrite (bool_decide_eq_true_2 _ Hin). simpl.
        destruct (remove_first_decompose f _ Hin) as (l1 & l2 & El & ->).
        eexists. split; [left; reflexivity|]. unfold set_node. simpl.
        rewrite El, <- app_assoc in Hnd. simpl in Hnd.
        apply NoDup_middle in Hnd as [Hfn Hnd].
        apply Hothers; simpl.
        -- lia.
        -- rewrite bool_decide_eq_false_2 by lia. split; [done|set_solver].
        -- apply NoDup_middle. rewrite <- !app_assoc. by split.
        -- intros g Hg. rewrite El. set_solver.
      * rewrite bool_decide_eq_false_2 by lia.
        (* fewer than k accesses so far: stays where it is *)
        eexists. split; [left; reflexivity|]. unfold set_node. simpl.
        apply Hothers; simpl; [lia| |done|set_solver].
        rewrite bool_decide_eq_true_2 by lia. by split.
    + destruct Hpos as [Epos Hin].
      rewrite bool_decide_eq_false_2 by lia.
      rewrite bool_decide_eq_true_2 by lia.
      (* beyond k accesses: to the front of the cache list *)
      unfold erase. rewrite Epos. simpl.
      rewrite (bool_decide_eq_true_2 _ Hin). simpl.
      destruct (remove_first_decompose f _ Hin) as (l1 & l2 & El & ->).
      eexists. split; [left; reflexivity|]. unfold set_node. simpl.
      rewrite El, app_assoc in Hnd.
      apply NoDup_middle in Hnd as [Hfn Hnd].
      apply Hothers; simpl.
      * lia.
      * rewrite bool_decide_eq_false_2 by lia. split; [done|set_solver].
      * apply NoDup_middle. rewrite <- !app_assoc in Hfn, Hnd. by split.
      * intros g Hg. rewrite El. set_solver.
  - (* first access *)
    simpl. change (wrap64 (0 + 1)) with 1.
    eexists. split; [left; reflexivity|]. unfold set_node. simpl.
    split; simpl; [done| |].
    + constructor; [done|done].
    + intros g. rewrite insert_insert_eq.
      destruct (decide (g = f)) as [->|Hne].
      * rewrite lookup_insert_eq. simpl. split; [lia|].
        rewrite bool_decide_eq_true_2 by lia. split; [done|set_solver].
      * rewrite lookup_insert_ne by done. specialize (Hn g).
        destruct (node_store_ s !! g) as [m|]; [|set_solver].
        destruct Hn as [Hbm Hpm]. split; [lia|].
        destruct (bool_decide (LRUKNode.k_ m < k_ s)); destruct Hpm; split; auto; set_solver.
Qed.

Lemma placed_exec c b s :
  placed b s -> 0 <= b -> b + 1 < 2 ^ 64 ->
  exists s', (exec c s = Ret tt s' \/ exists e, exec c s = Throw e s') /\ placed (b + 1) s'.
Proof.
  intros Hp Hb0 Hb. destruct c as [f|f flag| |f]; simpl.
  - by apply placed_RecordAccess.
  - destruct (placed_SetEvictable b s f flag Hp) as (s' & Hr & Hp').
    exists s'. split; [done|]. apply (placed_mono b); [lia|done].
  - eexists. split; [left; reflexivity|].
    apply (placed_mono b); [lia|]. by apply placed_Evict.
  - destruct (placed_Remove b s f Hp) as (s' & Hr & Hp').
    exists s'. split; [done|]. apply (placed_mono b); [lia|done].
Qed.

(** With [k >= 2] no call of a sequence reaches undefined behaviour, as long
    as the access counters cannot wrap around: the sequence runs to its end,
    or stops at a call made while the latch is locked. *)
Lemma placed_play cs : forall locked b s,
  placed b s -> 0 <= b -> b + Z.of_nat (length cs) < 2 ^ 64 ->
  (exists s', play locked cs s = Ret tt s' /\ placed (b + Z.of_nat (length cs)) s')
  \/ play locked cs s = Fail Blocked.
Proof.
  induction cs as [|c cs IH]; intros locked b s Hp Hb0 Hb; simpl play.
  { left. exists s. split; [done|]. simpl. by rewrite Z.add_0_r. }
  simpl length in Hb |- *.
  destruct locked; [by right|].
  destruct (placed_exec c b s Hp) as (s1 & Hr & Hp1); [lia..|].
  replace (b + Z.of_nat (S (length cs))) with (b + 1 + Z.of_nat (length cs)) by lia.
  destruct Hr as [->|[e ->]]; apply (IH _ (b + 1)); (done || lia).
Qed.


End LRUKReplacerFacts.

Module BufferPoolManagerFacts.
Import BufferPoolManager.

Section Facts.
Context {Data : Type} (zeroed : Data).

(** C9.  On [INVALID_PAGE_ID], [FetchPage] returns [nullptr], [UnpinPage]
    returns false, [FlushPage] returns false and [DeletePage] returns true,
    and the pool (page table, free list, frames, replacer, disk) is left as
    it was. *)
Theorem invalid_page_id_is_guarded (b : BufferPoolManager.t Data) (is_dirty : bool) :
  FetchPage zeroed INVALID_PAGE_ID b = Ret None b /\
  UnpinPage INVALID_PAGE_ID is_dirty b = Ret false b /\
  FlushPage INVALID_PAGE_ID b = Ret false b /\
  DeletePage zeroed INVALID_PAGE_ID b = Ret true b.
Proof. repeat split. Qed.

Lemma set_pages_id (b : BufferPoolManager.t Data) : set_pages (pages_ b) b = b.
Proof. by destruct b. Qed.

Lemma page_at_Some (b : BufferPoolManager.t Data) frame_id page :
  0 <= frame_id -> pages_ b !! Z.to_nat frame_id = Some page ->
  page_at frame_id b = Ret page b.
Proof.
  intros H0 Hp. unfold page_at. rewrite bool_decide_eq_true_2 by done. by rewrite Hp.
Qed.

Lemma update_page_Some (b : BufferPoolManager.t Data) frame_id page f :
  0 <= frame_id -> pages_ b !! Z.to_nat frame_id = Some page ->
  update_page frame_id f b
  = Ret tt (set_pages (<[Z.to_nat frame_id := f page]> (pages_ b)) b).
Proof.
  intros H0 Hp. unfold update_page, bind. by rewrite (page_at_Some _ _ page).
Qed.


Lemma dirtied_spec (b : BufferPoolManager.t Data) frame_id page (is_dirty : bool) :
  0 <= frame_id -> pages_ b !! Z.to_nat frame_id = Some page ->
  (if is_dirty then update_page frame_id (Page.set_is_dirty is_dirty) else ret tt) b
  = Ret tt (dirtied frame_id page is_dirty b).
Proof.
  intros H0 Hp. unfold dirtied. destruct is_dirty.
  - rewrite (update_page_Some _ _ page) by done. by rewrite orb_true_r.
  - rewrite orb_false_r. unfold ret. f_equal.
    assert (Page.set_is_dirty (Page.is_dirty_ page) page = page) as -> by by destruct page.
    by rewrite list_insert_id, set_pages_id.
Qed.



(** C5, as amended.  [UnpinPage] returns false and changes nothing when
    the page is not resident.  When the page is resident with pin count
    zero it returns false and changes nothing but the frame's dirty flag,
    which becomes the old flag OR [is_dirty].  When the page is resident
    with a positive pin count it ORs [is_dirty] into the dirty flag,
    decrements the pin count, calls [SetEvictable(frame, true)] on the
    replacer when the count reaches zero, and returns true. *)
Theorem UnpinPage_spec (b : BufferPoolManager.t Data) (page_id : Z) (is_dirty : bool) :
  ((page_id = INVALID_PAGE_ID \/ page_table_ b !! page_id = None) ->
   UnpinPage page_id is_dirty b = Ret false b) /\
  (forall frame_id page,
     page_id <> INVALID_PAGE_ID ->
     page_table_ b !! page_id = Some frame_id ->
     0 <= frame_id -> pages_ b !! Z.to_nat frame_id = Some page ->
     (Page.pin_count_ page = 0 ->
      UnpinPage page_id is_dirty b = Ret false (dirtied frame_id page is_dirty b)) /\
     (0 < Page.pin_count_ page < 2 ^ 31 ->
      let unpinned :=
        set_pages (<[Z.to_nat frame_id :=
                       Page.set_pin_count (Page.pin_count_ page - 1)
                         (Page.set_is_dirty (Page.is_dirty_ page || is_dirty) page)]>
                     (pages_ b)) b in
      UnpinPage page_id is_dirty b =
        if bool_decide (Page.pin_count_ page = 1) then
          match LRUKReplacer.SetEvictable frame_id true (replacer_ b) with
          | Ret _ r => Ret true (set_replacer r unpinned)
          | Throw e r => Throw e (set_replacer r unpinned)
          | Fail x => Fail x
          end
        else Ret true unpinned)).
Proof.
  split.
  - intros [->|Hnone]; [done|]. unfold UnpinPage.
    case_bool_decide; [done|]. unfold bind, get. by rewrite Hnone.
  - intros frame_id page Hvalid Hres H0 Hp.
    assert (Hstart : UnpinPage page_id is_dirty b =
      (let* _ := (fun _ => Ret tt (dirtied frame_id page is_dirty b)) in
       if bool_decide (Page.pin_count_ page = 0) then ret false
       else
         let* n := int_arith (Page.pin_count_ page - 1) in
         update_page frame_id (Page.set_pin_count n);;
         (if bool_decide (n = 0)
          then with_replacer (LRUKReplacer.SetEvictable frame_id true)
          else ret tt);;
         ret true)%M b).
    { unfold UnpinPage. rewrite bool_decide_eq_false_2 by done.
      unfold bind at 1. unfold get. rewrite Hres.
      unfold bind at 1. rewrite (page_at_Some _ _ page) by done.
      unfold bind at 1. rewrite (dirtied_spec _ _ page) by done. done. }
    rewrite Hstart. clear Hstart. unfold bind at 1.
    assert (Hd : pages_ (dirtied frame_id page is_dirty b) !! Z.to_nat frame_id
                 = Some (Page.set_is_dirty (Page.is_dirty_ page || is_dirty) page)).
    { unfold dirtied. simpl. apply list_lookup_insert_eq.
      by apply lookup_lt_Some in Hp. }
    split.
    + intros Hpin. by rewrite bool_decide_eq_true_2.
    + intros Hpin. rewrite bool_decide_eq_false_2 by lia.
      unfold bind at 1. unfold int_arith.
      rewrite bool_decide_eq_true_2 by lia. unfold ret at 1.
      unfold bind at 1.
      erewrite bind_Ret by (by apply update_page_Some).
      unfold dirtied; simpl. rewrite list_insert_insert_eq.
      case_bool_decide as Hone.
      * rewrite bool_decide_eq_true_2 by lia.
        unfold bind, with_replacer, zoom. simpl.
        destruct (LRUKReplacer.SetEvictable frame_id true (replacer_ b)); done.
      * rewrite bool_decide_eq_false_2 by lia. done.
Qed.

End Facts.

(** C5, counterexample.  Page 0 sits in frame 0, unpinned and clean;
    [UnpinPage(0, true)] returns false and yet sets the frame's dirty flag. *)
Lemma UnpinPage_at_zero_pins_sets_dirty :
  let b : BufferPoolManager.t Z :=
    {| pool_size_ := 1;
       pages_ := [ {| Page.data_ := 0; Page.page_id_ := 0;
                      Page.pin_count_ := 0; Page.is_dirty_ := false |} ];
       page_table_ := {[ 0 := 0 ]};
       free_list_ := [];
       replacer_ :=
         {| LRUKReplacer.node_store_ :=
              {[ 0 := LRUKNode.mk 1 true (Some LRUKNode.Hist) ]};
            LRUKReplacer.hist_list_ := [0]; LRUKReplacer.cache_list_ := [];
            LRUKReplacer.curr_size_ := 1; LRUKReplacer.replacer_size_ := 1;
            LRUKReplacer.k_ := 2 |};
       next_page_id_ := 1;
       disk_ := ∅ |} in
  exists b',
    UnpinPage 0 true b = Ret false b' /\
    Page.is_dirty_ <$> pages_ b = [false] /\
    Page.is_dirty_ <$> pages_ b' = [true] /\
    b' <> b.
Proof.
  intros b. eexists. split; [vm_compute; reflexivity|].
  split; [reflexivity|]. split; [reflexivity|]. discriminate.
Qed.

(** That state is the one a pool of one frame reaches by [NewPage]
    followed by [UnpinPage(0, false)]. *)
Lemma UnpinPage_at_zero_pins_state_reachable :
  exists b,
    (NewPage 0;; UnpinPage 0 false)%M (BufferPoolManager.new 0 1 2 ∅) = Ret true b /\
    pages_ b = [ {| Page.data_ := 0; Page.page_id_ := 0;
                    Page.pin_count_ := 0; Page.is_dirty_ := false |} ] /\
    page_table_ b !! 0 = Some 0 /\ free_list_ b = [] /\
    LRUKReplacer.hist_list_ (replacer_ b) = [0] /\
    LRUKReplacer.curr_size_ (replacer_ b) = 1.
Proof.
  eexists. split; [vm_compute; reflexivity|]. repeat split; vm_compute; reflexivity.
Qed.

(** A pool of one frame holding page 0, pinned once and clean. *)
Lemma UnpinPage_spec_witness :
  let page : Page.t Z :=
    {| Page.data_ := 0; Page.page_id_ := 0;
       Page.pin_count_ := 1; Page.is_dirty_ := false |} in
  let b : BufferPoolManager.t Z :=
    {| pool_size_ := 1;
       pages_ := [ page ];
       page_table_ := {[ 0 := 0 ]};
       free_list_ := [];
       replacer_ :=
         {| LRUKReplacer.node_store_ :=
              {[ 0 := LRUKNode.mk 1 false (Some LRUKNode.Hist) ]};
            LRUKReplacer.hist_list_ := [0]; LRUKReplacer.cache_list_ := [];
            LRUKReplacer.curr_size_ := 0; LRUKReplacer.replacer_size_ := 1;
            LRUKReplacer.k_ := 2 |};
       next_page_id_ := 1;
       disk_ := ∅ |} in
  (* not resident *)
  UnpinPage 5 true b = Ret false b /\
  (* resident, pinned once *)
  exists b',
    UnpinPage 0 true b = Ret true b' /\
    pages_ b' = [ {| Page.data_ := 0; Page.page_id_ := 0;
                     Page.pin_count_ := 0; Page.is_dirty_ := true |} ] /\
    LRUKReplacer.evictable (LRUKReplacer.node_store_ (replacer_ b')) 0 = true.
Proof.
  intros page b.
  destruct (UnpinPage_spec b 5 true) as [Hmiss _].
  destruct (UnpinPage_spec b 0 true) as [_ Hres].
  split.
  - apply Hmiss. right. reflexivity.
  - assert (Hv : 0 <> INVALID_PAGE_ID) by discriminate.
    assert (Ht : page_table_ b !! 0 = Some 0) by reflexivity.
    assert (H0 : 0 <= 0) by lia.
    assert (Hp : pages_ b !! Z.to_nat 0 = Some page) by reflexivity.
    destruct (Hres 0 page Hv Ht H0 Hp) as [_ Hpinned].
    assert (Hpin : 0 < Page.pin_count_ page < 2 ^ 31) by (simpl; lia).
    specialize (Hpinned Hpin).
    eexists. split; [rewrite Hpinned; vm_compute; reflexivity|].
    split; [reflexivity|]. vm_compute. reflexivity.
Defined.
End BufferPoolManagerFacts.

Module BucketPageFacts.
Import ExtendibleHTableBucketPage.

Section Facts.
Context {K V : Type}.
Variable cmp : K -> K -> Z.
Hypothesis cmp_refl : forall a, cmp a a = 0.
Hypothesis cmp_flip : forall a b, cmp a b = -1 -> cmp b a = 1.

Lemma strictly_sorted_lookup l : forall i j a b,
  strictly_sorted cmp l = true -> (i < j)%nat ->
  l !! i = Some a -> l !! j = Some b -> cmp a b = -1.
Proof.
  induction l as [|x l IH]; intros i j a b Hs Hij Hi Hj; [done|].
  simpl in Hs. apply andb_true_iff in Hs as [Hx Hs].
  destruct j as [|j]; [lia|]. simpl in Hj.
  destruct i as [|i]; simpl in Hi.
  - inversion Hi; subst. rewrite forallb_forall in Hx.
    apply list_elem_of_lookup_2, list_elem_of_In, Hx in Hj.
    by apply bool_decide_eq_true in Hj.
  - eapply IH; [done| |done..]. lia.
Qed.

Lemma well_formed_sorted (b : t K V) i j ei ej :
  well_formed cmp b = true -> 0 <= i < j -> j < size_ b ->
  array_ b !! Z.to_nat i = Some ei -> array_ b !! Z.to_nat j = Some ej ->
  cmp ei.1 ej.1 = -1.
Proof.
  unfold well_formed. rewrite !andb_true_iff, !bool_decide_eq_true.
  intros [[Hsz Hlt] Hs] Hij Hj Hi Hej.
  eapply (strictly_sorted_lookup _ (Z.to_nat i) (Z.to_nat j)); [done|lia|..].
  - rewrite list_lookup_fmap, lookup_take_lt by lia. by rewrite Hi.
  - rewrite list_lookup_fmap, lookup_take_lt by lia. by rewrite Hej.
Qed.

Lemma read_Some (b : t K V) i e :
  0 <= i -> array_ b !! Z.to_nat i = Some e -> read i b = Ret e b.
Proof.
  intros H0 He. unfold read, array_get. rewrite bool_decide_eq_true_2 by done.
  by rewrite He.
Qed.

(** Binary search finds a key stored among the live entries. *)
Lemma KeyIndex_loop_finds (b : t K V) key value i :
  well_formed cmp b = true -> 0 <= i < size_ b ->
  array_ b !! Z.to_nat i = Some (key, value) ->
  forall fuel left right,
    0 <= left <= i -> i <= right < size_ b ->
    (Z.to_nat (right - left + 1) <= fuel)%nat ->
    KeyIndex_loop cmp fuel key left right b = Ret i b.
Proof.
  intros Hwf Hi Hkey. induction fuel as [|fuel IH]; intros left right Hl Hr Hfuel.
  { lia. }
  assert (Hbound : 0 <= size_ b <= Z.of_nat (length (array_ b)) /\ size_ b < 2 ^ 31).
  { unfold well_formed in Hwf. rewrite !andb_true_iff, !bool_decide_eq_true in Hwf.
    tauto. }
  simpl. rewrite bool_decide_eq_true_2 by lia.
  set (mid := (left + right) `quot` 2).
  assert (Hmid : left <= mid <= right).
  { unfold mid. rewrite Z.quot_div_nonneg by lia.
    split; [apply Z.div_le_lower_bound | apply Z.div_le_upper_bound]; lia. }
  destruct (lookup_lt_is_Some_2 (array_ b) (Z.to_nat mid)) as [e He]; [lia|].
  erewrite bind_Ret by (apply read_Some; [lia|exact He]).
  destruct (Z.lt_trichotomy mid i) as [Hlt|[Heq|Hgt]].
  - assert (cmp key e.1 = 1) as ->.
    { apply cmp_flip.
      apply (well_formed_sorted b mid i e (key, value)); [done|lia|lia|done..]. }
    rewrite bool_decide_eq_true_2 by done. apply IH; lia.
  - subst i. rewrite He in Hkey. inversion Hkey; subst e. simpl.
    rewrite cmp_refl. rewrite !bool_decide_eq_false_2 by done.
    unfold ret. f_equal. apply wrap32_id. lia.
  - assert (cmp key e.1 = -1) as ->.
    { apply (well_formed_sorted b i mid (key, value) e); [done|lia|lia|done..]. }
    rewrite bool_decide_eq_false_2 by done.
    rewrite bool_decide_eq_true_2 by done. apply IH; lia.
Qed.

Lemma well_formed_bounds (b : t K V) :
  well_formed cmp b = true ->
  0 <= size_ b <= Z.of_nat (length (array_ b)) /\ size_ b < 2 ^ 31.
Proof.
  unfold well_formed. rewrite !andb_true_iff, !bool_decide_eq_true. tauto.
Qed.

Lemma KeyIndex_finds (b : t K V) key value i :
  well_formed cmp b = true -> 0 <= i < size_ b ->
  array_ b !! Z.to_nat i = Some (key, value) ->
  KeyIndex cmp key b = Ret i b.
Proof.
  intros Hwf Hi Hkey. destruct (well_formed_bounds b Hwf) as [Hsz Hlt].
  unfold KeyIndex. erewrite bind_Ret by reflexivity.
  rewrite to_int_id by (unfold is_int; lia).
  eapply KeyIndex_loop_finds; [done..|lia|lia|lia].
Qed.

(** [Lookup] returns the value stored with a key of a well-formed bucket. *)
Lemma Lookup_finds (b : t K V) key value i :
  well_formed cmp b = true -> 0 <= i < size_ b ->
  array_ b !! Z.to_nat i = Some (key, value) ->
  Lookup cmp key b = Ret (Some value) b.
Proof.
  intros Hwf Hi Hkey. destruct (well_formed_bounds b Hwf) as [Hsz Hlt].
  unfold Lookup. erewrite bind_Ret by reflexivity.
  rewrite to_int_id by (unfold is_int; lia).
  rewrite bool_decide_eq_false_2 by lia.
  erewrite bind_Ret by (by eapply KeyIndex_finds).
  erewrite bind_Ret by reflexivity.
  rewrite bool_decide_eq_false_2 by lia.
  unfold KeyAt, ValueAt.
  erewrite bind_Ret by (erewrite bind_Ret by (apply read_Some; [lia|done]); reflexivity).
  simpl. rewrite cmp_refl, bool_decide_eq_true_2 by done.
  erewrite bind_Ret by (erewrite bind_Ret by (apply read_Some; [lia|done]); reflexivity).
  done.
Qed.
End Facts.

(** The bucket page alone, on [int] keys and values with room for eight
    pairs: after [Insert(1, 10)], [Insert(5, 50)] and [Remove(5)] the bucket
    holds one live pair, the removed pair is still in the next slot, and
    [Lookup(5)] returns it. *)
Lemma Lookup_reads_slot_behind_live_entries :
  exists b,
    (Init 3;; Insert IntComparator 1 10;; Insert IntComparator 5 50;;
     Remove IntComparator false 5)%M
      {| size_ := 0; max_size_ := 0; array_ := replicate 8 (0, 0) |}
    = Ret true b /\
    size_ b = 1 /\ take 2 (array_ b) = [(1, 10); (5, 50)] /\
    returned (KeyIndex IntComparator 5 b) = Some 1 /\
    returned (Lookup IntComparator 5 b) = Some (Some 50).
Proof.
  eexists. split; [vm_compute; reflexivity|]. repeat split.
Qed.

(** On the same bucket a second [Remove(5)] reaches [RemoveAt(1)] with
    [size_ = 1]. *)
Lemma Remove_reads_slot_behind_live_entries :
  (Init 3;; Insert IntComparator 1 10;; Insert IntComparator 5 50;;
   Remove IntComparator false 5;; Remove IntComparator false 5)%M
     {| size_ := 0; max_size_ := 0; array_ := replicate 8 (0, 0) |}
  = Fail AssertionFailed /\
  exists b,
    (Init 3;; Insert IntComparator 1 10;; Insert IntComparator 5 50;;
     Remove IntComparator true 5;; Remove IntComparator true 5)%M
      {| size_ := 0; max_size_ := 0; array_ := replicate 8 (0, 0) |}
    = Ret true b /\ size_ b = 0.
Proof.
  split; [vm_compute; reflexivity|].
  eexists. split; [vm_compute; reflexivity|]. reflexivity.
Qed.
End BucketPageFacts.

Module DiskExtendibleHashTableFacts.
Import DiskExtendibleHashTable.

Section Facts.
Context {K V : Type}.
Variable cmp : K -> K -> Z.
Variable hash_fn : K -> Z.
Variable NDEBUG : bool.
Variable HTABLE_DIRECTORY_ARRAY_SIZE : nat.
Variable bucket_array_size : nat.
Variable zero_entry : K * V.

Lemma set_bpm_id (T : DiskExtendibleHashTable.t K V) : set_bpm (bpm_ T) T = T.
Proof. by destruct T. Qed.

(** A read-only method run on a fetched page leaves the table as it was. *)
Lemma on_header_read {A} (T : DiskExtendibleHashTable.t K V)
    page_id h (m : M Header.t A) a :
  bpm_ T !! page_id = Some (HeaderPage h) -> page_id <> INVALID_PAGE_ID ->
  m h = Ret a h -> on_header page_id m T = Ret a T.
Proof.
  intros Hp Hv Hm. unfold on_header, zoom. rewrite Hp.
  rewrite bool_decide_eq_false_2 by done. rewrite Hm.
  by rewrite insert_id, set_bpm_id.
Qed.

Lemma on_directory_read {A} (T : DiskExtendibleHashTable.t K V)
    page_id d (m : M Directory.t A) a :
  bpm_ T !! page_id = Some (DirectoryPage d) -> page_id <> INVALID_PAGE_ID ->
  m d = Ret a d -> on_directory page_id m T = Ret a T.
Proof.
  intros Hp Hv Hm. unfold on_directory, zoom. rewrite Hp.
  rewrite bool_decide_eq_false_2 by done. rewrite Hm.
  by rewrite insert_id, set_bpm_id.
Qed.

Lemma on_bucket_read {A} (T : DiskExtendibleHashTable.t K V)
    page_id b (m : M (Bucket.t K V) A) a :
  bpm_ T !! page_id = Some (BucketPage b) -> page_id <> INVALID_PAGE_ID ->
  m b = Ret a b -> on_bucket page_id m T = Ret a T.
Proof.
  intros Hp Hv Hm. unfold on_bucket, zoom. rewrite Hp.
  rewrite bool_decide_eq_false_2 by done. rewrite Hm.
  by rewrite insert_id, set_bpm_id.
Qed.

(** [GetValue] returns the value stored with a key. *)
Lemma GetValue_stored (T : DiskExtendibleHashTable.t K V) (key : K) (value : V) :
  (forall a, cmp a a = 0) ->
  (forall a b, cmp a b = -1 -> cmp b a = 1) ->
  stored cmp hash_fn NDEBUG T key value ->
  GetValue cmp hash_fn NDEBUG key T = Ret (Some value) T.
Proof.
  intros cmp_refl cmp_flip
    (h & d & b & directory_idx & directory_page_id & bucket_idx & bucket_page_id & i
     & Hhv & Hh & Hdi & Hdp & Hdv & Hd & Hbi & Hbp & Hbv & Hb & Hwf & Hi & Hkv).
  unfold GetValue.
  assert (Hfind : FindBucketPageID hash_fn NDEBUG key T = Ret (Some bucket_page_id) T).
  { unfold FindBucketPageID.
    erewrite bind_Ret by reflexivity.
    rewrite bool_decide_eq_false_2 by done.
    erewrite bind_Ret by (by eapply on_header_read).
    erewrite bind_Ret by (by eapply on_header_read).
    rewrite bool_decide_eq_false_2 by done.
    erewrite bind_Ret by (by eapply on_directory_read).
    erewrite bind_Ret by (by eapply on_directory_read).
    by rewrite bool_decide_eq_false_2 by done. }
  erewrite bind_Ret by exact Hfind.
  eapply on_bucket_read; [done..|].
  by eapply (BucketPageFacts.Lookup_finds cmp cmp_refl cmp_flip).
Qed.

(** C7.  For every key stored in the table, with whatever value, [Insert]
    of that key with any value returns false and leaves the table, that is
    the contents of every page, exactly as it was; [GetValue] still returns
    the value stored before. *)
Theorem Insert_existing_key_rejected
    (T : DiskExtendibleHashTable.t K V) (key : K) (value value' : V) :
  (forall a, cmp a a = 0) ->
  (forall a b, cmp a b = -1 -> cmp b a = 1) ->
  stored cmp hash_fn NDEBUG T key value ->
  Insert cmp hash_fn NDEBUG HTABLE_DIRECTORY_ARRAY_SIZE bucket_array_size zero_entry
    key value' T = Ret false T /\
  GetValue cmp hash_fn NDEBUG key T = Ret (Some value) T.
Proof.
  intros cmp_refl cmp_flip Hstored.
  split; [|by apply GetValue_stored].
  destruct Hstored as
    (h & d & b & directory_idx & directory_page_id & bucket_idx & bucket_page_id & i
     & Hhv & Hh & Hdi & Hdp & Hdv & Hd & Hbi & Hbp & Hbv & Hb & Hwf & Hi & Hkv).
  unfold Insert. simpl.
  erewrite bind_Ret by reflexivity.
  rewrite bool_decide_eq_false_2 by done.
  erewrite bind_Ret by (by eapply on_header_read).
  erewrite bind_Ret by (by eapply on_header_read).
  rewrite bool_decide_eq_false_2 by done.
  erewrite bind_Ret by reflexivity.
  erewrite bind_Ret by (by eapply on_directory_read).
  erewrite bind_Ret by (by eapply on_directory_read).
  rewrite bool_decide_eq_false_2 by done.
  erewrite bind_Ret by reflexivity.
  erewrite bind_Ret
    by (eapply on_bucket_read; [done..|];
        by eapply (BucketPageFacts.Lookup_finds cmp cmp_refl cmp_flip)).
  reflexivity.
Qed.
End Facts.

(** Four inserts into buckets of three entries (the last one splits the
    bucket), then a second insert of key 9. *)
Lemma Insert_existing_key_rejected_witness :
  exists T : DiskExtendibleHashTable.t Z Z,
    returned
      (run IntComparator (fun key => key) false 512 511 (0, 0)
         [CInsert 5 50; CInsert 1 10; CInsert 9 90; CInsert 4 40] (new 1 2 3))
    = Some [ABool true; ABool true; ABool true; ABool true] /\
    stored IntComparator (fun key => key) false T 9 90 /\
    Insert IntComparator (fun key => key) false 512 511 (0, 0) 9 77 T = Ret false T /\
    GetValue IntComparator (fun key => key) false 9 T = Ret (Some 90) T.
Proof.
  assert (cmp_refl : forall a, IntComparator a a = 0).
  { intros a. unfold IntComparator. rewrite !bool_decide_eq_false_2 by lia. done. }
  assert (cmp_flip : forall a b, IntComparator a b = -1 -> IntComparator b a = 1).
  { intros a b. unfold IntComparator. repeat case_bool_decide; (done || lia). }
  pose (T := match run IntComparator (fun key => key) false 512 511 (0, 0)
                     [CInsert 5 50; CInsert 1 10; CInsert 9 90; CInsert 4 40]
                     (new 1 2 3) with
             | Ret _ T => T
             | _ => new 1 2 3
             end).
  exists T. split; [vm_compute; reflexivity|].
  assert (Hs : stored IntComparator (fun key => key) false T 9 90).
  { do 8 eexists.
    split; [vm_compute; discriminate|].
    split; [vm_compute; reflexivity|].
    split; [vm_compute; reflexivity|].
    split; [vm_compute; reflexivity|].
    split; [vm_compute; discriminate|].
    split; [vm_compute; reflexivity|].
    split; [vm_compute; reflexivity|].
    split; [vm_compute; reflexivity|].
    split; [vm_compute; discriminate|].
    split; [vm_compute; reflexivity|].
    split; [vm_compute; reflexivity|].
    instantiate (1 := 2). split; [vm_compute; split; [discriminate|reflexivity]|].
    vm_compute. reflexivity. }
  split; [exact Hs|].
  exact (Insert_existing_key_rejected IntComparator (fun key => key) false 512 511 (0, 0)
           T 9 90 77 cmp_refl cmp_flip Hs).
Defined.

(** C1, evaluated at its failing input.  [Insert(1, 10)], [Insert(5, 50)],
    [Remove(5)] all return true, and [GetValue(5)] then still returns true
    with the value 50: [RemoveAt] leaves the removed pair in the slot at
    index [size_], and [Lookup] reads that slot. *)
Theorem GetValue_after_Remove_returns_stale_value :
  returned
    (run IntComparator (fun key => key) false 512 511 (0, 0)
       [CInsert 1 10; CInsert 5 50; CRemove 5; CGetValue 5]
       (new 1 2 3))
  = Some [ABool true; ABool true; ABool true; AValue (Some 50)].
Proof. vm_compute. reflexivity. Qed.

(** C2, evaluated at its failing input.  After [Insert(1, 10)] returned true
    and key 5 was inserted and removed, a second [Remove(5)] finds the pair
    left behind at index [size_] and calls [RemoveAt] there: the assertion
    [bucket_idx < Size()] fails; with assertions compiled out the call
    returns true, the bucket's size drops to zero and [GetValue(1)] misses. *)
Theorem Remove_of_removed_key_hits_live_entry :
  run IntComparator (fun key => key) false 512 511 (0, 0)
    [CInsert 1 10; CInsert 5 50; CRemove 5; CRemove 5; CGetValue 1]
    (new 1 2 3)
  = Fail AssertionFailed /\
  returned
    (run IntComparator (fun key => key) true 512 511 (0, 0)
       [CInsert 1 10; CInsert 5 50; CRemove 5; CRemove 5; CGetValue 1]
       (new 1 2 3))
  = Some [ABool true; ABool true; ABool true; ABool true; AValue None].
Proof. split; vm_compute; reflexivity. Qed.
End DiskExtendibleHashTableFacts.

Module DirectoryPageFacts.
Import ExtendibleHTableDirectoryPage.

Lemma read_page_id_Some d i x :
  0 <= i -> bucket_page_ids_ d !! Z.to_nat i = Some x -> read_page_id i d = Ret x d.
Proof.
  intros H0 H. unfold read_page_id, array_get.
  rewrite bool_decide_eq_true_2 by done. by rewrite H.
Qed.

Lemma read_local_depth_Some d i x :
  0 <= i -> local_depths_ d !! Z.to_nat i = Some x -> read_local_depth i d = Ret x d.
Proof.
  intros H0 H. unfold read_local_depth, array_get.
  rewrite bool_decide_eq_true_2 by done. by rewrite H.
Qed.

(** The copy loop of [IncrGlobalDepth] runs through as long as it stays
    inside the two arrays, and touches neither depth field. *)
Lemma IncrGlobalDepth_loop_returns half n : forall i d,
  0 <= i -> 0 <= half ->
  half + i + Z.of_nat n <= Z.of_nat (length (bucket_page_ids_ d)) ->
  half + i + Z.of_nat n <= Z.of_nat (length (local_depths_ d)) ->
  exists d',
    IncrGlobalDepth_loop n half i d = Ret tt d' /\
    global_depth_ d' = global_depth_ d /\ max_depth_ d' = max_depth_ d.
Proof.
  induction n as [|n IH]; intros i d Hi Hhalf Hp Hl; simpl.
  { by exists d. }
  destruct (lookup_lt_is_Some_2 (bucket_page_ids_ d) (Z.to_nat i)) as [pid Hpid]; [lia|].
  erewrite bind_Ret by (by apply read_page_id_Some).
  unfold write_page_id at 1, array_set.
  unfold bind at 1. rewrite bool_decide_eq_true_2 by lia.
  set (d1 := set_bucket_page_ids _ d).
  destruct (lookup_lt_is_Some_2 (local_depths_ d1) (Z.to_nat i)) as [ld Hld];
    [simpl; lia|].
  erewrite bind_Ret by (by apply read_local_depth_Some).
  unfold write_local_depth at 1, array_set.
  unfold bind at 1. rewrite bool_decide_eq_true_2 by (simpl; lia).
  set (d2 := set_local_depths _ d1).
  destruct (IH (i + 1) d2) as (d' & Hrun & Hg & Hm);
    [lia|lia|simpl; rewrite length_insert; lia|simpl; rewrite length_insert; lia|].
  exists d'. by repeat split.
Qed.

(** Whenever the global depth equals the maximal depth (and the arrays have
    room for the copy), [IncrGlobalDepth] returns with the global depth one
    above the maximal depth. *)
Lemma IncrGlobalDepth_at_max_depth d :
  global_depth_ d = max_depth_ d -> 0 <= global_depth_ d < 31 ->
  2 ^ (global_depth_ d + 1) <= Z.of_nat (length (bucket_page_ids_ d)) ->
  2 ^ (global_depth_ d + 1) <= Z.of_nat (length (local_depths_ d)) ->
  exists d',
    IncrGlobalDepth d = Ret tt d' /\
    global_depth_ d' = max_depth_ d' + 1.
Proof.
  intros Heq Hg Hp Hl. unfold IncrGlobalDepth.
  erewrite bind_Ret by reflexivity.
  rewrite bool_decide_eq_false_2 by lia.
  unfold shl1. rewrite bool_decide_eq_true_2 by lia.
  erewrite bind_Ret by reflexivity.
  rewrite Z.shiftl_1_l.
  assert (Hpow : 2 ^ (global_depth_ d + 1) = 2 * 2 ^ global_depth_ d)
    by (rewrite Z.pow_add_r by lia; lia).
  assert (0 < 2 ^ global_depth_ d) by (apply Z.pow_pos_nonneg; lia).
  destruct (IncrGlobalDepth_loop_returns (2 ^ global_depth_ d)
              (Z.to_nat (2 ^ global_depth_ d)) 0 d) as (d' & Hrun & Hgd & Hmd);
    [lia..|].
  erewrite bind_Ret by exact Hrun.
  eexists. split; [reflexivity|]. simpl. rewrite Hgd, Hmd, Heq.
  apply wrap32_id. lia.
Qed.
(** C3, evaluated at its failing input.  On a directory whose global depth
    already equals its maximal depth 1, [IncrGlobalDepth] passes the guard
    [global_depth_ > max_depth_], copies the two live slots upwards and
    raises the global depth to 2. *)
Theorem IncrGlobalDepth_passes_max_depth :
  exists d',
    IncrGlobalDepth
      {| max_depth_ := 1; global_depth_ := 1;
         local_depths_ := [1; 1] ++ replicate 510 0;
         bucket_page_ids_ := [2; 3] ++ replicate 510 INVALID_PAGE_ID |}
    = Ret tt d' /\
    global_depth_ d' = 2 /\ max_depth_ d' = 1 /\
    take 4 (bucket_page_ids_ d') = [2; 3; 2; 3].
Proof. eexists. split; [vm_compute; reflexivity|]. repeat split. Qed.
End DirectoryPageFacts.

(** ** Bucket page: binary search, lookup, insert and remove on sorted buckets *)

Module BucketPageProperties.
Import ExtendibleHTableBucketPage.
Import BucketPageFacts.

Section Props.
Context {K V : Type}.
Variable cmp : K -> K -> Z.
Hypothesis Hcmp : three_way cmp.

Lemma three_way_refl a : cmp a a = 0.
Proof. by apply (three_way_eq cmp Hcmp). Qed.

Lemma three_way_gt a b : cmp a b = -1 -> cmp b a = 1.
Proof. apply (three_way_flip cmp Hcmp). Qed.

Lemma three_way_lt a b : cmp a b = 1 -> cmp b a = -1.
Proof. apply (three_way_flip cmp Hcmp). Qed.

Lemma three_way_irrefl a : cmp a a <> -1.
Proof. rewrite three_way_refl. lia. Qed.

Lemma live_lookup (b : t K V) i e :
  live b !! i = Some e <-> (Z.of_nat i < size_ b /\ array_ b !! i = Some e).
Proof.
  unfold live. rewrite lookup_take_Some. split; intros [? ?]; split; try done; lia.
Qed.

Lemma live_elem_of (b : t K V) e :
  e ∈ live b <-> exists i, 0 <= i < size_ b /\ array_ b !! Z.to_nat i = Some e.
Proof.
  rewrite list_elem_of_lookup. split.
  - intros [i Hi]. apply live_lookup in Hi as [? ?]. exists (Z.of_nat i).
    rewrite Nat2Z.id. split; [lia|done].
  - intros (i & Hi & He). exists (Z.to_nat i). apply live_lookup. split; [lia|done].
Qed.

(** Two live slots with the same key are the same slot. *)
Lemma well_formed_key_inj (b : t K V) i j ei ej :
  well_formed cmp b = true -> 0 <= i < size_ b -> 0 <= j < size_ b ->
  array_ b !! Z.to_nat i = Some ei -> array_ b !! Z.to_nat j = Some ej ->
  ei.1 = ej.1 -> i = j.
Proof.
  intros Hwf Hi Hj Hei Hej Heq.
  destruct (Z.lt_trichotomy i j) as [Hlt|[?|Hgt]]; [|done|].
  - pose proof (well_formed_sorted cmp b i j ei ej Hwf ltac:(lia) ltac:(lia) Hei Hej) as H.
    rewrite Heq in H. by apply three_way_irrefl in H.
  - pose proof (well_formed_sorted cmp b j i ej ei Hwf ltac:(lia) ltac:(lia) Hej Hei) as H.
    rewrite Heq in H. by apply three_way_irrefl in H.
Qed.

Lemma KeyIndex_loop_lower_bound (b : t K V) key :
  well_formed cmp b = true ->
  forall fuel left right,
    0 <= left -> right < size_ b -> left <= right + 1 ->
    (Z.to_nat (right - left + 1) <= fuel)%nat ->
    (forall i e, 0 <= i < left -> array_ b !! Z.to_nat i = Some e ->
                 cmp e.1 key = -1) ->
    (forall i e, right < i < size_ b -> array_ b !! Z.to_nat i = Some e ->
                 cmp key e.1 = -1) ->
    exists p, KeyIndex_loop cmp fuel key left right b = Ret p b /\
              lower_bound cmp b key p.
Proof.
  intros Hwf. destruct (well_formed_bounds cmp b Hwf) as [Hsz Hlt].
  induction fuel as [|fuel IH]; intros left right Hl Hr Hlr Hfuel Hbelow Habove.
  - assert (right < left) by lia. exists left. simpl.
    rewrite bool_decide_eq_false_2 by lia. split.
    + unfold ret. f_equal. apply wrap32_id. lia.
    + split; [lia|]. split; [done|]. intros i e Hi He.
      rewrite (Habove i e) by (done || lia). lia.
  - simpl. case_bool_decide as Hle; cycle 1.
    { exists left. split.
      + unfold ret. f_equal. apply wrap32_id. lia.
      + split; [lia|]. split; [done|]. intros i e Hi He.
        rewrite (Habove i e) by (done || lia). lia. }
    set (mid := (left + right) `quot` 2).
    assert (Hmid : left <= mid <= right).
    { unfold mid. rewrite Z.quot_div_nonneg by lia.
      split; [apply Z.div_le_lower_bound | apply Z.div_le_upper_bound]; lia. }
    destruct (lookup_lt_is_Some_2 (array_ b) (Z.to_nat mid)) as [e He]; [lia|].
    erewrite bind_Ret by (apply read_Some; [lia|exact He]).
    destruct (three_way_range cmp Hcmp key e.1) as [Hr1|[Hr0|Hr1]].
    + rewrite Hr1. rewrite bool_decide_eq_false_2 by done.
      rewrite bool_decide_eq_true_2 by done.
      apply IH; [lia..| |]; [done|].
      intros i e' Hi He'. destruct (decide (i = mid)) as [->|Hne].
      * rewrite He in He'. by inversion He'; subst.
      * eapply (three_way_trans cmp Hcmp); [exact Hr1|].
        apply (well_formed_sorted cmp b mid i e e'); [done|lia|lia|done..].
    + rewrite Hr0. rewrite !bool_decide_eq_false_2 by done.
      exists mid. split.
      { unfold ret. f_equal. apply wrap32_id. lia. }
      apply (three_way_eq cmp Hcmp) in Hr0.
      split; [lia|]. split.
      * intros i e' Hi He'. rewrite Hr0.
        apply (well_formed_sorted cmp b i mid e' e); [done|lia|lia|done..].
      * intros i e' Hi He'. destruct (decide (i = mid)) as [->|Hne].
        -- rewrite He in He'. inversion He'; subst. rewrite three_way_refl. lia.
        -- rewrite Hr0.
           rewrite (well_formed_sorted cmp b mid i e e'); [lia|done|lia|lia|done..].
    + rewrite Hr1. rewrite bool_decide_eq_true_2 by done.
      apply IH; [lia..| |]; [|done].
      intros i e' Hi He'. destruct (decide (i = mid)) as [->|Hne].
      * rewrite He in He'. inversion He'; subst. by apply three_way_lt.
      * eapply (three_way_trans cmp Hcmp); [|apply three_way_lt; exact Hr1].
        apply (well_formed_sorted cmp b i mid e' e); [done|lia|lia|done..].
Qed.

Lemma KeyIndex_lower_bound_aux (b : t K V) key :
  well_formed cmp b = true ->
  exists p, KeyIndex cmp key b = Ret p b /\ lower_bound cmp b key p.
Proof.
  intros Hwf. destruct (well_formed_bounds cmp b Hwf) as [Hsz Hlt].
  unfold KeyIndex. erewrite bind_Ret by reflexivity.
  rewrite to_int_id by (unfold is_int; lia).
  apply KeyIndex_loop_lower_bound; [done|lia..| |]; intros; lia.
Qed.

(** The lower bound of a key that is stored live is its slot. *)
Lemma lower_bound_stored (b : t K V) key p i e :
  well_formed cmp b = true -> lower_bound cmp b key p ->
  0 <= i < size_ b -> array_ b !! Z.to_nat i = Some e -> e.1 = key -> i = p.
Proof.
  intros Hwf (Hp & Hbelow & Habove) Hi He Hk.
  destruct (well_formed_bounds cmp b Hwf) as [Hsz Hlt].
  destruct (Z.lt_trichotomy i p) as [Hlt'|[?|Hgt]]; [|done|].
  - pose proof (Hbelow i e ltac:(lia) He) as H. rewrite Hk in H.
    by apply three_way_irrefl in H.
  - destruct (lookup_lt_is_Some_2 (array_ b) (Z.to_nat p)) as [e' He']; [lia|].
    pose proof (Habove p e' ltac:(lia) He') as H.
    pose proof (well_formed_sorted cmp b p i e' e Hwf ltac:(lia) ltac:(lia) He' He) as H'.
    rewrite Hk in H'. by apply three_way_gt in H'.
Qed.

Lemma KeyAt_Some (b : t K V) i e :
  0 <= i -> array_ b !! Z.to_nat i = Some e -> KeyAt i b = Ret e.1 b.
Proof.
  intros H0 He. unfold KeyAt. by erewrite bind_Ret by (by apply read_Some).
Qed.

Lemma ValueAt_Some (b : t K V) i e :
  0 <= i -> array_ b !! Z.to_nat i = Some e -> ValueAt i b = Ret e.2 b.
Proof.
  intros H0 He. unfold ValueAt. by erewrite bind_Ret by (by apply read_Some).
Qed.

Lemma write_Some (b : t K V) i e :
  0 <= i < Z.of_nat (length (array_ b)) ->
  write i e b = Ret tt (set_array (<[Z.to_nat i := e]> (array_ b)) b).
Proof.
  intros Hi. unfold write, array_set. by rewrite bool_decide_eq_true_2 by done.
Qed.

(** [Lookup] of a key that is in no live slot, when the slot behind the
    live entries does not hold the key either. *)
Lemma Lookup_absent (b : t K V) key :
  well_formed cmp b = true ->
  (forall v, (key, v) ∉ live b) ->
  behind_free b key ->
  Lookup cmp key b = Ret None b.
Proof.
  intros Hwf Hout Hclean. destruct (well_formed_bounds cmp b Hwf) as [Hsz Hlt].
  unfold Lookup. erewrite bind_Ret by reflexivity.
  rewrite to_int_id by (unfold is_int; lia).
  case_bool_decide as H0; [done|].
  destruct Hclean as [?|(eb & Heb & Hkb)]; [done|].
  destruct (KeyIndex_lower_bound_aux b key Hwf) as (p & Hp & Hlb).
  erewrite bind_Ret by exact Hp. erewrite bind_Ret by reflexivity.
  pose proof Hlb as (Hpr & _ & _).
  rewrite bool_decide_eq_false_2 by lia.
  assert (exists e, array_ b !! Z.to_nat p = Some e /\ e.1 <> key) as (e & He & Hk).
  { destruct (decide (p = size_ b)) as [->|Hne]; [by exists eb|].
    destruct (lookup_lt_is_Some_2 (array_ b) (Z.to_nat p)) as [e He]; [lia|].
    exists e. split; [done|]. intros Hk. apply (Hout e.2).
    apply live_elem_of. exists p. split; [lia|]. rewrite He. f_equal.
    destruct e; simpl in *; by subst. }
  erewrite bind_Ret by (apply KeyAt_Some; [lia|exact He]).
  rewrite bool_decide_eq_false_2; [done|].
  intros Hc. apply (three_way_eq cmp Hcmp) in Hc. by apply Hk.
Qed.

Lemma set_array_id (b : t K V) : set_array (array_ b) b = b.
Proof. by destruct b. Qed.

(** The shifting loop of [InsertAt] moves the [n] slots that end at [i] one
    slot up. *)
Lemma InsertAt_loop_spec n : forall i (b : t K V),
  (n = 0)%nat \/ (Z.of_nat n <= i + 1 /\ i + 1 < Z.of_nat (length (array_ b))) ->
  exists a, InsertAt_loop n i b = Ret tt (set_array a b) /\
    length a = length (array_ b) /\
    forall j : nat, a !! j =
      if bool_decide (i + 1 - Z.of_nat n < Z.of_nat j <= i + 1)
      then array_ b !! (j - 1)%nat else array_ b !! j.
Proof.
  induction n as [|n IH]; intros i b Hn.
  - exists (array_ b). simpl. rewrite set_array_id. split; [done|]. split; [done|].
    intros j. by rewrite bool_decide_eq_false_2 by lia.
  - destruct Hn as [?|[Hn Hi]]; [lia|]. simpl.
    destruct (lookup_lt_is_Some_2 (array_ b) (Z.to_nat i)) as [e He]; [lia|].
    erewrite bind_Ret by (apply read_Some; [lia|exact He]).
    erewrite bind_Ret by (apply write_Some; lia).
    set (a1 := <[Z.to_nat (i + 1) := e]> (array_ b)).
    destruct (IH (i - 1) (set_array a1 b)) as (a & Ha & Hlen & Hpt).
    { right. simpl. unfold a1. rewrite length_insert. lia. }
    exists a. split; [exact Ha|]. simpl in Hlen, Hpt.
    split; [by rewrite Hlen; unfold a1; rewrite length_insert|].
    intros j. rewrite Hpt. unfold a1.
    destruct (decide (Z.of_nat j = i + 1)) as [Hj|Hj].
    + rewrite bool_decide_eq_false_2 by lia. rewrite bool_decide_eq_true_2 by lia.
      replace j with (Z.to_nat (i + 1)) by lia.
      rewrite list_lookup_insert_eq by lia. rewrite <- He. f_equal. lia.
    + case_bool_decide as Hin.
      * rewrite bool_decide_eq_true_2 by lia.
        rewrite list_lookup_insert_ne by lia. done.
      * rewrite bool_decide_eq_false_2 by lia.
        rewrite list_lookup_insert_ne by lia. done.
Qed.

(** The shifting loop of [RemoveAt] moves the [n] slots behind [i] one slot
    down. *)
Lemma RemoveAt_loop_spec n : forall i (b : t K V),
  0 <= i -> i + Z.of_nat n < Z.of_nat (length (array_ b)) ->
  exists a, RemoveAt_loop n i b = Ret tt (set_array a b) /\
    length a = length (array_ b) /\
    forall j : nat, a !! j =
      if bool_decide (i <= Z.of_nat j < i + Z.of_nat n)
      then array_ b !! S j else array_ b !! j.
Proof.
  induction n as [|n IH]; intros i b H0 Hn.
  - exists (array_ b). simpl. rewrite set_array_id. split; [done|]. split; [done|].
    intros j. by rewrite bool_decide_eq_false_2 by lia.
  - simpl.
    destruct (lookup_lt_is_Some_2 (array_ b) (Z.to_nat (i + 1))) as [e He]; [lia|].
    erewrite bind_Ret by (apply read_Some; [lia|exact He]).
    erewrite bind_Ret by (apply write_Some; lia).
    set (a1 := <[Z.to_nat i := e]> (array_ b)).
    destruct (IH (i + 1) (set_array a1 b)) as (a & Ha & Hlen & Hpt).
    { lia. } { simpl. unfold a1. rewrite length_insert. lia. }
    exists a. split; [exact Ha|]. simpl in Hlen, Hpt.
    split; [by rewrite Hlen; unfold a1; rewrite length_insert|].
    intros j. rewrite Hpt. unfold a1.
    destruct (decide (Z.of_nat j = i)) as [Hj|Hj].
    + rewrite bool_decide_eq_false_2 by lia. rewrite bool_decide_eq_true_2 by lia.
      replace j with (Z.to_nat i) by lia.
      rewrite list_lookup_insert_eq by lia. rewrite <- He. f_equal. lia.
    + case_bool_decide as Hin.
      * rewrite bool_decide_eq_true_2 by lia.
        rewrite list_lookup_insert_ne by lia. done.
      * rewrite bool_decide_eq_false_2 by lia.
        rewrite list_lookup_insert_ne by lia. done.
Qed.

Lemma strictly_sorted_app (l1 l2 : list K) :
  strictly_sorted cmp (l1 ++ l2) = true <->
  strictly_sorted cmp l1 = true /\ strictly_sorted cmp l2 = true /\
  forall a b, a ∈ l1 -> b ∈ l2 -> cmp a b = -1.
Proof.
  induction l1 as [|x l1 IH]; simpl.
  - split; [intros H; split; [done|split; [done|]]|tauto].
    intros a b Ha. by apply elem_of_nil in Ha.
  - rewrite !andb_true_iff, forallb_app, andb_true_iff, IH, !forallb_forall.
    split.
    + intros [[H1 H2] (H3 & H4 & H5)]. split; [done|]. split; [done|].
      intros a b Ha Hb. apply elem_of_cons in Ha as [->|Ha]; [|by apply H5].
      apply list_elem_of_In, H2 in Hb. by apply bool_decide_eq_true in Hb.
    + intros [[H1 H2] (H3 & H4)]. split; [split; [done|]|].
      * intros y Hy. apply bool_decide_eq_true, H4; [left|by apply list_elem_of_In].
      * split; [done|]. split; [done|]. intros a b Ha Hb. apply H4; [by right|done].
Qed.

Lemma InsertAt_spec (b : t K V) p key value :
  0 <= p <= size_ b -> size_ b < Z.of_nat (length (array_ b)) ->
  Z.of_nat (length (array_ b)) < 2 ^ 31 ->
  exists b', InsertAt p key value b = Ret tt b' /\
    size_ b' = size_ b + 1 /\ max_size_ b' = max_size_ b /\
    length (array_ b') = length (array_ b) /\
    live b' = take (Z.to_nat p) (live b) ++ (key, value) :: drop (Z.to_nat p) (live b).
Proof.
  intros Hp Hsz Hlen. unfold InsertAt. erewrite bind_Ret by reflexivity.
  rewrite !to_int_id by (unfold is_int; lia).
  destruct (InsertAt_loop_spec (Z.to_nat (size_ b - p)) (size_ b - 1) b)
    as (a & Ha & Hla & Hpt); [right; lia|].
  erewrite bind_Ret by exact Ha.
  erewrite bind_Ret by (apply write_Some; simpl; lia).
  eexists. split; [reflexivity|]. simpl. rewrite wrap32_id by lia.
  split; [done|]. split; [done|]. split; [by rewrite length_insert|].
  unfold live. simpl.
  apply list_eq. intros j.
  destruct (decide (j < Z.to_nat p)%nat) as [Hj|Hj].
  - rewrite lookup_take_lt by lia. rewrite list_lookup_insert_ne by lia.
    rewrite Hpt, bool_decide_eq_false_2 by lia.
    rewrite lookup_app_l by (rewrite !length_take; lia).
    by rewrite !lookup_take_lt by lia.
  - rewrite lookup_app_r by (rewrite !length_take; lia).
    rewrite !length_take.
    replace (Z.to_nat p `min` (Z.to_nat (size_ b) `min` length (array_ b)))%nat
      with (Z.to_nat p) by lia.
    destruct (decide (j = Z.to_nat p)) as [->|Hjp].
    + rewrite lookup_take_lt by lia. rewrite list_lookup_insert_eq by lia.
      by rewrite Nat.sub_diag.
    + destruct (decide (j <= Z.to_nat (size_ b))%nat) as [Hjs|Hjs].
      * rewrite lookup_take_lt by lia. rewrite list_lookup_insert_ne by lia.
        rewrite Hpt, bool_decide_eq_true_2 by lia.
        replace (j - Z.to_nat p)%nat with (S (j - Z.to_nat p - 1)) by lia.
        simpl. rewrite lookup_drop, lookup_take_lt by lia. f_equal. lia.
      * rewrite lookup_take_ge by lia.
        replace (j - Z.to_nat p)%nat with (S (j - Z.to_nat p - 1)) by lia.
        simpl. rewrite lookup_drop, lookup_take_ge by lia. done.
Qed.

Lemma RemoveAt_spec NDEBUG (b : t K V) i :
  0 <= i < size_ b -> size_ b <= Z.of_nat (length (array_ b)) ->
  size_ b < 2 ^ 31 ->
  exists b', RemoveAt NDEBUG i b = Ret tt b' /\
    size_ b' = size_ b - 1 /\ max_size_ b' = max_size_ b /\
    length (array_ b') = length (array_ b) /\
    live b' = take (Z.to_nat i) (live b) ++ drop (S (Z.to_nat i)) (live b) /\
    behind b' = array_ b !! Z.to_nat (size_ b - 1).
Proof.
  intros Hi Hsz Hlt. unfold RemoveAt. erewrite bind_Ret by reflexivity.
  unfold assert. rewrite bool_decide_eq_true_2 by lia. simpl orb.
  erewrite bind_Ret by reflexivity.
  rewrite !to_int_id by (unfold is_int; lia).
  destruct (RemoveAt_loop_spec (Z.to_nat (size_ b - 1 - i)) i b)
    as (a & Ha & Hla & Hpt); [lia..|].
  erewrite bind_Ret by exact Ha.
  eexists. split; [reflexivity|]. simpl. rewrite wrap32_id by lia.
  split; [done|]. split; [done|]. split; [done|].
  unfold live, behind. simpl. split.
  - apply list_eq. intros j.
    destruct (decide (j < Z.to_nat (size_ b - 1))%nat) as [Hj|Hj].
    + rewrite lookup_take_lt by lia. rewrite Hpt.
      destruct (decide (j < Z.to_nat i)%nat) as [Hji|Hji].
      * rewrite bool_decide_eq_false_2 by lia.
        rewrite lookup_app_l by (rewrite !length_take; lia).
        by rewrite !lookup_take_lt by lia.
      * rewrite bool_decide_eq_true_2 by lia.
        rewrite lookup_app_r by (rewrite !length_take; lia).
        rewrite !length_take.
        replace (Z.to_nat i `min` (Z.to_nat (size_ b) `min` length (array_ b)))%nat
          with (Z.to_nat i) by lia.
        rewrite lookup_drop, lookup_take_lt by lia. f_equal. lia.
    + rewrite lookup_take_ge by lia. symmetry. apply lookup_ge_None.
      rewrite length_app, length_take, length_drop, length_take. lia.
  - rewrite Hpt. by rewrite bool_decide_eq_false_2 by lia.
Qed.

Lemma well_formed_intro (b : t K V) :
  0 <= size_ b <= Z.of_nat (length (array_ b)) -> size_ b < 2 ^ 31 ->
  strictly_sorted cmp (live b).*1 = true -> well_formed cmp b = true.
Proof.
  intros H1 H2 H3. unfold well_formed.
  rewrite !andb_true_iff, !bool_decide_eq_true. done.
Qed.

Lemma well_formed_live_sorted (b : t K V) :
  well_formed cmp b = true -> strictly_sorted cmp (live b).*1 = true.
Proof.
  unfold well_formed. rewrite !andb_true_iff. tauto.
Qed.

(** A key that is in no live slot differs from the key read at its lower
    bound when the slot behind the live entries is free of it. *)
Lemma lower_bound_absent (b : t K V) key p :
  well_formed cmp b = true -> lower_bound cmp b key p ->
  (forall v, (key, v) ∉ live b) -> size_ b <> 0 -> behind_free b key ->
  exists e, array_ b !! Z.to_nat p = Some e /\ e.1 <> key.
Proof.
  intros Hwf (Hpr & _ & _) Hout H0 [?|(eb & Heb & Hkb)]; [done|].
  destruct (well_formed_bounds cmp b Hwf) as [Hsz Hlt].
  destruct (decide (p = size_ b)) as [->|Hne]; [by exists eb|].
  destruct (lookup_lt_is_Some_2 (array_ b) (Z.to_nat p)) as [e He]; [lia|].
  exists e. split; [done|]. intros Hk. apply (Hout e.2).
  apply live_elem_of. exists p. split; [lia|]. rewrite He. f_equal.
  destruct e; simpl in *; by subst.
Qed.

Lemma Insert_fresh_aux (b : t K V) key value :
  well_formed cmp b = true ->
  size_ b < max_size_ b -> max_size_ b <= Z.of_nat (length (array_ b)) ->
  Z.of_nat (length (array_ b)) < 2 ^ 31 ->
  (forall v, (key, v) ∉ live b) -> behind_free b key ->
  exists b' p, Insert cmp key value b = Ret true b' /\
    lower_bound cmp b key p /\
    size_ b' = size_ b + 1 /\ max_size_ b' = max_size_ b /\
    length (array_ b') = length (array_ b) /\
    live b' = take (Z.to_nat p) (live b) ++ (key, value) :: drop (Z.to_nat p) (live b).
Proof.
  intros Hwf Hfull Hmax Hlen Hout Hfree.
  destruct (well_formed_bounds cmp b Hwf) as [Hsz Hlt].
  unfold Insert. erewrite bind_Ret by reflexivity.
  rewrite to_int_id by (unfold is_int; lia).
  erewrite bind_Ret by reflexivity.
  rewrite bool_decide_eq_false_2 by lia.
  case_bool_decide as H0.
  - destruct (InsertAt_spec b 0 key value) as (b' & Hb' & Hrest); [lia..|].
    exists b', 0. erewrite bind_Ret by exact Hb'. split; [done|].
    split; [|exact Hrest]. split; [lia|]. split; intros; lia.
  - destruct (KeyIndex_lower_bound_aux b key Hwf) as (p & Hp & Hlb).
    erewrite bind_Ret by exact Hp.
    destruct (lower_bound_absent b key p) as (e & He & Hk); [done..|].
    pose proof Hlb as (Hpr & _ & _).
    erewrite bind_Ret by (apply KeyAt_Some; [lia|exact He]).
    rewrite bool_decide_eq_false_2; cycle 1.
    { intros Hc. apply (three_way_eq cmp Hcmp) in Hc. by apply Hk. }
    destruct (InsertAt_spec b p key value) as (b' & Hb' & Hrest); [lia..|].
    exists b', p. erewrite bind_Ret by exact Hb'. done.
Qed.

Lemma lower_bound_below (b : t K V) key p :
  lower_bound cmp b key p ->
  forall e, e ∈ take (Z.to_nat p) (live b) -> cmp e.1 key = -1.
Proof.
  intros (Hpr & Hbelow & _) e He.
  apply list_elem_of_lookup in He as [j Hj].
  apply lookup_take_Some in Hj as [Hj Hjp]. apply live_lookup in Hj as [Hjs Hj].
  apply (Hbelow (Z.of_nat j)); [lia|by rewrite Nat2Z.id].
Qed.

Lemma lower_bound_above (b : t K V) key p :
  lower_bound cmp b key p -> (forall v, (key, v) ∉ live b) ->
  forall e, e ∈ drop (Z.to_nat p) (live b) -> cmp key e.1 = -1.
Proof.
  intros (Hpr & _ & Habove) Hout e He.
  apply list_elem_of_lookup in He as [j Hj].
  rewrite lookup_drop in Hj. pose proof Hj as Hj'.
  apply live_lookup in Hj as [Hjs Hj].
  pose proof (Habove (Z.of_nat (Z.to_nat p + j)) e ltac:(lia)
                ltac:(by rewrite Nat2Z.id)) as Hne.
  destruct (three_way_range cmp Hcmp key e.1) as [?|[H0|?]]; [done| |done].
  apply (three_way_eq cmp Hcmp) in H0. exfalso. apply (Hout e.2).
  apply list_elem_of_lookup. exists (Z.to_nat p + j)%nat. rewrite Hj'. f_equal.
  destruct e; simpl in *; by subst.
Qed.

Lemma Remove_stored_aux NDEBUG (b : t K V) key v i :
  well_formed cmp b = true -> 0 <= i < size_ b ->
  array_ b !! Z.to_nat i = Some (key, v) ->
  exists b', Remove cmp NDEBUG key b = Ret true b' /\
    well_formed cmp b' = true /\
    size_ b' = size_ b - 1 /\ max_size_ b' = max_size_ b /\
    length (array_ b') = length (array_ b) /\
    live b' = take (Z.to_nat i) (live b) ++ drop (S (Z.to_nat i)) (live b) /\
    behind b' = array_ b !! Z.to_nat (size_ b - 1).
Proof.
  intros Hwf Hi Hkey. destruct (well_formed_bounds cmp b Hwf) as [Hsz Hlt].
  unfold Remove. erewrite bind_Ret by reflexivity.
  rewrite to_int_id by (unfold is_int; lia).
  rewrite bool_decide_eq_false_2 by lia.
  erewrite bind_Ret
    by (apply (KeyIndex_finds cmp three_way_refl three_way_gt b key v i); done).
  erewrite bind_Ret by (apply KeyAt_Some; [lia|exact Hkey]).
  simpl. rewrite three_way_refl. rewrite bool_decide_eq_false_2 by (intros H; by apply H).
  destruct (RemoveAt_spec NDEBUG b i) as (b' & Hb' & Hs' & Hm' & Hl' & Hlive & Hbeh);
    [lia..|].
  exists b'. erewrite bind_Ret by exact Hb'. split; [done|].
  split; [|done]. apply well_formed_intro; [lia..|].
  rewrite Hlive, fmap_app, fmap_take, fmap_drop.
  assert (Hl : (live b).*1 !! Z.to_nat i = Some key).
  { rewrite list_lookup_fmap. unfold live. rewrite lookup_take_lt by lia.
    by rewrite Hkey. }
  pose proof (well_formed_live_sorted b Hwf) as Hs.
  rewrite <- (take_drop_middle _ _ _ Hl) in Hs.
  apply strictly_sorted_app in Hs as (H1 & H2 & H3).
  simpl in H2. apply andb_true_iff in H2 as [H2 H2'].
  apply strictly_sorted_app. split; [done|]. split; [done|].
  intros a c Ha Hc. apply H3; [done|by right].
Qed.

Lemma stored_or_not (b : t K V) key :
  well_formed cmp b = true ->
  (exists i v, 0 <= i < size_ b /\ array_ b !! Z.to_nat i = Some (key, v)) \/
  (forall v, (key, v) ∉ live b).
Proof.
  intros Hwf. destruct (well_formed_bounds cmp b Hwf) as [Hsz Hlt].
  destruct (KeyIndex_lower_bound_aux b key Hwf) as (p & _ & Hlb).
  pose proof Hlb as (Hpr & _ & _).
  assert (Hno : (forall e, array_ b !! Z.to_nat p = Some e -> p < size_ b ->
                           e.1 <> key) -> forall v, (key, v) ∉ live b).
  { intros Hne v Hin. apply live_elem_of in Hin as (i & Hi & He).
    pose proof (lower_bound_stored b key p i _ Hwf Hlb Hi He eq_refl). subst i.
    apply (Hne _ He); [lia|done]. }
  destruct (decide (p < size_ b)) as [Hp|Hp]; [|right; apply Hno; intros; lia].
  destruct (lookup_lt_is_Some_2 (array_ b) (Z.to_nat p)) as [e He]; [lia|].
  destruct (decide (cmp key e.1 = 0)) as [H0|H0].
  - apply (three_way_eq cmp Hcmp) in H0. left. exists p, e.2.
    split; [lia|]. rewrite He. f_equal. destruct e; simpl in *; by subst.
  - right. apply Hno. intros e' He' _ Hk. rewrite He in He'. inversion He'; subst e'.
    apply H0. rewrite Hk. apply three_way_refl.
Qed.

Lemma Insert_stored (b : t K V) key value v i :
  well_formed cmp b = true -> size_ b < max_size_ b -> 0 <= i < size_ b ->
  array_ b !! Z.to_nat i = Some (key, v) ->
  Insert cmp key value b = Ret false b.
Proof.
  intros Hwf Hfull Hi Hkey. destruct (well_formed_bounds cmp b Hwf) as [Hsz Hlt].
  unfold Insert. erewrite bind_Ret by reflexivity.
  rewrite to_int_id by (unfold is_int; lia).
  erewrite bind_Ret by reflexivity.
  rewrite bool_decide_eq_false_2 by lia.
  rewrite bool_decide_eq_false_2 by lia.
  erewrite bind_Ret
    by (apply (KeyIndex_finds cmp three_way_refl three_way_gt b key v i); done).
  erewrite bind_Ret by (apply KeyAt_Some; [lia|exact Hkey]).
  simpl. rewrite three_way_refl. by rewrite bool_decide_eq_true_2.
Qed.

Lemma Insert_fresh_well_formed (b b' : t K V) key value p :
  well_formed cmp b = true -> lower_bound cmp b key p ->
  (forall v, (key, v) ∉ live b) ->
  size_ b' = size_ b + 1 -> length (array_ b') = length (array_ b) ->
  size_ b < Z.of_nat (length (array_ b)) -> Z.of_nat (length (array_ b)) < 2 ^ 31 ->
  live b' = take (Z.to_nat p) (live b) ++ (key, value) :: drop (Z.to_nat p) (live b) ->
  well_formed cmp b' = true.
Proof.
  intros Hwf Hlb Hout Hs Hl Hsz Hlen Hlive.
  destruct (well_formed_bounds cmp b Hwf) as [Hsz' Hlt].
  apply well_formed_intro; [lia..|].
  rewrite Hlive, fmap_app, fmap_cons, fmap_take, fmap_drop. simpl.
  pose proof (well_formed_live_sorted b Hwf) as Hsort.
  rewrite <- (take_drop (Z.to_nat p) (live b).*1) in Hsort.
  apply strictly_sorted_app in Hsort as (H1 & H2 & H3).
  assert (Hup : forall c, c ∈ drop (Z.to_nat p) (live b).*1 -> cmp key c = -1).
  { intros c Hc. rewrite <- fmap_drop in Hc.
    apply list_elem_of_fmap in Hc as (e & -> & He).
    by apply (lower_bound_above b key p). }
  apply strictly_sorted_app. split; [done|]. split.
  - simpl. rewrite H2, andb_true_r. apply forallb_forall. intros c Hc.
    apply bool_decide_eq_true, Hup. by apply list_elem_of_In.
  - intros a c Ha Hc. apply elem_of_cons in Hc as [->|Hc]; [|by apply H3].
    rewrite <- fmap_take in Ha. apply list_elem_of_fmap in Ha as (e & -> & He).
    by apply (lower_bound_below b key p).
Qed.

(** X1.  On a well-formed bucket [KeyIndex] leaves the bucket unchanged and
    returns the lower bound of the key among the live entries: an index
    between 0 and the size such that every live key before it is smaller
    than the key and no live key from it on is. *)
Theorem KeyIndex_returns_lower_bound (b : t K V) key :
  well_formed cmp b = true ->
  exists p, KeyIndex cmp key b = Ret p b /\ lower_bound cmp b key p.
Proof. apply KeyIndex_lower_bound_aux. Qed.

(** X2.  On a well-formed bucket whose slot behind the live entries does
    not hold the key, [Lookup] leaves the bucket unchanged and returns
    [Some v] exactly when the pair [(key, v)] is among the live entries. *)
Theorem Lookup_returns_stored_value (b : t K V) key :
  well_formed cmp b = true -> behind_free b key ->
  exists r, Lookup cmp key b = Ret r b /\
            forall v, r = Some v <-> (key, v) ∈ live b.
Proof.
  intros Hwf Hfree.
  destruct (stored_or_not b key Hwf) as [(i & v & Hi & He)|Hout].
  - exists (Some v). split.
    + by apply (Lookup_finds cmp three_way_refl three_way_gt b key v i).
    + intros v'. split.
      * intros [= <-]. apply live_elem_of. by exists i.
      * intros Hin. apply live_elem_of in Hin as (j & Hj & He').
        pose proof (well_formed_key_inj b i j _ _ Hwf Hi Hj He He' eq_refl). subst j.
        rewrite He in He'. by inversion He'.
  - exists None. split; [by apply Lookup_absent|].
    intros v. split; [done|]. intros Hin. by apply Hout in Hin.
Qed.

(** X3.  [Insert] of a key that is not stored, into a well-formed bucket
    that is not full, returns true; the bucket stays well-formed, its size
    grows by one, its live pairs are the old ones and the new pair, and
    [Lookup] of the key then returns the new value. *)
Theorem Insert_fresh_key (b : t K V) key value :
  well_formed cmp b = true ->
  size_ b < max_size_ b -> max_size_ b <= Z.of_nat (length (array_ b)) ->
  Z.of_nat (length (array_ b)) < 2 ^ 31 ->
  (forall v, (key, v) ∉ live b) -> behind_free b key ->
  exists b', Insert cmp key value b = Ret true b' /\
    well_formed cmp b' = true /\
    size_ b' = size_ b + 1 /\ max_size_ b' = max_size_ b /\
    (forall e, e ∈ live b' <-> e = (key, value) \/ e ∈ live b) /\
    Lookup cmp key b' = Ret (Some value) b'.
Proof.
  intros Hwf Hfull Hmax Hlen Hout Hfree.
  destruct (well_formed_bounds cmp b Hwf) as [Hsz Hlt].
  destruct (Insert_fresh_aux b key value) as (b' & p & Hb' & Hlb & Hs & Hm & Hl & Hlive);
    [done..|].
  assert (Hwf' : well_formed cmp b' = true).
  { apply (Insert_fresh_well_formed b b' key value p); (done || lia). }
  exists b'. split; [done|]. split; [done|]. split; [done|]. split; [done|].
  pose proof Hlb as (Hpr & _ & _). split.
  - intros e. rewrite Hlive, elem_of_app, elem_of_cons.
    rewrite <- (take_drop (Z.to_nat p) (live b)) at 3. rewrite elem_of_app. tauto.
  - apply (Lookup_finds cmp three_way_refl three_way_gt b' key value p);
      [done|lia|].
    apply (live_lookup b' (Z.to_nat p)). rewrite Hlive.
    rewrite lookup_app_r by (rewrite length_take; unfold live; rewrite length_take; lia).
    rewrite length_take. unfold live at 1. rewrite length_take.
    replace (_ - _)%nat with 0%nat by lia. done.
Qed.

(** X4.  [Insert] into a well-formed bucket whose array has room for
    [max_size_] pairs always returns, and the bucket stays well-formed; it
    returns true exactly when the bucket is not full and the key is not
    stored, and a call that returns false changes nothing. *)
Theorem Insert_outcome (b : t K V) key value :
  well_formed cmp b = true ->
  max_size_ b <= Z.of_nat (length (array_ b)) ->
  Z.of_nat (length (array_ b)) < 2 ^ 31 ->
  behind_free b key ->
  exists r b', Insert cmp key value b = Ret r b' /\
    well_formed cmp b' = true /\
    (r = false -> b' = b) /\
    (r = true <-> size_ b < max_size_ b /\ forall v, (key, v) ∉ live b).
Proof.
  intros Hwf Hmax Hlen Hfree.
  destruct (decide (size_ b < max_size_ b)) as [Hfull|Hfull]; cycle 1.
  { exists false, b. split.
    - unfold Insert. erewrite bind_Ret by reflexivity.
      erewrite bind_Ret by reflexivity.
      by rewrite bool_decide_eq_true_2 by lia.
    - split; [done|]. split; [done|]. split; [done|]. intros [? _]. lia. }
  destruct (stored_or_not b key Hwf) as [(i & v & Hi & He)|Hout].
  - exists false, b. split; [by apply (Insert_stored b key value v i)|].
    split; [done|]. split; [done|]. split; [done|]. intros [_ Hout].
    exfalso. apply (Hout v), live_elem_of. by exists i.
  - destruct (well_formed_bounds cmp b Hwf) as [Hsz Hlt].
    destruct (Insert_fresh_aux b key value)
      as (b' & p & Hb' & Hlb & Hs & Hm & Hl & Hlive); [done..|].
    exists true, b'. split; [done|]. split.
    + apply (Insert_fresh_well_formed b b' key value p); (done || lia).
    + split; [done|]. done.
Qed.

(** X5.  [Remove] of a key stored in a well-formed bucket returns true
    (the assertion of [RemoveAt] holds); the bucket stays well-formed, its
    size shrinks by one and its live pairs are the old ones without the
    pair of the key. *)
Theorem Remove_stored_key NDEBUG (b : t K V) key v :
  well_formed cmp b = true -> (key, v) ∈ live b ->
  exists b', Remove cmp NDEBUG key b = Ret true b' /\
    well_formed cmp b' = true /\
    size_ b' = size_ b - 1 /\ max_size_ b' = max_size_ b /\
    (forall e, e ∈ live b' <-> e ∈ live b /\ e.1 <> key).
Proof.
  intros Hwf Hin. apply live_elem_of in Hin as (i & Hi & He).
  destruct (Remove_stored_aux NDEBUG b key v i)
    as (b' & Hb' & Hwf' & Hs & Hm & Hl & Hlive & _); [done..|].
  exists b'. split; [done|]. split; [done|]. split; [done|]. split; [done|].
  destruct (well_formed_bounds cmp b Hwf) as [Hsz Hlt].
  intros e. rewrite Hlive, elem_of_app. split.
  - intros [Hin|Hin]; apply list_elem_of_lookup in Hin as [j Hj].
    + apply lookup_take_Some in Hj as [Hj Hji]. split; [by eapply list_elem_of_lookup_2|].
      apply live_lookup in Hj as [Hjs Hj]. intros Hk.
      assert (Z.of_nat j = i); [|lia].
      apply (well_formed_key_inj b (Z.of_nat j) i e (key, v)); [done|lia|lia| |done..].
      by rewrite Nat2Z.id.
    + rewrite lookup_drop in Hj. split; [by eapply list_elem_of_lookup_2|].
      apply live_lookup in Hj as [Hjs Hj]. intros Hk.
      assert (Z.of_nat (S (Z.to_nat i) + j) = i); [|lia].
      apply (well_formed_key_inj b _ i e (key, v)); [done|lia|lia| |done..].
      by rewrite Nat2Z.id.
  - intros [Hin Hk]. apply list_elem_of_lookup in Hin as [j Hj].
    destruct (decide (j < Z.to_nat i)%nat) as [Hlt'|Hge].
    + left. apply list_elem_of_lookup. exists j. by rewrite lookup_take_lt.
    + right. apply list_elem_of_lookup. exists (j - S (Z.to_nat i))%nat.
      rewrite lookup_drop.
      assert (j <> Z.to_nat i).
      { intros ->. apply live_lookup in Hj as [_ Hj]. rewrite He in Hj.
        inversion Hj; subst e. by apply Hk. }
      rewrite <- Hj. f_equal. lia.
Qed.

(** X6.  After [Remove] of the key stored in live slot [i] of a well-formed
    bucket, [Lookup] of that key still returns the removed value when the
    key was in the last live slot of a bucket with two or more entries,
    and returns nothing otherwise. *)
Theorem Lookup_after_Remove NDEBUG (b : t K V) key v i :
  well_formed cmp b = true -> 0 <= i < size_ b ->
  array_ b !! Z.to_nat i = Some (key, v) ->
  exists b', Remove cmp NDEBUG key b = Ret true b' /\
    Lookup cmp key b' =
      Ret (if bool_decide (i = size_ b - 1 /\ 1 < size_ b) then Some v else None) b'.
Proof.
  intros Hwf Hi He. destruct (well_formed_bounds cmp b Hwf) as [Hsz Hlt].
  destruct (Remove_stored_aux NDEBUG b key v i)
    as (b' & Hb' & Hwf' & Hs & Hm & Hl & Hlive & Hbeh); [done..|].
  exists b'. split; [done|].
  assert (Hout : forall v', (key, v') ∉ live b').
  { intros v' Hin. rewrite Hlive in Hin.
    assert (forall j, live b !! j = Some (key, v') -> j = Z.to_nat i) as Hinj.
    { intros j Hj. apply live_lookup in Hj as [Hjs Hj].
      assert (Z.of_nat j = i); [|lia].
      apply (well_formed_key_inj b (Z.of_nat j) i (key, v') (key, v));
        [done|lia|lia| |done..]. by rewrite Nat2Z.id. }
    apply elem_of_app in Hin as [Hin|Hin]; apply list_elem_of_lookup in Hin as [j Hj].
    - apply lookup_take_Some in Hj as [Hj Hji]. apply Hinj in Hj. lia.
    - rewrite lookup_drop in Hj. apply Hinj in Hj. lia. }
  case_bool_decide as Hlast.
  - destruct Hlast as [-> H1].
    unfold Lookup. erewrite bind_Ret by reflexivity.
    rewrite Hs, to_int_id by (unfold is_int; lia).
    rewrite bool_decide_eq_false_2 by lia.
    destruct (KeyIndex_lower_bound_aux b' key Hwf') as (p & Hp & Hlb).
    erewrite bind_Ret by exact Hp. erewrite bind_Ret by reflexivity.
    pose proof Hlb as (Hpr & _ & Habove).
    rewrite bool_decide_eq_false_2 by lia.
    assert (p = size_ b').
    { destruct (decide (p = size_ b')) as [|Hne]; [done|exfalso].
      destruct (lookup_lt_is_Some_2 (array_ b') (Z.to_nat p)) as [e Hep]; [lia|].
      assert (Hin : e ∈ live b').
      { apply live_elem_of. exists p. split; [lia|done]. }
      apply (Habove p e ltac:(lia) Hep). apply three_way_gt.
      rewrite Hlive in Hin. apply elem_of_app in Hin as [Hin|Hin].
      - apply list_elem_of_lookup in Hin as [j Hj].
        apply lookup_take_Some in Hj as [Hj Hji]. apply live_lookup in Hj as [Hjs Hj].
        apply (well_formed_sorted cmp b (Z.of_nat j) (size_ b - 1) e (key, v));
          [done|lia|lia| |done]. by rewrite Nat2Z.id.
      - apply list_elem_of_lookup in Hin as [j Hj]. rewrite lookup_drop in Hj.
        apply live_lookup in Hj as [Hjs Hj]. lia. }
    subst p. unfold behind in Hbeh. rewrite He in Hbeh.
    erewrite bind_Ret by (apply KeyAt_Some; [lia|exact Hbeh]).
    simpl. rewrite three_way_refl, bool_decide_eq_true_2 by done.
    by erewrite bind_Ret by (apply ValueAt_Some; [lia|exact Hbeh]).
  - apply Lookup_absent; [done..|].
    destruct (decide (size_ b = 1)) as [H1|H1]; [left; lia|right].
    destruct (lookup_lt_is_Some_2 (array_ b) (Z.to_nat (size_ b - 1))) as [e Hlast'];
      [lia|].
    exists e. split; [by rewrite Hbeh|]. intros Hk.
    assert (size_ b - 1 = i); [|apply Hlast; split; lia].
    apply (well_formed_key_inj b (size_ b - 1) i e (key, v)); [done|lia|lia|done..].
Qed.

(** X7.  [Remove] of a key that is in no live slot of a well-formed bucket
    returns false and leaves the bucket unchanged, when the slot behind the
    live entries does not hold the key. *)
Theorem Remove_absent_key NDEBUG (b : t K V) key :
  well_formed cmp b = true -> (forall v, (key, v) ∉ live b) ->
  behind_free b key ->
  Remove cmp NDEBUG key b = Ret false b.
Proof.
  intros Hwf Hout Hfree. destruct (well_formed_bounds cmp b Hwf) as [Hsz Hlt].
  unfold Remove. erewrite bind_Ret by reflexivity.
  rewrite to_int_id by (unfold is_int; lia).
  case_bool_decide as H0; [done|].
  destruct (KeyIndex_lower_bound_aux b key Hwf) as (p & Hp & Hlb).
  erewrite bind_Ret by exact Hp.
  destruct (lower_bound_absent b key p) as (e & He & Hk); [done..|].
  pose proof Hlb as (Hpr & _ & _).
  erewrite bind_Ret by (apply KeyAt_Some; [lia|exact He]).
  rewrite bool_decide_eq_true_2; [done|].
  intros Hc. apply (three_way_eq cmp Hcmp) in Hc. by apply Hk.
Qed.
End Props.

Lemma IntComparator_three_way : three_way IntComparator.
Proof.
  split; intros *; unfold IntComparator; repeat case_bool_decide; lia.
Qed.

Lemma KeyIndex_returns_lower_bound_witness :
  let b := {| size_ := 3; max_size_ := 4;
              array_ := [(1, 10); (5, 50); (9, 90); (0, 0); (0, 0)] |} in
  well_formed IntComparator b = true /\
  exists p, KeyIndex IntComparator 7 b = Ret p b /\ lower_bound IntComparator b 7 p.
Proof.
  intros b. assert (Hwf : well_formed IntComparator b = true) by (vm_compute; reflexivity).
  split; [exact Hwf|].
  exact (KeyIndex_returns_lower_bound IntComparator IntComparator_three_way b 7 Hwf).
Defined.

Lemma Lookup_returns_stored_value_witness :
  let b := {| size_ := 3; max_size_ := 4;
              array_ := [(1, 10); (5, 50); (9, 90); (0, 0); (0, 0)] |} in
  well_formed IntComparator b = true /\ behind_free b 5 /\
  exists r, Lookup IntComparator 5 b = Ret r b /\
            forall v, r = Some v <-> (5, v) ∈ live b.
Proof.
  intros b. assert (Hwf : well_formed IntComparator b = true) by (vm_compute; reflexivity).
  assert (Hfree : behind_free b 5).
  { right. exists (0, 0). split; [reflexivity|simpl; lia]. }
  split; [exact Hwf|]. split; [exact Hfree|].
  exact (Lookup_returns_stored_value IntComparator IntComparator_three_way b 5 Hwf Hfree).
Defined.

Lemma Insert_fresh_key_witness :
  let b := {| size_ := 3; max_size_ := 4;
              array_ := [(1, 10); (5, 50); (9, 90); (0, 0); (0, 0)] |} in
  exists b', Insert IntComparator 7 70 b = Ret true b' /\
    well_formed IntComparator b' = true /\
    size_ b' = size_ b + 1 /\ max_size_ b' = max_size_ b /\
    (forall e, e ∈ live b' <-> e = (7, 70) \/ e ∈ live b) /\
    Lookup IntComparator 7 b' = Ret (Some 70) b'.
Proof.
  intros b.
  apply (Insert_fresh_key IntComparator IntComparator_three_way b 7 70).
  - vm_compute; reflexivity.
  - simpl; lia.
  - simpl; lia.
  - simpl; lia.
  - intros v Hin. unfold live, b in Hin. simpl in Hin.
    rewrite !elem_of_cons, elem_of_nil in Hin. naive_solver.
  - right. exists (0, 0). split; [reflexivity|simpl; lia].
Defined.

Lemma Insert_outcome_witness :
  let b := {| size_ := 3; max_size_ := 3;
              array_ := [(1, 10); (5, 50); (9, 90); (0, 0); (0, 0)] |} in
  exists r b', Insert IntComparator 7 70 b = Ret r b' /\
    well_formed IntComparator b' = true /\
    (r = false -> b' = b) /\
    (r = true <-> size_ b < max_size_ b /\ forall v, (7, v) ∉ live b).
Proof.
  intros b.
  apply (Insert_outcome IntComparator IntComparator_three_way b 7 70).
  - vm_compute; reflexivity.
  - simpl; lia.
  - simpl; lia.
  - right. exists (0, 0). split; [reflexivity|simpl; lia].
Defined.

Lemma Remove_stored_key_witness :
  let b := {| size_ := 3; max_size_ := 4;
              array_ := [(1, 10); (5, 50); (9, 90); (0, 0); (0, 0)] |} in
  exists b', Remove IntComparator false 5 b = Ret true b' /\
    well_formed IntComparator b' = true /\
    size_ b' = size_ b - 1 /\ max_size_ b' = max_size_ b /\
    (forall e, e ∈ live b' <-> e ∈ live b /\ e.1 <> 5).
Proof.
  intros b.
  apply (Remove_stored_key IntComparator IntComparator_three_way false b 5 50).
  - vm_compute; reflexivity.
  - apply list_elem_of_lookup. exists 1%nat. reflexivity.
Defined.

Lemma Lookup_after_Remove_witness :
  let b := {| size_ := 3; max_size_ := 4;
              array_ := [(1, 10); (5, 50); (9, 90); (0, 0); (0, 0)] |} in
  exists b', Remove IntComparator false 9 b = Ret true b' /\
    Lookup IntComparator 9 b' = Ret (Some 90) b'.
Proof.
  intros b.
  apply (Lookup_after_Remove IntComparator IntComparator_three_way false b 9 90 2).
  - vm_compute; reflexivity.
  - simpl; lia.
  - reflexivity.
Defined.

Lemma Remove_absent_key_witness :
  let b := {| size_ := 3; max_size_ := 4;
              array_ := [(1, 10); (5, 50); (9, 90); (0, 0); (0, 0)] |} in
  Remove IntComparator false 7 b = Ret false b.
Proof.
  intros b.
  apply (Remove_absent_key IntComparator IntComparator_three_way false b 7).
  - vm_compute; reflexivity.
  - intros v Hin. unfold live, b in Hin. simpl in Hin.
    rewrite !elem_of_cons, elem_of_nil in Hin. naive_solver.
  - right. exists (0, 0). split; [reflexivity|simpl; lia].
Defined.
End BucketPageProperties.

(** ** Directory page: growth, routing and depth bookkeeping *)

Module DirectoryPageProperties.
Import ExtendibleHTableDirectoryPage.
Import DirectoryPageFacts.

Lemma write_page_id_Some d i x :
  0 <= i < Z.of_nat (length (bucket_page_ids_ d)) ->
  write_page_id i x d
  = Ret tt (set_bucket_page_ids (<[Z.to_nat i := x]> (bucket_page_ids_ d)) d).
Proof.
  intros Hi. unfold write_page_id, array_set. by rewrite bool_decide_eq_true_2.
Qed.

Lemma write_local_depth_Some d i x :
  0 <= i < Z.of_nat (length (local_depths_ d)) ->
  write_local_depth i x d
  = Ret tt (set_local_depths (<[Z.to_nat i := x]> (local_depths_ d)) d).
Proof.
  intros Hi. unfold write_local_depth, array_set. by rewrite bool_decide_eq_true_2.
Qed.

(** The copy loop of [IncrGlobalDepth], slot by slot: the [n] slots from
    [half + i] on receive the contents of the [n] slots from [i] on. *)
Lemma IncrGlobalDepth_loop_spec half n : forall i d,
  0 <= i -> i + Z.of_nat n <= half ->
  half + i + Z.of_nat n <= Z.of_nat (length (bucket_page_ids_ d)) ->
  half + i + Z.of_nat n <= Z.of_nat (length (local_depths_ d)) ->
  exists d',
    IncrGlobalDepth_loop n half i d = Ret tt d' /\
    global_depth_ d' = global_depth_ d /\ max_depth_ d' = max_depth_ d /\
    length (bucket_page_ids_ d') = length (bucket_page_ids_ d) /\
    length (local_depths_ d') = length (local_depths_ d) /\
    (forall j : nat,
       bucket_page_ids_ d' !! j =
         if bool_decide (half + i <= Z.of_nat j < half + i + Z.of_nat n)
         then bucket_page_ids_ d !! Z.to_nat (Z.of_nat j - half)
         else bucket_page_ids_ d !! j) /\
    (forall j : nat,
       local_depths_ d' !! j =
         if bool_decide (half + i <= Z.of_nat j < half + i + Z.of_nat n)
         then local_depths_ d !! Z.to_nat (Z.of_nat j - half)
         else local_depths_ d !! j).
Proof.
  induction n as [|n IH]; intros i d Hi Hhalf Hp Hl; simpl.
  { exists d. repeat split; try done; intros j; by rewrite bool_decide_eq_false_2 by lia. }
  destruct (lookup_lt_is_Some_2 (bucket_page_ids_ d) (Z.to_nat i)) as [pid Hpid]; [lia|].
  erewrite bind_Ret by (by apply read_page_id_Some).
  erewrite bind_Ret by (apply write_page_id_Some; lia).
  set (d1 := set_bucket_page_ids _ d).
  destruct (lookup_lt_is_Some_2 (local_depths_ d1) (Z.to_nat i)) as [ld Hld];
    [simpl; lia|].
  erewrite bind_Ret by (by apply read_local_depth_Some).
  erewrite bind_Ret by (apply write_local_depth_Some; simpl; lia).
  set (d2 := set_local_depths _ d1).
  destruct (IH (i + 1) d2) as (d' & Hrun & Hg & Hm & Hlp & Hll & Hpp & Hpl);
    [lia|lia|simpl; rewrite length_insert; lia|simpl; rewrite length_insert; lia|].
  exists d'. split; [exact Hrun|]. split; [done|]. split; [done|].
  simpl in Hlp, Hll, Hpp, Hpl. rewrite length_insert in Hlp, Hll.
  split; [done|]. split; [done|]. simpl in Hld.
  split; intros j; [rewrite Hpp|rewrite Hpl];
    (destruct (decide (Z.of_nat j = half + i)) as [Hj|Hj];
     [ rewrite bool_decide_eq_false_2 by lia; rewrite bool_decide_eq_true_2 by lia;
       replace j with (Z.to_nat (half + i)) by lia;
       rewrite list_lookup_insert_eq by lia;
       replace (Z.to_nat (Z.of_nat (Z.to_nat (half + i)) - half)) with (Z.to_nat i) by lia;
       done
     | case_bool_decide;
       [ rewrite bool_decide_eq_true_2 by lia
       | rewrite bool_decide_eq_false_2 by lia ];
       rewrite list_lookup_insert_ne by lia; done ]).
Qed.

Lemma shl1_Some {St} n (s : St) :
  0 <= n < 32 -> shl1 n s = Ret (2 ^ n) s.
Proof.
  intros Hn. unfold shl1. rewrite bool_decide_eq_true_2 by done.
  by rewrite Z.shiftl_1_l.
Qed.

Lemma pow2_bounds n : 0 <= n < 32 -> 0 < 2 ^ n < 2 ^ 32.
Proof.
  intros Hn. split; [apply Z.pow_pos_nonneg; lia|].
  apply Z.pow_lt_mono_r; lia.
Qed.

Lemma Size_Some d :
  0 <= global_depth_ d < 32 -> Size d = Ret (2 ^ global_depth_ d) d.
Proof.
  intros Hg. unfold Size. erewrite bind_Ret by reflexivity.
  erewrite bind_Ret by (by apply shl1_Some).
  unfold ret. f_equal. apply wrap32_id. pose proof (pow2_bounds _ Hg). lia.
Qed.

Lemma HashToBucketIndex_Some d hash :
  0 <= global_depth_ d < 32 -> 0 <= hash ->
  HashToBucketIndex hash d = Ret (hash mod 2 ^ global_depth_ d) d.
Proof.
  intros Hg Hh. unfold HashToBucketIndex, GetGlobalDepthMask.
  erewrite bind_Ret; cycle 1.
  { erewrite bind_Ret by reflexivity.
    erewrite bind_Ret by (by apply shl1_Some). reflexivity. }
  unfold ret. f_equal. pose proof (pow2_bounds _ Hg).
  rewrite wrap32_id by lia.
  rewrite <- Z.land_ones by lia. f_equal. rewrite Z.ones_equiv. lia.
Qed.

Lemma IncrGlobalDepth_spec d :
  global_depth_ d <= max_depth_ d -> 0 <= global_depth_ d < 31 ->
  2 ^ (global_depth_ d + 1) <= Z.of_nat (length (bucket_page_ids_ d)) ->
  2 ^ (global_depth_ d + 1) <= Z.of_nat (length (local_depths_ d)) ->
  exists d',
    IncrGlobalDepth d = Ret tt d' /\
    global_depth_ d' = global_depth_ d + 1 /\ max_depth_ d' = max_depth_ d /\
    length (bucket_page_ids_ d') = length (bucket_page_ids_ d) /\
    length (local_depths_ d') = length (local_depths_ d) /\
    (forall j : nat,
       bucket_page_ids_ d' !! j =
         if bool_decide (2 ^ global_depth_ d <= Z.of_nat j < 2 ^ (global_depth_ d + 1))
         then bucket_page_ids_ d !! Z.to_nat (Z.of_nat j - 2 ^ global_depth_ d)
         else bucket_page_ids_ d !! j) /\
    (forall j : nat,
       local_depths_ d' !! j =
         if bool_decide (2 ^ global_depth_ d <= Z.of_nat j < 2 ^ (global_depth_ d + 1))
         then local_depths_ d !! Z.to_nat (Z.of_nat j - 2 ^ global_depth_ d)
         else local_depths_ d !! j).
Proof.
  intros Hmax Hg Hp Hl. unfold IncrGlobalDepth.
  erewrite bind_Ret by reflexivity.
  rewrite bool_decide_eq_false_2 by lia.
  erewrite bind_Ret by (apply shl1_Some; lia).
  assert (Hpow : 2 ^ (global_depth_ d + 1) = 2 * 2 ^ global_depth_ d)
    by (rewrite Z.pow_add_r by lia; lia).
  assert (0 < 2 ^ global_depth_ d) by (apply Z.pow_pos_nonneg; lia).
  destruct (IncrGlobalDepth_loop_spec (2 ^ global_depth_ d)
              (Z.to_nat (2 ^ global_depth_ d)) 0 d)
    as (d' & Hrun & Hgd & Hmd & Hlp & Hll & Hpp & Hpl); [lia..|].
  erewrite bind_Ret by exact Hrun.
  eexists. split; [reflexivity|]. simpl. rewrite Hgd.
  split; [apply wrap32_id; lia|]. split; [done|]. split; [done|]. split; [done|].
  split; intros j; [rewrite Hpp|rewrite Hpl];
    (case_bool_decide; [rewrite bool_decide_eq_true_2 by lia
                       |rewrite bool_decide_eq_false_2 by lia]; done).
Qed.

(** X8.  Below the maximal depth [IncrGlobalDepth] doubles the directory:
    the global depth grows by one, each slot of the new upper half holds
    the bucket page id and local depth of its counterpart in the lower
    half, and every other slot keeps its contents. *)
Theorem IncrGlobalDepth_mirrors_lower_half d :
  global_depth_ d <= max_depth_ d -> 0 <= global_depth_ d < 31 ->
  2 ^ (global_depth_ d + 1) <= Z.of_nat (length (bucket_page_ids_ d)) ->
  2 ^ (global_depth_ d + 1) <= Z.of_nat (length (local_depths_ d)) ->
  exists d',
    IncrGlobalDepth d = Ret tt d' /\
    global_depth_ d' = global_depth_ d + 1 /\ max_depth_ d' = max_depth_ d /\
    (forall j : nat,
       bucket_page_ids_ d' !! j =
         if bool_decide (2 ^ global_depth_ d <= Z.of_nat j < 2 ^ (global_depth_ d + 1))
         then bucket_page_ids_ d !! Z.to_nat (Z.of_nat j - 2 ^ global_depth_ d)
         else bucket_page_ids_ d !! j) /\
    (forall j : nat,
       local_depths_ d' !! j =
         if bool_decide (2 ^ global_depth_ d <= Z.of_nat j < 2 ^ (global_depth_ d + 1))
         then local_depths_ d !! Z.to_nat (Z.of_nat j - 2 ^ global_depth_ d)
         else local_depths_ d !! j).
Proof.
  intros Hmax Hg Hp Hl.
  destruct (IncrGlobalDepth_spec d) as (d' & H1 & H2 & H3 & _ & _ & H4 & H5); [done..|].
  by exists d'.
Qed.

Lemma GetBucketPageId_Some NDEBUG d i x :
  0 <= global_depth_ d < 32 -> 0 <= i < 2 ^ global_depth_ d ->
  bucket_page_ids_ d !! Z.to_nat i = Some x ->
  GetBucketPageId NDEBUG i d = Ret x d.
Proof.
  intros Hg Hi Hx. unfold GetBucketPageId.
  erewrite bind_Ret by (by apply Size_Some).
  unfold assert. rewrite bool_decide_eq_true_2 by lia. simpl orb.
  erewrite bind_Ret by reflexivity. apply read_page_id_Some; [lia|done].
Qed.

Lemma GetLocalDepth_Some NDEBUG d i x :
  0 <= global_depth_ d < 32 -> 0 <= i < 2 ^ global_depth_ d ->
  local_depths_ d !! Z.to_nat i = Some x ->
  GetLocalDepth NDEBUG i d = Ret x d.
Proof.
  intros Hg Hi Hx. unfold GetLocalDepth.
  erewrite bind_Ret by (by apply Size_Some).
  unfold assert. rewrite bool_decide_eq_true_2 by lia. simpl orb.
  erewrite bind_Ret by reflexivity. apply read_local_depth_Some; [lia|done].
Qed.

Lemma mod_double h m :
  0 < m -> h mod (2 * m) = h mod m \/ h mod (2 * m) = h mod m + m.
Proof.
  intros Hm. rewrite (Z.mul_comm 2 m), Z.rem_mul_r by lia.
  pose proof (Z.mod_pos_bound (h / m) 2 ltac:(lia)).
  assert (h / m mod 2 = 0 \/ h / m mod 2 = 1) as [->| ->] by lia; [left|right]; lia.
Qed.

(** X9.  Growing the directory does not reroute any hash: the slot that
    [HashToBucketIndex] selects after [IncrGlobalDepth] holds the same
    bucket page id and the same local depth as the slot it selected
    before. *)
Theorem IncrGlobalDepth_keeps_routing NDEBUG d hash :
  global_depth_ d <= max_depth_ d -> 0 <= global_depth_ d < 31 ->
  2 ^ (global_depth_ d + 1) <= Z.of_nat (length (bucket_page_ids_ d)) ->
  2 ^ (global_depth_ d + 1) <= Z.of_nat (length (local_depths_ d)) ->
  0 <= hash ->
  exists d' i i' pid ld,
    IncrGlobalDepth d = Ret tt d' /\
    HashToBucketIndex hash d = Ret i d /\
    HashToBucketIndex hash d' = Ret i' d' /\
    GetBucketPageId NDEBUG i d = Ret pid d /\
    GetBucketPageId NDEBUG i' d' = Ret pid d' /\
    GetLocalDepth NDEBUG i d = Ret ld d /\
    GetLocalDepth NDEBUG i' d' = Ret ld d'.
Proof.
  intros Hmax Hg Hp Hl Hh.
  destruct (IncrGlobalDepth_spec d) as (d' & Hrun & Hgd & Hmd & Hlp & Hll & Hpp & Hpl);
    [done..|].
  assert (Hpow : 2 ^ (global_depth_ d + 1) = 2 * 2 ^ global_depth_ d)
    by (rewrite Z.pow_add_r by lia; lia).
  assert (H0 : 0 < 2 ^ global_depth_ d) by (apply Z.pow_pos_nonneg; lia).
  set (i := hash mod 2 ^ global_depth_ d).
  set (i' := hash mod 2 ^ (global_depth_ d + 1)).
  assert (Hi : 0 <= i < 2 ^ global_depth_ d) by (apply Z.mod_pos_bound; lia).
  assert (Hi' : i' = i \/ i' = i + 2 ^ global_depth_ d).
  { unfold i', i. rewrite Hpow. by apply mod_double. }
  destruct (lookup_lt_is_Some_2 (bucket_page_ids_ d) (Z.to_nat i)) as [pid Hpid]; [lia|].
  destruct (lookup_lt_is_Some_2 (local_depths_ d) (Z.to_nat i)) as [ld Hld]; [lia|].
  exists d', i, i', pid, ld. split; [done|].
  split; [apply HashToBucketIndex_Some; lia|].
  split; [unfold i'; rewrite <- Hgd; apply HashToBucketIndex_Some; lia|].
  split; [apply GetBucketPageId_Some; (done || lia)|].
  split; [|split; [apply GetLocalDepth_Some; (done || lia)|]].
  - apply GetBucketPageId_Some; [lia|rewrite Hgd; lia|].
    rewrite Hpp. destruct Hi' as [->| ->].
    + by rewrite bool_decide_eq_false_2 by lia.
    + rewrite bool_decide_eq_true_2 by lia. rewrite <- Hpid. f_equal. lia.
  - apply GetLocalDepth_Some; [lia|rewrite Hgd; lia|].
    rewrite Hpl. destruct Hi' as [->| ->].
    + by rewrite bool_decide_eq_false_2 by lia.
    + rewrite bool_decide_eq_true_2 by lia. rewrite <- Hld. f_equal. lia.
Qed.

(** X10.  [HashToBucketIndex] keeps the [global_depth_] low bits of the
    hash, so the index it returns is below [Size()]. *)
Theorem HashToBucketIndex_below_Size d hash :
  0 <= global_depth_ d < 32 -> 0 <= hash ->
  exists i sz,
    HashToBucketIndex hash d = Ret i d /\ Size d = Ret sz d /\
    i = hash mod 2 ^ global_depth_ d /\ 0 <= i < sz.
Proof.
  intros Hg Hh. exists (hash mod 2 ^ global_depth_ d), (2 ^ global_depth_ d).
  split; [by apply HashToBucketIndex_Some|]. split; [by apply Size_Some|].
  split; [done|]. apply Z.mod_pos_bound. apply Z.pow_pos_nonneg; lia.
Qed.

Lemma lxor_uint32 a b :
  0 <= a < 2 ^ 32 -> 0 <= b < 2 ^ 32 -> 0 <= Z.lxor a b < 2 ^ 32.
Proof.
  intros Ha Hb. assert (H0 : 0 <= Z.lxor a b) by (apply Z.lxor_nonneg; lia).
  split; [done|].
  destruct (decide (Z.lxor a b = 0)) as [->|Hne]; [lia|].
  apply Z.log2_lt_pow2; [lia|].
  pose proof (Z.log2_lxor a b ltac:(lia) ltac:(lia)) as Hl.
  assert (Z.log2 a < 32).
  { destruct (decide (a = 0)) as [->|?]; [simpl; lia|]. apply Z.log2_lt_pow2; lia. }
  assert (Z.log2 b < 32).
  { destruct (decide (b = 0)) as [->|?]; [simpl; lia|]. apply Z.log2_lt_pow2; lia. }
  lia.
Qed.

(** X11.  [GetSplitImageIndex] of a slot with local depth [ld] between 1
    and 32 returns the index that differs from [bucket_idx] in bit
    [ld - 1] and in no other bit; on a slot with local depth 0 the shift
    count is -1 and the behaviour is undefined. *)
Theorem GetSplitImageIndex_flips_one_bit d bucket_idx ld :
  0 <= bucket_idx < 2 ^ 32 ->
  local_depths_ d !! Z.to_nat bucket_idx = Some ld ->
  (ld = 0 -> GetSplitImageIndex bucket_idx d = Fail UndefinedBehaviour) /\
  (1 <= ld <= 32 ->
   exists s, GetSplitImageIndex bucket_idx d = Ret s d /\ 0 <= s < 2 ^ 32 /\
     forall k, 0 <= k ->
       Z.testbit s k = if bool_decide (k = ld - 1) then negb (Z.testbit bucket_idx k)
                       else Z.testbit bucket_idx k).
Proof.
  intros Hi Hld. unfold GetSplitImageIndex.
  erewrite bind_Ret by (apply read_local_depth_Some; [lia|done]).
  split.
  - intros ->. reflexivity.
  - intros Hr. erewrite bind_Ret by (apply shl1_Some; lia).
    pose proof (pow2_bounds (ld - 1) ltac:(lia)) as Hp.
    pose proof (lxor_uint32 bucket_idx (2 ^ (ld - 1)) Hi ltac:(lia)) as Hx.
    eexists. split; [reflexivity|]. rewrite wrap32_id by done. split; [done|].
    intros k Hk. rewrite Z.lxor_spec, Z.pow2_bits_eqb by lia.
    case_bool_decide as Hkl.
    + subst k. rewrite Z.eqb_refl. by destruct (Z.testbit bucket_idx (ld - 1)).
    + rewrite (proj2 (Z.eqb_neq _ _)) by lia. by rewrite xorb_false_r.
Qed.

Lemma CanShrink_loop_spec n : forall i d,
  0 <= i -> i + Z.of_nat n <= Z.of_nat (length (local_depths_ d)) ->
  CanShrink_loop n i d
  = Ret (forallb (fun depth => bool_decide (depth < global_depth_ d))
           (take n (drop (Z.to_nat i) (local_depths_ d)))) d.
Proof.
  induction n as [|n IH]; intros i d Hi Hn; simpl; [done|].
  destruct (lookup_lt_is_Some_2 (local_depths_ d) (Z.to_nat i)) as [ld Hld]; [lia|].
  erewrite bind_Ret by (by apply read_local_depth_Some).
  erewrite bind_Ret by reflexivity.
  rewrite (drop_S _ _ _ Hld). simpl.
  case_bool_decide; simpl; [|done].
  rewrite IH by lia.
  by replace (Z.to_nat (i + 1)) with (S (Z.to_nat i)) by lia.
Qed.

(** X12.  [CanShrink] leaves the directory unchanged and returns true
    exactly when every local depth among the [Size()] slots in use is below
    the global depth. *)
Theorem CanShrink_iff_local_depths_below d :
  0 <= global_depth_ d < 32 ->
  2 ^ global_depth_ d <= Z.of_nat (length (local_depths_ d)) ->
  exists r, CanShrink d = Ret r d /\
    (r = true <->
     forall i ld, 0 <= i < 2 ^ global_depth_ d ->
       local_depths_ d !! Z.to_nat i = Some ld -> ld < global_depth_ d).
Proof.
  intros Hg Hl. unfold CanShrink.
  erewrite bind_Ret by (by apply Size_Some).
  pose proof (pow2_bounds _ Hg) as Hp.
  rewrite CanShrink_loop_spec by lia. eexists. split; [reflexivity|].
  simpl. rewrite drop_0, forallb_forall. split.
  - intros H i ld Hi Hld. eapply bool_decide_eq_true_1, H, list_elem_of_In.
    apply list_elem_of_lookup. exists (Z.to_nat i). rewrite lookup_take_lt by lia. done.
  - intros H ld Hin. apply bool_decide_eq_true_2.
    apply list_elem_of_In, list_elem_of_lookup in Hin as [j Hj].
    apply lookup_take_Some in Hj as [Hj Hjn].
    apply (H (Z.of_nat j)); [lia|by rewrite Nat2Z.id].
Qed.

(** X14.  [SetBucketPageId] followed by [GetBucketPageId]: the slot written
    reads back the new page id, every other slot in use reads as before,
    and depths are untouched. *)
Theorem SetBucketPageId_then_GetBucketPageId NDEBUG d i j x :
  0 <= global_depth_ d < 32 ->
  2 ^ global_depth_ d <= Z.of_nat (length (bucket_page_ids_ d)) ->
  0 <= i < 2 ^ global_depth_ d -> 0 <= j < 2 ^ global_depth_ d ->
  exists d', SetBucketPageId NDEBUG i x d = Ret tt d' /\
    global_depth_ d' = global_depth_ d /\ local_depths_ d' = local_depths_ d /\
    returned (GetBucketPageId NDEBUG j d')
    = if bool_decide (j = i) then Some x else returned (GetBucketPageId NDEBUG j d).
Proof.
  intros Hg Hl Hi Hj. unfold SetBucketPageId.
  erewrite bind_Ret by (by apply Size_Some).
  unfold assert. rewrite bool_decide_eq_true_2 by lia. simpl orb.
  erewrite bind_Ret by reflexivity.
  rewrite write_page_id_Some by lia. eexists. split; [reflexivity|].
  split; [done|]. split; [done|].
  destruct (lookup_lt_is_Some_2 (bucket_page_ids_ d) (Z.to_nat j)) as [y Hy]; [lia|].
  case_bool_decide as Hji.
  - subst j. erewrite GetBucketPageId_Some; [done|done|simpl; lia|].
    simpl. by rewrite list_lookup_insert_eq by lia.
  - erewrite (GetBucketPageId_Some _ d) by (done || lia).
    erewrite GetBucketPageId_Some; [done|done|simpl; lia|].
    simpl. by rewrite list_lookup_insert_ne by lia.
Qed.

Lemma IncrLocalDepth_Some NDEBUG d i ld :
  0 <= global_depth_ d < 32 -> 0 <= i < 2 ^ global_depth_ d ->
  local_depths_ d !! Z.to_nat i = Some ld -> 0 <= ld < 255 ->
  IncrLocalDepth NDEBUG i d
  = Ret tt (set_local_depths
              (<[Z.to_nat i := if bool_decide (ld >= max_depth_ d) then ld else ld + 1]>
                 (local_depths_ d)) d).
Proof.
  intros Hg Hi Hld Hr. unfold IncrLocalDepth.
  erewrite bind_Ret by (by apply Size_Some).
  unfold assert. rewrite bool_decide_eq_true_2 by lia. simpl orb.
  erewrite bind_Ret by reflexivity.
  erewrite bind_Ret by (apply read_local_depth_Some; [lia|done]).
  erewrite bind_Ret by reflexivity.
  assert (Hlen : (Z.to_nat i < length (local_depths_ d))%nat)
    by (by eapply lookup_lt_Some).
  case_bool_decide.
  - rewrite list_insert_id by done. by destruct d.
  - rewrite write_local_depth_Some by lia. do 3 f_equal.
    unfold wrap8. rewrite Z.mod_small; lia.
Qed.

Lemma DecrLocalDepth_Some NDEBUG d i ld :
  0 <= global_depth_ d < 32 -> 0 <= i < 2 ^ global_depth_ d ->
  local_depths_ d !! Z.to_nat i = Some ld -> 0 <= ld < 256 ->
  DecrLocalDepth NDEBUG i d
  = Ret tt (set_local_depths
              (<[Z.to_nat i := if bool_decide (ld <= 0) then ld else ld - 1]>
                 (local_depths_ d)) d).
Proof.
  intros Hg Hi Hld Hr. unfold DecrLocalDepth.
  erewrite bind_Ret by (by apply Size_Some).
  unfold assert. rewrite bool_decide_eq_true_2 by lia. simpl orb.
  erewrite bind_Ret by reflexivity.
  erewrite bind_Ret by (apply read_local_depth_Some; [lia|done]).
  assert (Hlen : (Z.to_nat i < length (local_depths_ d))%nat)
    by (by eapply lookup_lt_Some).
  case_bool_decide.
  - rewrite list_insert_id by done. by destruct d.
  - rewrite write_local_depth_Some by lia. do 3 f_equal.
    unfold wrap8. rewrite Z.mod_small; lia.
Qed.

(** X15.  [IncrLocalDepth] adds one to the local depth of the slot unless
    it has reached the maximal depth, [DecrLocalDepth] subtracts one unless
    it is zero; either way [GetLocalDepth] of the slot reads the new depth
    and no other local depth changes. *)
Theorem IncrLocalDepth_DecrLocalDepth_saturate NDEBUG d i ld :
  0 <= global_depth_ d < 32 -> 0 <= i < 2 ^ global_depth_ d ->
  local_depths_ d !! Z.to_nat i = Some ld -> 0 <= ld < 255 ->
  (exists d', IncrLocalDepth NDEBUG i d = Ret tt d' /\
     GetLocalDepth NDEBUG i d'
     = Ret (if bool_decide (ld >= max_depth_ d) then ld else ld + 1) d' /\
     forall j, j <> Z.to_nat i -> local_depths_ d' !! j = local_depths_ d !! j) /\
  (exists d', DecrLocalDepth NDEBUG i d = Ret tt d' /\
     GetLocalDepth NDEBUG i d'
     = Ret (if bool_decide (ld <= 0) then ld else ld - 1) d' /\
     forall j, j <> Z.to_nat i -> local_depths_ d' !! j = local_depths_ d !! j).
Proof.
  intros Hg Hi Hld Hr.
  assert (Hlen : (Z.to_nat i < length (local_depths_ d))%nat)
    by (by eapply lookup_lt_Some).
  split; eexists.
  - split; [by eapply IncrLocalDepth_Some|]. split.
    + apply GetLocalDepth_Some; [done..|]. simpl.
      by rewrite list_lookup_insert_eq by lia.
    + intros j Hj. simpl. by rewrite list_lookup_insert_ne by lia.
  - split; [eapply DecrLocalDepth_Some; (done || lia)|]. split.
    + apply GetLocalDepth_Some; [done..|]. simpl.
      by rewrite list_lookup_insert_eq by lia.
    + intros j Hj. simpl. by rewrite list_lookup_insert_ne by lia.
Qed.

Lemma IncrGlobalDepth_mirrors_lower_half_witness :
  let d := {| max_depth_ := 3; global_depth_ := 1;
              local_depths_ := [1; 1; 0; 0; 0; 0; 0; 0];
              bucket_page_ids_ := [2; 3; -1; -1; -1; -1; -1; -1] |} in
  exists d',
    IncrGlobalDepth d = Ret tt d' /\
    global_depth_ d' = 2 /\ max_depth_ d' = 3 /\
    (forall j : nat,
       bucket_page_ids_ d' !! j =
         if bool_decide (2 <= Z.of_nat j < 4)
         then bucket_page_ids_ d !! Z.to_nat (Z.of_nat j - 2)
         else bucket_page_ids_ d !! j) /\
    (forall j : nat,
       local_depths_ d' !! j =
         if bool_decide (2 <= Z.of_nat j < 4)
         then local_depths_ d !! Z.to_nat (Z.of_nat j - 2)
         else local_depths_ d !! j).
Proof.
  intros d. apply (IncrGlobalDepth_mirrors_lower_half d); simpl; lia.
Defined.

Lemma IncrGlobalDepth_keeps_routing_witness :
  let d := {| max_depth_ := 3; global_depth_ := 1;
              local_depths_ := [1; 1; 0; 0; 0; 0; 0; 0];
              bucket_page_ids_ := [2; 3; -1; -1; -1; -1; -1; -1] |} in
  exists d' i i' pid ld,
    IncrGlobalDepth d = Ret tt d' /\
    HashToBucketIndex 7 d = Ret i d /\
    HashToBucketIndex 7 d' = Ret i' d' /\
    GetBucketPageId false i d = Ret pid d /\
    GetBucketPageId false i' d' = Ret pid d' /\
    GetLocalDepth false i d = Ret ld d /\
    GetLocalDepth false i' d' = Ret ld d'.
Proof.
  intros d. apply (IncrGlobalDepth_keeps_routing false d 7); simpl; lia.
Defined.

Lemma HashToBucketIndex_below_Size_witness :
  let d := {| max_depth_ := 3; global_depth_ := 2;
              local_depths_ := [1; 2; 1; 2; 0; 0; 0; 0];
              bucket_page_ids_ := [2; 3; 2; 4; -1; -1; -1; -1] |} in
  exists i sz,
    HashToBucketIndex 13 d = Ret i d /\ Size d = Ret sz d /\
    i = 13 mod 2 ^ 2 /\ 0 <= i < sz.
Proof.
  intros d. apply (HashToBucketIndex_below_Size d 13); simpl; lia.
Defined.

Lemma GetSplitImageIndex_flips_one_bit_witness :
  let d := {| max_depth_ := 3; global_depth_ := 2;
              local_depths_ := [1; 2; 1; 2; 0; 0; 0; 0];
              bucket_page_ids_ := [2; 3; 2; 4; -1; -1; -1; -1] |} in
  (2 = 0 -> GetSplitImageIndex 1 d = Fail UndefinedBehaviour) /\
  (1 <= 2 <= 32 ->
   exists s, GetSplitImageIndex 1 d = Ret s d /\ 0 <= s < 2 ^ 32 /\
     forall k, 0 <= k ->
       Z.testbit s k = if bool_decide (k = 2 - 1) then negb (Z.testbit 1 k)
                       else Z.testbit 1 k).
Proof.
  intros d. apply (GetSplitImageIndex_flips_one_bit d 1 2); [lia|reflexivity].
Defined.

Lemma CanShrink_iff_local_depths_below_witness :
  let d := {| max_depth_ := 3; global_depth_ := 2;
              local_depths_ := [1; 1; 1; 1; 0; 0; 0; 0];
              bucket_page_ids_ := [2; 3; 2; 3; -1; -1; -1; -1] |} in
  exists r, CanShrink d = Ret r d /\
    (r = true <->
     forall i ld, 0 <= i < 2 ^ 2 ->
       local_depths_ d !! Z.to_nat i = Some ld -> ld < 2).
Proof.
  intros d. apply (CanShrink_iff_local_depths_below d); simpl; lia.
Defined.

Lemma SetBucketPageId_then_GetBucketPageId_witness :
  let d := {| max_depth_ := 3; global_depth_ := 2;
              local_depths_ := [1; 2; 1; 2; 0; 0; 0; 0];
              bucket_page_ids_ := [2; 3; 2; 4; -1; -1; -1; -1] |} in
  exists d', SetBucketPageId false 2 5 d = Ret tt d' /\
    global_depth_ d' = global_depth_ d /\ local_depths_ d' = local_depths_ d /\
    returned (GetBucketPageId false 2 d')
    = if bool_decide (2 = 2) then Some 5 else returned (GetBucketPageId false 2 d).
Proof.
  intros d. apply (SetBucketPageId_then_GetBucketPageId false d 2 2 5); simpl; lia.
Defined.

Lemma IncrLocalDepth_DecrLocalDepth_saturate_witness :
  let d := {| max_depth_ := 2; global_depth_ := 2;
              local_depths_ := [1; 2; 1; 2; 0; 0; 0; 0];
              bucket_page_ids_ := [2; 3; 2; 4; -1; -1; -1; -1] |} in
  (exists d', IncrLocalDepth false 1 d = Ret tt d' /\
     GetLocalDepth false 1 d'
     = Ret (if bool_decide (2 >= max_depth_ d) then 2 else 2 + 1) d' /\
     forall j, j <> Z.to_nat 1 -> local_depths_ d' !! j = local_depths_ d !! j) /\
  (exists d', DecrLocalDepth false 1 d = Ret tt d' /\
     GetLocalDepth false 1 d'
     = Ret (if bool_decide (2 <= 0) then 2 else 2 - 1) d' /\
     forall j, j <> Z.to_nat 1 -> local_depths_ d' !! j = local_depths_ d !! j).
Proof.
  intros d. apply (IncrLocalDepth_DecrLocalDepth_saturate false d 1 2);
    [simpl; lia|simpl; lia|reflexivity|lia].
Defined.
End DirectoryPageProperties.

(** ** LRU-K replacer: list placement and eviction *)

Module LRUKReplacerProperties.
Import LRUKNode LRUKReplacer LRUKReplacerFacts.

Lemma placed_run_inv cs : forall b s s',
  placed b s -> 0 <= b -> b + Z.of_nat (length cs) < 2 ^ 64 ->
  run cs s = Some s' -> placed (b + Z.of_nat (length cs)) s'.
Proof.
  intros b s s' Hp Hb0 Hb Hrun. apply run_Some in Hrun.
  destruct (placed_play cs false b s Hp Hb0 Hb) as [(s1 & Hs1 & Hp1)|Hblocked];
    rewrite Hrun in *; [|done].
  by inversion Hs1; subst.
Qed.

(** X16.  With [k >= 2] no sequence of calls on a new replacer reaches
    undefined behaviour: it runs to its end, or it stops at a call made
    while an earlier call has left the latch locked.  The state a sequence
    ends in has consistent lists: no frame is listed twice, an untracked
    frame is in neither list, and a tracked frame is in the history list
    when it has fewer than [k] recorded accesses and in the cache list
    otherwise, its iterator pointing into that list. *)
Theorem run_keeps_frames_placed (num_frames k : Z) (cs : list call) :
  2 <= k -> Z.of_nat (length cs) < 2 ^ 64 ->
  (exists s, play false cs (LRUKReplacer.new num_frames k) = Ret tt s /\
             run cs (LRUKReplacer.new num_frames k) = Some s /\
             placed (Z.of_nat (length cs)) s)
  \/ (play false cs (LRUKReplacer.new num_frames k) = Fail Blocked /\
      run cs (LRUKReplacer.new num_frames k) = None).
Proof.
  intros Hk Hlen.
  destruct (placed_play cs false 0 (LRUKReplacer.new num_frames k))
    as [(s & Hs & Hp)|Hblocked]; [by apply placed_new|lia|lia| |].
  - left. exists s. split; [done|]. split; [by apply run_Some|done].
  - right. split; [done|]. unfold run. by rewrite Hblocked.
Qed.

Lemma evictable_count_zero ns :
  evictable_count ns = 0%nat <-> forall f, evictable ns f = false.
Proof.
  unfold evictable_count. rewrite map_size_empty_iff, map_empty. split.
  - intros H f. specialize (H f). unfold evictable.
    destruct (ns !! f) as [n|] eqn:E; [|done].
    destruct (is_evictable_ n) eqn:En; [|done].
    assert (filter (fun kv : Z * LRUKNode.t => is_evictable_ kv.2 = true) ns !! f = Some n)
      as Hf by (by apply map_lookup_filter_Some).
    congruence.
  - intros H f. apply eq_None_not_Some. intros [n Hn].
    apply map_lookup_filter_Some in Hn as [Hn He]. simpl in He.
    specialize (H f). unfold evictable in H. rewrite Hn in H. congruence.
Qed.

Lemma Evict_none_iff b s :
  placed b s -> counted s ->
  ((Evict s).1 = None <-> Size s = 0) /\ ((Evict s).1 = None -> (Evict s).2 = s).
Proof.
  intros Hp Hc. destruct (Evict_cases s) as (ns2 & _ & _ & Hid & Hcases).
  rewrite (Hid (placed_tracked_listed b s Hp)) in Hcases. clear Hid.
  unfold Size. rewrite (counted_size s Hc).
  assert (Hpos : forall f, evictable (node_store_ s) f = true ->
                           Z.of_nat (evictable_count (node_store_ s)) <> 0).
  { intros f Hf H0. assert (evictable_count (node_store_ s) = 0%nat) as H by lia.
    rewrite evictable_count_zero in H. specialize (H f). congruence. }
  destruct Hcases as [(f & l1 & l2 & _ & _ & Hf & ->)
                     |[(f & l1 & l2 & _ & _ & _ & Hf & ->)|[Hq ->]]]; simpl.
  - split; [split; [done|]|done]. intros H0. by apply Hpos in Hf.
  - split; [split; [done|]|done]. intros H0. by apply Hpos in Hf.
  - split; [|by destruct s]. split; [|done]. intros _.
    assert (evictable_count (node_store_ s) = 0%nat) as ->; [|done].
    apply evictable_count_zero. intros f. pose proof (placed_nodes b s Hp f) as Hn.
    rewrite Forall_forall in Hq. unfold evictable in *.
    destruct (node_store_ s !! f) as [n|] eqn:E; [|done].
    destruct Hn as [_ Hn]. specialize (Hq f). rewrite E in Hq. apply Hq.
    destruct (bool_decide (LRUKNode.k_ n < k_ s)); destruct Hn; set_solver.
Qed.

(** X17.  In every state a new replacer with [k >= 2] reaches, [Evict]
    finds no victim exactly when [Size()] is 0, and a call that finds no
    victim leaves the replacer unchanged. *)
Theorem Evict_fails_iff_Size_zero (num_frames k : Z) (cs : list call) s :
  Forall call_frame_ok cs -> 2 <= k -> Z.of_nat (length cs) < 2 ^ 64 ->
  run cs (LRUKReplacer.new num_frames k) = Some s ->
  ((Evict s).1 = None <-> Size s = 0) /\ ((Evict s).1 = None -> (Evict s).2 = s).
Proof.
  intros Hok Hk Hlen Hrun.
  apply (Evict_none_iff (0 + Z.of_nat (length cs))).
  - apply (placed_run_inv cs 0 (LRUKReplacer.new num_frames k) s);
      [by apply placed_new|lia|lia|done].
  - eapply counted_run; [done| |done]. apply counted_new.
Qed.

Lemma remove_first_notin f l : f ∉ l -> remove_first f l = l.
Proof.
  induction l as [|x l IH]; intros Hf; [done|]. simpl.
  rewrite bool_decide_eq_false_2 by set_solver. f_equal. apply IH. set_solver.
Qed.

Lemma placed_in_one_list b s f n :
  placed b s -> node_store_ s !! f = Some n ->
  if bool_decide (LRUKNode.k_ n < k_ s)
  then pos_ n = Some Hist /\ f ∈ hist_list_ s /\ f ∉ cache_list_ s
  else pos_ n = Some Cache /\ f ∈ cache_list_ s /\ f ∉ hist_list_ s.
Proof.
  intros Hp Hn. pose proof (placed_nodes b s Hp f) as Hf. rewrite Hn in Hf.
  destruct Hf as [_ Hf]. pose proof (placed_nodup b s Hp) as Hnd.
  apply NoDup_app in Hnd as (_ & Hdis & _).
  destruct (bool_decide (LRUKNode.k_ n < k_ s)); destruct Hf as [? Hin];
    (split; [done|]); (split; [done|]); intros Hin'; by eapply Hdis.
Qed.

(** X18.  [Remove] of a tracked frame of a consistent replacer: a frame
    that is not evictable makes it throw [std::logic_error] with the state
    untouched; an evictable frame is unlinked from the list it is in and
    dropped from the node store, the size goes down by one, and the nodes
    and the order of the other frames are as before. *)
Theorem Remove_tracked_frame b s f n :
  placed b s -> node_store_ s !! f = Some n ->
  (is_evictable_ n = false -> Remove f s = Throw logic_error s) /\
  (is_evictable_ n = true ->
   exists s', Remove f s = Ret tt s' /\
     node_store_ s' = delete f (node_store_ s) /\
     hist_list_ s' = remove_first f (hist_list_ s) /\
     cache_list_ s' = remove_first f (cache_list_ s) /\
     (f ∉ hist_list_ s' ++ cache_list_ s') /\
     curr_size_ s' = wrap64 (curr_size_ s - 1) /\
     placed b s').
Proof.
  intros Hp Hn. unfold Remove. rewrite Hn. split; [by intros ->|]. intros ->. simpl.
  pose proof (placed_in_one_list b s f n Hp Hn) as Hone.
  pose proof (placed_nodup b s Hp) as Hnd.
  unfold erase. case_bool_decide as Hlt; destruct Hone as (-> & Hin & Hout); simpl;
    rewrite (bool_decide_eq_true_2 _ Hin); simpl;
    (eexists; split; [reflexivity|]); simpl;
    rewrite (remove_first_notin f _ Hout);
    destruct (remove_first_decompose f _ Hin) as (l1 & l2 & El & Er);
    (split; [done|]); (split; [done|]); (split; [done|]).
  - rewrite El, <- app_assoc in Hnd. simpl in Hnd.
    apply NoDup_middle in Hnd as [Hf _]. rewrite Er.
    split; [by rewrite <- app_assoc|]. split; [done|].
    apply (placed_drop b s f); [done|]. left. by exists l1, l2.
  - rewrite El, app_assoc in Hnd.
    apply NoDup_middle in Hnd as [Hf _]. rewrite Er.
    split; [by rewrite app_assoc|]. split; [done|].
    apply (placed_drop b s f); [done|]. right. by exists l1, l2.
Qed.

Lemma RecordAccess_placed b s f :
  placed b s -> 0 <= b -> b + 1 < 2 ^ 64 -> invalid_frame s f = false ->
  let c := access_count (node_store_ s) f in
  exists s' n',
    RecordAccess f s = Ret tt s' /\
    replacer_size_ s' = replacer_size_ s /\
    curr_size_ s' = curr_size_ s /\
    node_store_ s' !! f = Some n' /\
    LRUKNode.k_ n' = c + 1 /\
    is_evictable_ n' = evictable (node_store_ s) f /\
    (forall g, g <> f -> node_store_ s' !! g = node_store_ s !! g) /\
    hist_list_ s' =
      (if bool_decide (c + 1 < k_ s)
       then if bool_decide (c = 0) then f :: hist_list_ s else hist_list_ s
       else remove_first f (hist_list_ s)) /\
    cache_list_ s' =
      (if bool_decide (c + 1 < k_ s) then cache_list_ s
       else f :: remove_first f (cache_list_ s)).
Proof.
  intros Hp Hb0 Hb Hv c. subst c. unfold RecordAccess, access_count, evictable.
  rewrite Hv. pose proof (placed_k b s Hp) as Hk. unfold subscript.
  destruct (node_store_ s !! f) as [n|] eqn:En.
  - pose proof (placed_in_one_list b s f n Hp En) as Hone.
    pose proof (placed_nodes b s Hp f) as Hf. rewrite En in Hf. destruct Hf as [Hc _].
    rewrite (wrap64_small (LRUKNode.k_ n + 1)) by lia.
    rewrite (bool_decide_eq_false_2 (LRUKNode.k_ n + 1 = 1)) by lia.
    rewrite (bool_decide_eq_false_2 (LRUKNode.k_ n = 0)) by lia.
    cbn [k_ hist_list_ cache_list_ node_store_ set_node_store].
    unfold erase.
    destruct (bool_decide (LRUKNode.k_ n < k_ s)) eqn:Hlt;
      destruct Hone as (-> & Hin & Hout).
    + apply bool_decide_eq_true in Hlt. case_bool_decide as Hk1.
      * simpl. rewrite (bool_decide_eq_true_2 _ Hin). simpl.
        rewrite bool_decide_eq_false_2 by lia.
        rewrite (remove_first_notin f _ Hout).
        eexists _, _. split; [reflexivity|]. unfold set_node. simpl.
        rewrite lookup_insert_eq. repeat split; try done.
        intros g Hg. by rewrite lookup_insert_ne.
      * rewrite (bool_decide_eq_false_2 (LRUKNode.k_ n + 1 > k_ s)) by lia.
        rewrite bool_decide_eq_true_2 by lia.
        eexists _, _. split; [reflexivity|]. unfold set_node. simpl.
        rewrite lookup_insert_eq. repeat split; try done.
        intros g Hg. by rewrite lookup_insert_ne.
    + apply bool_decide_eq_false in Hlt.
      rewrite (bool_decide_eq_false_2 (LRUKNode.k_ n + 1 = k_ s)) by lia.
      rewrite (bool_decide_eq_true_2 (LRUKNode.k_ n + 1 > k_ s)) by lia.
      simpl. rewrite (bool_decide_eq_true_2 _ Hin). simpl.
      rewrite bool_decide_eq_false_2 by lia.
      rewrite (remove_first_notin f _ Hout).
      eexists _, _. split; [reflexivity|]. unfold set_node. simpl.
      rewrite lookup_insert_eq. repeat split; try done.
      intros g Hg. by rewrite lookup_insert_ne.
  - simpl. change (wrap64 (0 + 1)) with 1. simpl.
    rewrite bool_decide_eq_true_2 by lia.
    eexists _, _. split; [reflexivity|]. unfold set_node. simpl.
    rewrite lookup_insert_eq. repeat split; try done.
    intros g Hg. by rewrite !lookup_insert_ne.
Qed.

(** X19.  [RecordAccess] of a valid frame on a consistent replacer returns
    and changes neither the size nor any other frame's node.  With [c]
    accesses recorded before, the frame's counter becomes [c + 1] and its
    evictable flag is kept; while [c + 1 < k] the lists are as before,
    except that a first access puts the frame at the front of the history
    list; from the [k]-th access on the frame is unlinked and put at the
    front of the cache list. *)
Theorem RecordAccess_moves_frame b s f :
  placed b s -> 0 <= b -> b + 1 < 2 ^ 64 -> invalid_frame s f = false ->
  let c := access_count (node_store_ s) f in
  exists s' n',
    RecordAccess f s = Ret tt s' /\
    curr_size_ s' = curr_size_ s /\
    node_store_ s' !! f = Some n' /\
    LRUKNode.k_ n' = c + 1 /\
    is_evictable_ n' = evictable (node_store_ s) f /\
    (forall g, g <> f -> node_store_ s' !! g = node_store_ s !! g) /\
    hist_list_ s' =
      (if bool_decide (c + 1 < k_ s)
       then if bool_decide (c = 0) then f :: hist_list_ s else hist_list_ s
       else remove_first f (hist_list_ s)) /\
    cache_list_ s' =
      (if bool_decide (c + 1 < k_ s) then cache_list_ s
       else f :: remove_first f (cache_list_ s)).
Proof.
  intros Hp Hb0 Hb Hv c.
  destruct (RecordAccess_placed b s f Hp Hb0 Hb Hv) as (s' & n' & H1 & _ & H2).
  by exists s', n'.
Qed.

Lemma run_keeps_frames_placed_witness :
  let cs := [CRecordAccess 1; CRecordAccess 2; CSetEvictable 1 true;
             CRecordAccess 1; CEvict; CRemove 2] in
  (exists s, run cs (LRUKReplacer.new 7 2) = Some s /\ hist_list_ s = [2]) /\
  ((exists s, play false cs (LRUKReplacer.new 7 2) = Ret tt s /\
              run cs (LRUKReplacer.new 7 2) = Some s /\
              placed (Z.of_nat (length cs)) s)
   \/ (play false cs (LRUKReplacer.new 7 2) = Fail Blocked /\
       run cs (LRUKReplacer.new 7 2) = None)).
Proof.
  intros cs. split; [eexists; split; [vm_compute; reflexivity|reflexivity]|].
  apply (run_keeps_frames_placed 7 2 cs); [lia|vm_compute; reflexivity].
Defined.

Lemma Evict_fails_iff_Size_zero_witness :
  let cs := [CRecordAccess 1; CRecordAccess 2; CSetEvictable 1 true; CEvict] in
  exists s,
    run cs (LRUKReplacer.new 7 2) = Some s /\
    ((Evict s).1 = None <-> Size s = 0) /\ ((Evict s).1 = None -> (Evict s).2 = s).
Proof.
  intros cs. eexists. split; [vm_compute; reflexivity|].
  apply (Evict_fails_iff_Size_zero 7 2 cs).
  - repeat constructor; unfold is_int; lia.
  - lia.
  - vm_compute; reflexivity.
  - vm_compute; reflexivity.
Defined.

Lemma Remove_tracked_frame_witness :
  let cs := [CRecordAccess 1; CRecordAccess 2; CSetEvictable 1 true] in
  exists s n,
    run cs (LRUKReplacer.new 7 2) = Some s /\
    node_store_ s !! 1 = Some n /\
    (is_evictable_ n = false -> Remove 1 s = Throw logic_error s) /\
    (is_evictable_ n = true ->
     exists s', Remove 1 s = Ret tt s' /\
       node_store_ s' = delete 1 (node_store_ s) /\
       hist_list_ s' = remove_first 1 (hist_list_ s) /\
       cache_list_ s' = remove_first 1 (cache_list_ s) /\
       (1 ∉ hist_list_ s' ++ cache_list_ s') /\
       curr_size_ s' = wrap64 (curr_size_ s - 1) /\
       placed 3 s').
Proof.
  intros cs. eexists _, _. split; [vm_compute; reflexivity|].
  split; [vm_compute; reflexivity|].
  apply (Remove_tracked_frame 3).
  - apply (placed_run_inv cs 0 (LRUKReplacer.new 7 2));
      [apply placed_new; lia|lia|vm_compute; reflexivity|vm_compute; reflexivity].
  - vm_compute; reflexivity.
Defined.

Lemma RecordAccess_moves_frame_witness :
  let cs := [CRecordAccess 1; CRecordAccess 2; CSetEvictable 1 true] in
  exists s,
    run cs (LRUKReplacer.new 7 2) = Some s /\
    exists s' n',
      RecordAccess 1 s = Ret tt s' /\
      curr_size_ s' = curr_size_ s /\
      node_store_ s' !! 1 = Some n' /\
      LRUKNode.k_ n' = access_count (node_store_ s) 1 + 1 /\
      is_evictable_ n' = evictable (node_store_ s) 1 /\
      (forall g, g <> 1 -> node_store_ s' !! g = node_store_ s !! g) /\
      hist_list_ s' =
        (if bool_decide (access_count (node_store_ s) 1 + 1 < k_ s)
         then if bool_decide (access_count (node_store_ s) 1 = 0)
              then 1 :: hist_list_ s else hist_list_ s
         else remove_first 1 (hist_list_ s)) /\
      cache_list_ s' =
        (if bool_decide (access_count (node_store_ s) 1 + 1 < k_ s) then cache_list_ s
         else 1 :: remove_first 1 (cache_list_ s)).
Proof.
  intros cs. eexists. split; [vm_compute; reflexivity|].
  apply (RecordAccess_moves_frame 3).
  - apply (placed_run_inv cs 0 (LRUKReplacer.new 7 2));
      [apply placed_new; lia|lia|vm_compute; reflexivity|vm_compute; reflexivity].
  - lia.
  - vm_compute; reflexivity.
  - vm_compute; reflexivity.
Defined.
End LRUKReplacerProperties.

(** ** Buffer pool manager: page installation, deletion and flushing *)

Module BufferPoolManagerProperties.
Import BufferPoolManager BufferPoolManagerFacts.

(** Admitting an untracked frame: [RecordAccess] followed by
    [SetEvictable(frame, false)]. *)
Lemma replacer_admits_frame (r : LRUKReplacer.t) f :
  LRUKReplacer.node_store_ r !! f = None -> LRUKReplacer.invalid_frame r f = false ->
  exists r1,
    LRUKReplacer.RecordAccess f r = Ret tt r1 /\
    LRUKReplacer.SetEvictable f false r1
    = Ret tt {| LRUKReplacer.node_store_ :=
                  <[f := LRUKNode.mk 1 false (Some LRUKNode.Hist)]>
                    (LRUKReplacer.node_store_ r);
                LRUKReplacer.hist_list_ := f :: LRUKReplacer.hist_list_ r;
                LRUKReplacer.cache_list_ := LRUKReplacer.cache_list_ r;
                LRUKReplacer.curr_size_ := LRUKReplacer.curr_size_ r;
                LRUKReplacer.replacer_size_ := LRUKReplacer.replacer_size_ r;
                LRUKReplacer.k_ := LRUKReplacer.k_ r |}.
Proof.
  intros Hn Hv. unfold LRUKReplacer.RecordAccess. rewrite Hv.
  unfold LRUKReplacer.subscript. rewrite Hn. simpl.
  change (wrap64 (0 + 1)) with 1. simpl.
  eexists. split; [reflexivity|].
  unfold LRUKReplacer.SetEvictable, LRUKReplacer.invalid_frame in *. simpl.
  rewrite Hv. rewrite lookup_insert_eq. simpl.
  unfold LRUKReplacer.set_node. simpl. by rewrite !insert_insert_eq.
Qed.

Section Props.
Context {Data : Type} (zeroed : Data).
Implicit Types b : BufferPoolManager.t Data.

Lemma with_replacer_Ret {A} (m : M LRUKReplacer.t A) b a r :
  m (replacer_ b) = Ret a r -> with_replacer m b = Ret a (set_replacer r b).
Proof. intros H. unfold with_replacer, zoom. by rewrite H. Qed.

Lemma obtain_frame_frame b r b1 :
  obtain_frame b = Ret r b1 ->
  pages_ b1 = pages_ b /\ page_table_ b1 = page_table_ b /\ disk_ b1 = disk_ b /\
  next_page_id_ b1 = next_page_id_ b /\ pool_size_ b1 = pool_size_ b.
Proof.
  unfold obtain_frame. destruct (free_list_ b).
  - destruct (LRUKReplacer.Evict (replacer_ b)). by intros [= <- <-].
  - by intros [= <- <-].
Qed.

Lemma set_disk_id b : set_disk (disk_ b) b = b.
Proof. by destruct b. Qed.

(** Writing a dirty frame back: the frame ends up clean, and the disk holds
    its contents if it was dirty. *)
Lemma write_back_spec b frame_id page :
  0 <= frame_id -> pages_ b !! Z.to_nat frame_id = Some page ->
  write_back frame_id b
  = Ret tt (set_pages (<[Z.to_nat frame_id := Page.set_is_dirty false page]> (pages_ b))
              (set_disk (if Page.is_dirty_ page
                         then <[Page.page_id_ page := Page.data_ page]> (disk_ b)
                         else disk_ b) b)).
Proof.
  intros H0 Hp. unfold write_back.
  erewrite bind_Ret by (by apply page_at_Some).
  destruct (Page.is_dirty_ page) eqn:Ed.
  - erewrite bind_Ret by reflexivity.
    by rewrite (update_page_Some _ _ page) by done.
  - unfold ret. f_equal. rewrite set_disk_id.
    assert (Page.set_is_dirty false page = page) as ->.
    { destruct page; simpl in *; by subst. }
    by rewrite list_insert_id, set_pages_id.
Qed.

(** X20.  [NewPage], once a frame has been obtained from the free list or
    from the replacer: the page id returned is the next id of the
    allocator, the frame is zeroed and holds that id with pin count 1 and a
    clean flag, its old contents are on disk if the frame was dirty, the
    page table drops the frame's old page id and gains the new one (an
    existing mapping of the new id is kept), and the replacer tracks the
    frame as not evictable. *)
Theorem NewPage_installs_page b frame_id b1 page :
  obtain_frame b = Ret (Some frame_id) b1 ->
  0 <= frame_id -> pages_ b !! Z.to_nat frame_id = Some page ->
  LRUKReplacer.node_store_ (replacer_ b1) !! frame_id = None ->
  LRUKReplacer.invalid_frame (replacer_ b1) frame_id = false ->
  exists b',
    NewPage zeroed b = Ret (Some (next_page_id_ b, frame_id)) b' /\
    pages_ b'
    = <[Z.to_nat frame_id := Page.mk zeroed (next_page_id_ b) 1 false]> (pages_ b) /\
    page_table_ b'
    = emplace (next_page_id_ b) frame_id (delete (Page.page_id_ page) (page_table_ b)) /\
    disk_ b' = (if Page.is_dirty_ page
                then <[Page.page_id_ page := Page.data_ page]> (disk_ b)
                else disk_ b) /\
    next_page_id_ b' = to_int (next_page_id_ b + 1) /\
    free_list_ b' = free_list_ b1 /\
    LRUKReplacer.node_store_ (replacer_ b') !! frame_id
    = Some (LRUKNode.mk 1 false (Some LRUKNode.Hist)).
Proof.
  intros Hobt H0 Hp Hn Hv.
  destruct (obtain_frame_frame b _ b1 Hobt) as (Epages & Ept & Edisk & Enext & _).
  assert (Hlen : (Z.to_nat frame_id < length (pages_ b))%nat)
    by (by eapply lookup_lt_Some).
  unfold NewPage. erewrite bind_Ret by exact Hobt. cbv beta iota.
  erewrite bind_Ret by (apply (write_back_spec b1 frame_id page); [done|by rewrite Epages]).
  erewrite bind_Ret by reflexivity.
  erewrite bind_Ret
    by (apply page_at_Some; [done|]; simpl; apply list_lookup_insert_eq; by rewrite Epages).
  erewrite bind_Ret by reflexivity. erewrite bind_Ret by reflexivity.
  erewrite bind_Ret
    by (apply update_page_Some; [done|]; simpl; apply list_lookup_insert_eq;
        by rewrite Epages).
  destruct (replacer_admits_frame (replacer_ b1) frame_id Hn Hv) as (r1 & H1 & H2).
  erewrite bind_Ret by (apply with_replacer_Ret; exact H1).
  erewrite bind_Ret by (apply with_replacer_Ret; exact H2).
  eexists. split; [simpl; rewrite Enext; reflexivity|]. simpl.
  rewrite list_insert_insert_eq, Epages, Ept, Edisk, ?Enext, lookup_insert_eq. done.
Qed.

(** X21.  [FetchPage] of a page that is not resident, once a frame has
    been obtained: the frame's old contents are on disk if it was dirty,
    the frame then holds the requested page id with the contents read from
    disk (zeroes for a block never written), pin count 1 and a clean flag,
    the page table drops the frame's old page id and gains the requested
    one, and the replacer tracks the frame as not evictable. *)
Theorem FetchPage_miss_loads_from_disk b page_id frame_id b1 page :
  page_id <> INVALID_PAGE_ID -> page_table_ b !! page_id = None ->
  obtain_frame b = Ret (Some frame_id) b1 ->
  0 <= frame_id -> pages_ b !! Z.to_nat frame_id = Some page ->
  LRUKReplacer.node_store_ (replacer_ b1) !! frame_id = None ->
  LRUKReplacer.invalid_frame (replacer_ b1) frame_id = false ->
  exists b',
    FetchPage zeroed page_id b = Ret (Some frame_id) b' /\
    disk_ b' = (if Page.is_dirty_ page
                then <[Page.page_id_ page := Page.data_ page]> (disk_ b)
                else disk_ b) /\
    pages_ b'
    = <[Z.to_nat frame_id :=
          Page.mk (default zeroed (disk_ b' !! page_id)) page_id 1 false]> (pages_ b) /\
    page_table_ b' = <[page_id := frame_id]> (delete (Page.page_id_ page) (page_table_ b)) /\
    next_page_id_ b' = next_page_id_ b /\
    free_list_ b' = free_list_ b1 /\
    LRUKReplacer.node_store_ (replacer_ b') !! frame_id
    = Some (LRUKNode.mk 1 false (Some LRUKNode.Hist)).
Proof.
  intros Hvalid Hmiss Hobt H0 Hp Hn Hv.
  destruct (obtain_frame_frame b _ b1 Hobt) as (Epages & Ept & Edisk & Enext & _).
  assert (Hlen : (Z.to_nat frame_id < length (pages_ b))%nat)
    by (by eapply lookup_lt_Some).
  unfold FetchPage. rewrite bool_decide_eq_false_2 by done.
  erewrite bind_Ret by reflexivity. rewrite Hmiss. cbv beta iota.
  erewrite bind_Ret by exact Hobt. cbv beta iota.
  erewrite bind_Ret by (apply (write_back_spec b1 frame_id page); [done|by rewrite Epages]).
  erewrite bind_Ret
    by (apply page_at_Some; [done|]; simpl; apply list_lookup_insert_eq; by rewrite Epages).
  erewrite bind_Ret by reflexivity. erewrite bind_Ret by reflexivity.
  erewrite bind_Ret
    by (apply update_page_Some; [done|]; simpl; apply list_lookup_insert_eq;
        by rewrite Epages).
  destruct (replacer_admits_frame (replacer_ b1) frame_id Hn Hv) as (r1 & H1 & H2).
  erewrite bind_Ret by (apply with_replacer_Ret; exact H1).
  erewrite bind_Ret by (apply with_replacer_Ret; exact H2).
  erewrite bind_Ret by reflexivity.
  erewrite bind_Ret
    by (apply update_page_Some; [done|]; simpl; apply list_lookup_insert_eq;
        by rewrite length_insert, Epages).
  eexists. split; [reflexivity|]. simpl.
  rewrite !list_insert_insert_eq, Epages, Ept, Edisk, Enext, lookup_insert_eq.
  unfold emplace.
  assert (delete (Page.page_id_ page) (page_table_ b) !! page_id = None) as ->
    by (apply lookup_delete_None; by right).
  done.
Qed.

Lemma FetchPage_hit bound b page_id frame_id page :
  page_id <> INVALID_PAGE_ID -> page_table_ b !! page_id = Some frame_id ->
  0 <= frame_id -> pages_ b !! Z.to_nat frame_id = Some page ->
  - 2 ^ 31 <= Page.pin_count_ page + 1 < 2 ^ 31 ->
  LRUKReplacer.placed bound (replacer_ b) -> 0 <= bound -> bound + 1 < 2 ^ 64 ->
  LRUKReplacer.invalid_frame (replacer_ b) frame_id = false ->
  exists r n,
    FetchPage zeroed page_id b
    = Ret (Some frame_id)
        (set_pages (<[Z.to_nat frame_id :=
                        Page.set_pin_count (Page.pin_count_ page + 1) page]> (pages_ b))
           (set_replacer r b)) /\
    LRUKReplacer.node_store_ r !! frame_id = Some n /\
    LRUKNode.k_ n
    = LRUKReplacer.access_count (LRUKReplacer.node_store_ (replacer_ b)) frame_id + 1 /\
    LRUKNode.is_evictable_ n = false /\
    LRUKReplacer.replacer_size_ r = LRUKReplacer.replacer_size_ (replacer_ b) /\
    LRUKReplacer.placed (bound + 1) r.
Proof.
  intros Hvalid Hres H0 Hp Hpin Hpl Hb0 Hb Hv.
  unfold FetchPage. rewrite bool_decide_eq_false_2 by done.
  erewrite bind_Ret by reflexivity. rewrite Hres. cbv beta iota.
  erewrite bind_Ret by (by apply page_at_Some).
  destruct (LRUKReplacerProperties.RecordAccess_placed bound (replacer_ b) frame_id
              Hpl Hb0 Hb Hv) as (r1 & n1 & Hr1 & Esz & _ & Hn1 & Hk1 & _).
  destruct (LRUKReplacerFacts.placed_RecordAccess bound (replacer_ b) frame_id
              Hpl Hb0 Hb) as (r1' & [Hr1'|[e Hr1']] & Hpl1); rewrite Hr1 in Hr1';
    [|done]. inversion Hr1'; subst r1'. clear Hr1'.
  erewrite bind_Ret by (apply with_replacer_Ret; exact Hr1).
  assert (Hv1 : LRUKReplacer.invalid_frame r1 frame_id = false).
  { unfold LRUKReplacer.invalid_frame in *. by rewrite Esz. }
  destruct (LRUKReplacerFacts.placed_SetEvictable (bound + 1) r1 frame_id false Hpl1)
    as (r2 & Hr2 & Hpl2).
  assert (Hr2' : LRUKReplacer.SetEvictable frame_id false r1 = Ret tt r2 /\
                 LRUKReplacer.node_store_ r2 !! frame_id
                 = Some (LRUKNode.mk (LRUKNode.k_ n1) false (LRUKNode.pos_ n1)) /\
                 LRUKReplacer.replacer_size_ r2 = LRUKReplacer.replacer_size_ r1).
  { unfold LRUKReplacer.SetEvictable in *. rewrite Hv1, Hn1 in *.
    destruct Hr2 as [Hr2|[e Hr2]]; [|done]. inversion Hr2; subst r2. clear Hr2.
    split; [done|]. simpl. by rewrite lookup_insert_eq. }
  destruct Hr2' as (Hr2' & Hn2 & Esz2).
  erewrite bind_Ret by (apply with_replacer_Ret; exact Hr2').
  unfold int_arith. rewrite bool_decide_eq_true_2 by done.
  erewrite bind_Ret by reflexivity.
  erewrite bind_Ret by (by apply update_page_Some).
  exists r2, (LRUKNode.mk (LRUKNode.k_ n1) false (LRUKNode.pos_ n1)).
  split; [reflexivity|]. split; [done|]. split; [done|]. split; [done|].
  split; [by rewrite Esz2|done].
Qed.

(** X22.  [FetchPage] of a resident page, the replacer being consistent:
    it returns the page's frame with the pin count raised by one, the
    replacer records the access and holds the frame as not evictable, and
    page table, free list, disk and the other frames are untouched. *)
Theorem FetchPage_hit_pins_frame bound b page_id frame_id page :
  page_id <> INVALID_PAGE_ID -> page_table_ b !! page_id = Some frame_id ->
  0 <= frame_id -> pages_ b !! Z.to_nat frame_id = Some page ->
  - 2 ^ 31 <= Page.pin_count_ page + 1 < 2 ^ 31 ->
  LRUKReplacer.placed bound (replacer_ b) -> 0 <= bound -> bound + 1 < 2 ^ 64 ->
  LRUKReplacer.invalid_frame (replacer_ b) frame_id = false ->
  exists b',
    FetchPage zeroed page_id b = Ret (Some frame_id) b' /\
    pages_ b'
    = <[Z.to_nat frame_id := Page.set_pin_count (Page.pin_count_ page + 1) page]>
        (pages_ b) /\
    page_table_ b' = page_table_ b /\ free_list_ b' = free_list_ b /\
    disk_ b' = disk_ b /\ next_page_id_ b' = next_page_id_ b /\
    LRUKReplacer.access_count (LRUKReplacer.node_store_ (replacer_ b')) frame_id
    = LRUKReplacer.access_count (LRUKReplacer.node_store_ (replacer_ b)) frame_id + 1 /\
    LRUKReplacer.evictable (LRUKReplacer.node_store_ (replacer_ b')) frame_id = false /\
    LRUKReplacer.placed (bound + 1) (replacer_ b').
Proof.
  intros Hvalid Hres H0 Hp Hpin Hpl Hb0 Hb Hv.
  destruct (FetchPage_hit bound b page_id frame_id page)
    as (r & n & Hrun & Hn & Hk & He & _ & Hpl'); [done..|].
  eexists. split; [exact Hrun|]. simpl.
  unfold LRUKReplacer.access_count at 1, LRUKReplacer.evictable. rewrite Hn.
  by rewrite Hk, He.
Qed.

(** X23.  [DeletePage] of a page id other than INVALID: true with the pool
    unchanged when the page is not resident; false with the pool unchanged
    when it is resident and pinned; otherwise the mapping is erased and the
    frame appended to the free list before the replacer's [Remove] is
    called, so an exception thrown by [Remove] leaves the pool in that
    state, and a [Remove] that returns is followed by the reset of the
    frame. *)
Theorem DeletePage_spec b page_id :
  page_id <> INVALID_PAGE_ID ->
  (page_table_ b !! page_id = None -> DeletePage zeroed page_id b = Ret true b) /\
  (forall frame_id page,
     page_table_ b !! page_id = Some frame_id ->
     0 <= frame_id -> pages_ b !! Z.to_nat frame_id = Some page ->
     (Page.pin_count_ page > 0 -> DeletePage zeroed page_id b = Ret false b) /\
     (Page.pin_count_ page <= 0 ->
      let unlinked :=
        set_free_list (free_list_ b ++ [frame_id])
          (set_page_table (delete page_id (page_table_ b)) b) in
      DeletePage zeroed page_id b =
        match LRUKReplacer.Remove frame_id (replacer_ b) with
        | Ret _ r =>
            Ret true (set_pages (<[Z.to_nat frame_id := fresh_page zeroed]> (pages_ b))
                        (set_replacer r unlinked))
        | Throw e r => Throw e (set_replacer r unlinked)
        | Fail x => Fail x
        end)).
Proof.
  intros Hvalid. unfold DeletePage. rewrite bool_decide_eq_false_2 by done.
  split.
  - intros Hmiss. erewrite bind_Ret by reflexivity. by rewrite Hmiss.
  - intros frame_id page Hres H0 Hp.
    erewrite bind_Ret by reflexivity. rewrite Hres. cbv beta iota.
    erewrite bind_Ret by (by apply page_at_Some). split.
    + intros Hpin. by rewrite bool_decide_eq_true_2.
    + intros Hpin. rewrite bool_decide_eq_false_2 by lia.
      erewrite bind_Ret by reflexivity. erewrite bind_Ret by reflexivity.
      unfold bind at 1, with_replacer, zoom. simpl.
      destruct (LRUKReplacer.Remove frame_id (replacer_ b)) as [[] r|e r|x]; [|done..].
      erewrite bind_Ret by (by apply update_page_Some). done.
Qed.

Lemma flush_frames_spec n : forall (i : nat) b,
  (i + n <= length (pages_ b))%nat ->
  exists b',
    flush_frames (Z.of_nat i) n b = Ret tt b' /\
    page_table_ b' = page_table_ b /\ free_list_ b' = free_list_ b /\
    replacer_ b' = replacer_ b /\ next_page_id_ b' = next_page_id_ b /\
    pool_size_ b' = pool_size_ b /\
    length (pages_ b') = length (pages_ b) /\
    (forall j,
       pages_ b' !! j =
         if bool_decide (i <= j < i + n)%nat
         then (fun p => if bool_decide (Page.page_id_ p = INVALID_PAGE_ID) then p
                        else Page.set_is_dirty false p) <$> pages_ b !! j
         else pages_ b !! j) /\
    disk_ b' =
      foldl (fun d p => if bool_decide (Page.page_id_ p = INVALID_PAGE_ID) then d
                        else <[Page.page_id_ p := Page.data_ p]> d)
        (disk_ b) (take n (drop i (pages_ b))).
Proof.
  induction n as [|n IH]; intros i b Hn; simpl.
  { exists b. repeat split; try done.
    intros j. by rewrite bool_decide_eq_false_2 by lia. }
  destruct (lookup_lt_is_Some_2 (pages_ b) i) as [p Hp]; [lia|].
  erewrite bind_Ret by (apply page_at_Some; [lia|by rewrite Nat2Z.id]).
  rewrite (drop_S _ _ _ Hp). simpl.
  replace (Z.of_nat i + 1) with (Z.of_nat (S i)) by lia.
  case_bool_decide as Hinv.
  - erewrite bind_Ret by reflexivity.
    destruct (IH (S i) b) as (b' & Hrun & H1 & H2 & H3 & H4 & H5 & H6 & Hpt & Hd); [lia|].
    exists b'. split; [exact Hrun|]. repeat split; try done.
    intros j. rewrite Hpt.
    destruct (decide (j = i)) as [->|Hj].
    + rewrite bool_decide_eq_false_2 by lia. rewrite bool_decide_eq_true_2 by lia.
      rewrite Hp. simpl. by rewrite bool_decide_eq_true_2.
    + case_bool_decide; [rewrite bool_decide_eq_true_2 by lia
                        |rewrite bool_decide_eq_false_2 by lia]; done.
  - erewrite bind_Ret; cycle 1.
    { erewrite bind_Ret by reflexivity.
      apply update_page_Some; [lia|]. simpl. by rewrite Nat2Z.id. }
    rewrite Nat2Z.id.
    set (b1 := set_pages _ _).
    destruct (IH (S i) b1) as (b' & Hrun & H1 & H2 & H3 & H4 & H5 & H6 & Hpt & Hd).
    { unfold b1. simpl. rewrite length_insert. lia. }
    exists b'. split; [exact Hrun|]. unfold b1 in *. simpl in *.
    rewrite length_insert in H6. repeat split; try done.
    + intros j. rewrite Hpt.
      destruct (decide (j = i)) as [->|Hj].
      * rewrite bool_decide_eq_false_2 by lia. rewrite bool_decide_eq_true_2 by lia.
        rewrite list_lookup_insert_eq by lia. rewrite Hp. simpl.
        by rewrite bool_decide_eq_false_2.
      * rewrite list_lookup_insert_ne by done.
        case_bool_decide; [rewrite bool_decide_eq_true_2 by lia
                          |rewrite bool_decide_eq_false_2 by lia]; done.
    + rewrite Hd. by rewrite drop_insert_lt by lia.
Qed.

Lemma flushed_disk_other (l : list (Page.t Data)) : forall (d : gmap Z Data) pid,
  (forall p, p ∈ l -> Page.page_id_ p <> INVALID_PAGE_ID -> Page.page_id_ p <> pid) ->
  foldl (fun d p => if bool_decide (Page.page_id_ p = INVALID_PAGE_ID) then d
                    else <[Page.page_id_ p := Page.data_ p]> d) d l !! pid
  = d !! pid.
Proof.
  induction l as [|p l IH]; intros d pid Hl; simpl; [done|].
  rewrite IH by (intros q Hq; apply Hl; by right).
  case_bool_decide as Hinv; [done|].
  rewrite lookup_insert_ne; [done|]. apply Hl; [by left|done].
Qed.

(** X24.  [FlushAllPages], on a pool whose frame array has [pool_size_]
    frames: every frame that holds a page id other than INVALID is written
    to disk under that id and marked clean (of two frames holding the same
    id the later one wins), the other frames are skipped, disk blocks of
    ids held by no frame are untouched, and page table, free list and
    replacer are unchanged. *)
Theorem FlushAllPages_writes_every_page b :
  pool_size_ b = Z.of_nat (length (pages_ b)) ->
  exists b',
    FlushAllPages b = Ret tt b' /\
    page_table_ b' = page_table_ b /\ free_list_ b' = free_list_ b /\
    replacer_ b' = replacer_ b /\
    pages_ b' = (fun p => if bool_decide (Page.page_id_ p = INVALID_PAGE_ID) then p
                          else Page.set_is_dirty false p) <$> pages_ b /\
    (forall i p,
       pages_ b !! i = Some p -> Page.page_id_ p <> INVALID_PAGE_ID ->
       (forall j q, (i < j)%nat -> pages_ b !! j = Some q ->
                    Page.page_id_ q <> Page.page_id_ p) ->
       disk_ b' !! Page.page_id_ p = Some (Page.data_ p)) /\
    (forall pid,
       (forall p, p ∈ pages_ b -> Page.page_id_ p <> INVALID_PAGE_ID ->
                  Page.page_id_ p <> pid) ->
       disk_ b' !! pid = disk_ b !! pid).
Proof.
  intros Hsize. unfold FlushAllPages. rewrite Hsize, Nat2Z.id.
  destruct (flush_frames_spec (length (pages_ b)) 0 b)
    as (b' & Hrun & H1 & H2 & H3 & _ & _ & Hlen & Hpt & Hd); [simpl; lia|].
  exists b'. split; [exact Hrun|]. split; [done|]. split; [done|]. split; [done|].
  rewrite drop_0, firstn_all in Hd. split; [|split].
  - apply list_eq. intros j. rewrite Hpt, list_lookup_fmap.
    case_bool_decide as Hj; [done|].
    rewrite (lookup_ge_None_2 (pages_ b) j) by lia. done.
  - intros i p Hp Hvalid Hlater. rewrite Hd.
    rewrite <- (take_drop_middle _ _ _ Hp), foldl_app. simpl.
    rewrite bool_decide_eq_false_2 by done.
    rewrite flushed_disk_other; [by rewrite lookup_insert_eq|].
    intros q Hq _. apply list_elem_of_lookup in Hq as [j Hj].
    rewrite lookup_drop in Hj. by apply (Hlater (S i + j)%nat); [lia|].
  - intros pid Hnone. rewrite Hd. by apply flushed_disk_other.
Qed.
End Props.

Lemma NewPage_installs_page_witness :
  let b : BufferPoolManager.t Z := new 0 2 2 ∅ in
  let page := fresh_page 0 in
  exists b',
    NewPage 0 b = Ret (Some (next_page_id_ b, 1)) b' /\
    pages_ b' = <[Z.to_nat 1 := Page.mk 0 (next_page_id_ b) 1 false]> (pages_ b) /\
    page_table_ b'
    = emplace (next_page_id_ b) 1 (delete (Page.page_id_ page) (page_table_ b)) /\
    disk_ b' = (if Page.is_dirty_ page
                then <[Page.page_id_ page := Page.data_ page]> (disk_ b)
                else disk_ b) /\
    next_page_id_ b' = to_int (next_page_id_ b + 1) /\
    free_list_ b' = [0] /\
    LRUKReplacer.node_store_ (replacer_ b') !! 1
    = Some (LRUKNode.mk 1 false (Some LRUKNode.Hist)).
Proof.
  intros b page.
  apply (NewPage_installs_page 0 b 1 (set_free_list [0] b) page).
  - vm_compute; reflexivity.
  - lia.
  - vm_compute; reflexivity.
  - vm_compute; reflexivity.
  - vm_compute; reflexivity.
Defined.

Lemma FetchPage_miss_loads_from_disk_witness :
  let b : BufferPoolManager.t Z := new 0 2 2 {[ 5 := 55 ]} in
  let page := fresh_page 0 in
  exists b',
    FetchPage 0 5 b = Ret (Some 1) b' /\
    disk_ b' = (if Page.is_dirty_ page
                then <[Page.page_id_ page := Page.data_ page]> (disk_ b)
                else disk_ b) /\
    pages_ b'
    = <[Z.to_nat 1 := Page.mk (default 0 (disk_ b' !! 5)) 5 1 false]> (pages_ b) /\
    page_table_ b' = <[5 := 1]> (delete (Page.page_id_ page) (page_table_ b)) /\
    next_page_id_ b' = next_page_id_ b /\
    free_list_ b' = [0] /\
    LRUKReplacer.node_store_ (replacer_ b') !! 1
    = Some (LRUKNode.mk 1 false (Some LRUKNode.Hist)).
Proof.
  intros b page.
  apply (FetchPage_miss_loads_from_disk 0 b 5 1 (set_free_list [0] b) page).
  - unfold INVALID_PAGE_ID; lia.
  - vm_compute; reflexivity.
  - vm_compute; reflexivity.
  - lia.
  - vm_compute; reflexivity.
  - vm_compute; reflexivity.
  - vm_compute; reflexivity.
Defined.

Lemma FetchPage_hit_pins_frame_witness :
  exists b : BufferPoolManager.t Z,
    NewPage 0 (new 0 2 2 ∅) = Ret (Some (0, 1)) b /\
    exists b',
      FetchPage 0 0 b = Ret (Some 1) b' /\
      pages_ b' = <[Z.to_nat 1 := Page.set_pin_count (1 + 1) (Page.mk 0 0 1 false)]>
                    (pages_ b) /\
      page_table_ b' = page_table_ b /\ free_list_ b' = free_list_ b /\
      disk_ b' = disk_ b /\ next_page_id_ b' = next_page_id_ b /\
      LRUKReplacer.access_count (LRUKReplacer.node_store_ (replacer_ b')) 1
      = LRUKReplacer.access_count (LRUKReplacer.node_store_ (replacer_ b)) 1 + 1 /\
      LRUKReplacer.evictable (LRUKReplacer.node_store_ (replacer_ b')) 1 = false /\
      LRUKReplacer.placed (2 + 1) (replacer_ b').
Proof.
  eexists. split; [vm_compute; reflexivity|].
  apply (FetchPage_hit_pins_frame 0 2 _ 0 1 (Page.mk 0 0 1 false)).
  - unfold INVALID_PAGE_ID; lia.
  - vm_compute; reflexivity.
  - lia.
  - vm_compute; reflexivity.
  - simpl; lia.
  - apply (LRUKReplacerProperties.placed_run_inv
             [LRUKReplacer.CRecordAccess 1; LRUKReplacer.CSetEvictable 1 false]
             0 (LRUKReplacer.new 2 2));
      [apply LRUKReplacerFacts.placed_new; lia|lia|vm_compute; reflexivity
      |vm_compute; reflexivity].
  - lia.
  - vm_compute; reflexivity.
  - vm_compute; reflexivity.
Defined.

Lemma DeletePage_spec_witness :
  exists b : BufferPoolManager.t Z,
    NewPage 0 (new 0 2 2 ∅) = Ret (Some (0, 1)) b /\
    (page_table_ b !! 0 = None -> DeletePage 0 0 b = Ret true b) /\
    (forall frame_id page,
       page_table_ b !! 0 = Some frame_id ->
       0 <= frame_id -> pages_ b !! Z.to_nat frame_id = Some page ->
       (Page.pin_count_ page > 0 -> DeletePage 0 0 b = Ret false b) /\
       (Page.pin_count_ page <= 0 ->
        let unlinked :=
          set_free_list (free_list_ b ++ [frame_id])
            (set_page_table (delete 0 (page_table_ b)) b) in
        DeletePage 0 0 b =
          match LRUKReplacer.Remove frame_id (replacer_ b) with
          | Ret _ r =>
              Ret true (set_pages (<[Z.to_nat frame_id := fresh_page 0]> (pages_ b))
                          (set_replacer r unlinked))
          | Throw e r => Throw e (set_replacer r unlinked)
          | Fail x => Fail x
          end)).
Proof.
  eexists. split; [vm_compute; reflexivity|].
  apply (DeletePage_spec 0 _ 0). unfold INVALID_PAGE_ID; lia.
Defined.

Lemma FlushAllPages_writes_every_page_witness :
  let b : BufferPoolManager.t Z :=
    {| pool_size_ := 2;
       pages_ := [Page.mk 7 3 0 true; fresh_page 0];
       page_table_ := {[ 3 := 0 ]}; free_list_ := [1];
       replacer_ := LRUKReplacer.new 2 2; next_page_id_ := 4; disk_ := ∅ |} in
  exists b',
    FlushAllPages b = Ret tt b' /\
    page_table_ b' = page_table_ b /\ free_list_ b' = free_list_ b /\
    replacer_ b' = replacer_ b /\
    pages_ b' = (fun p => if bool_decide (Page.page_id_ p = INVALID_PAGE_ID) then p
                          else Page.set_is_dirty false p) <$> pages_ b /\
    (forall i p,
       pages_ b !! i = Some p -> Page.page_id_ p <> INVALID_PAGE_ID ->
       (forall j q, (i < j)%nat -> pages_ b !! j = Some q ->
                    Page.page_id_ q <> Page.page_id_ p) ->
       disk_ b' !! Page.page_id_ p = Some (Page.data_ p)) /\
    (forall pid,
       (forall p, p ∈ pages_ b -> Page.page_id_ p <> INVALID_PAGE_ID ->
                  Page.page_id_ p <> pid) ->
       disk_ b' !! pid = disk_ b !! pid).
Proof.
  intros b. apply (FlushAllPages_writes_every_page b). reflexivity.
Defined.
End BufferPoolManagerProperties.

(** ** Page guards: release discipline *)

Module PageGuardProperties.
Import BufferPoolManager BufferPoolManagerFacts BufferPoolManagerProperties.

Section Props.
Context {Data : Type} (zeroed : Data).
Implicit Types b : BufferPoolManager.t Data.

Lemma Drop_moved_from (g : BasicPageGuard.t) b :
  BasicPageGuard.Drop (BasicPageGuard.moved_from g) b
  = Ret (BasicPageGuard.moved_from g) b.
Proof. reflexivity. Qed.

Lemma Drop_returns_moved_from (g g' : BasicPageGuard.t) b b' :
  BasicPageGuard.Drop g b = Ret g' b' -> g' = BasicPageGuard.moved_from g.
Proof.
  unfold BasicPageGuard.Drop, bind.
  destruct (if BasicPageGuard.bpm_ g then _ else _) as [u b1|e b1|x]; [|done..].
  by intros [= <- <-].
Qed.

(** X25.  [BasicPageGuard::Drop] releases at most once: a second [Drop]
    (or the destructor after an explicit [Drop]) does nothing, so dropping
    twice is the same as dropping once; a [Drop] that returns leaves the
    guard with both pointers null and its dirty flag as it was. *)
Theorem Drop_is_idempotent (g : BasicPageGuard.t) b :
  (let* g' := BasicPageGuard.Drop g in BasicPageGuard.Drop g')%M b
  = BasicPageGuard.Drop g b /\
  (forall g' b', BasicPageGuard.Drop g b = Ret g' b' ->
                 g' = BasicPageGuard.moved_from g).
Proof.
  split; [|intros g' b'; apply Drop_returns_moved_from].
  unfold bind at 1. destruct (BasicPageGuard.Drop g b) as [g' b'|e b'|x] eqn:E; [|done..].
  apply Drop_returns_moved_from in E. subst g'. apply Drop_moved_from.
Qed.

(** X26.  Moving a guard transfers the release to the target.  After move
    construction the new guard has the fields of the source and the
    source's [Drop] does nothing.  Move assignment between distinct guards
    first drops the target; it never throws: an exception of that [Drop]
    ends the program in [std::terminate], and a failure of that [Drop] is
    the outcome of the assignment.  When the [Drop] returns, the pool is as
    that [Drop] left it, the target has the fields of the source, and the
    source's [Drop] does nothing. *)
Theorem move_transfers_release (this that : BasicPageGuard.t) b :
  ((BasicPageGuard.move that).1 = that /\
   BasicPageGuard.Drop (BasicPageGuard.move that).2 b
   = Ret (BasicPageGuard.move that).2 b) /\
  match BasicPageGuard.move_assign false this that b with
  | Ret (this', that') b' =>
      BasicPageGuard.Drop this b = Ret (BasicPageGuard.moved_from this) b' /\
      this' = that /\
      BasicPageGuard.Drop that' b' = Ret that' b'
  | Throw _ _ => False
  | Fail x =>
      BasicPageGuard.Drop this b = Fail x \/
      (x = Terminated /\ exists e b', BasicPageGuard.Drop this b = Throw e b')
  end.
Proof.
  split; [split; [by destruct that|reflexivity]|].
  unfold BasicPageGuard.move_assign, noexcept. unfold bind at 1.
  destruct (BasicPageGuard.Drop this b) as [g' b'|e b'|x] eqn:E.
  - apply Drop_returns_moved_from in E. subst g'. simpl.
    split; [done|]. split; [by destruct that|reflexivity].
  - right. split; [done|]. by exists e, b'.
  - by left.
Qed.

Lemma UnpinPage_pinned b page_id frame_id page (is_dirty : bool) r n :
  page_id <> INVALID_PAGE_ID -> page_table_ b !! page_id = Some frame_id ->
  0 <= frame_id -> pages_ b !! Z.to_nat frame_id = Some page ->
  0 < Page.pin_count_ page < 2 ^ 31 ->
  replacer_ b = r -> LRUKReplacer.node_store_ r !! frame_id = Some n ->
  LRUKNode.is_evictable_ n = false ->
  LRUKReplacer.invalid_frame r frame_id = false ->
  exists b',
    UnpinPage page_id is_dirty b = Ret true b' /\
    pages_ b' = <[Z.to_nat frame_id :=
                   Page.set_pin_count (Page.pin_count_ page - 1)
                     (Page.set_is_dirty (Page.is_dirty_ page || is_dirty) page)]>
                  (pages_ b) /\
    page_table_ b' = page_table_ b /\ free_list_ b' = free_list_ b /\
    disk_ b' = disk_ b /\ next_page_id_ b' = next_page_id_ b /\
    LRUKReplacer.evictable (LRUKReplacer.node_store_ (replacer_ b')) frame_id
    = bool_decide (Page.pin_count_ page = 1).
Proof.
  intros Hvalid Hres H0 Hp Hpin Hr Hn He Hv.
  assert (Hlen : (Z.to_nat frame_id < length (pages_ b))%nat)
    by (by eapply lookup_lt_Some).
  unfold UnpinPage. rewrite bool_decide_eq_false_2 by done.
  erewrite bind_Ret by reflexivity. rewrite Hres. cbv beta iota.
  erewrite bind_Ret by (by apply page_at_Some).
  erewrite bind_Ret by (by apply dirtied_spec).
  rewrite bool_decide_eq_false_2 by lia.
  unfold int_arith. rewrite bool_decide_eq_true_2 by lia.
  erewrite bind_Ret by reflexivity.
  erewrite bind_Ret
    by (apply update_page_Some; [done|]; unfold dirtied; simpl;
        by apply list_lookup_insert_eq).
  unfold dirtied. simpl. rewrite list_insert_insert_eq.
  case_bool_decide as H1.
  - rewrite bool_decide_eq_true_2 by lia.
    assert (LRUKReplacer.SetEvictable frame_id true r
            = Ret tt (LRUKReplacer.set_node frame_id
                        (LRUKNode.mk (LRUKNode.k_ n) true (LRUKNode.pos_ n))
                        (LRUKReplacer.set_curr_size
                           (wrap64 (LRUKReplacer.curr_size_ r + 1)) r))) as HS.
    { unfold LRUKReplacer.SetEvictable. by rewrite Hv, Hn, He. }
    erewrite bind_Ret by (apply with_replacer_Ret; simpl; rewrite Hr; exact HS).
    eexists. split; [reflexivity|]. simpl. repeat split.
    unfold LRUKReplacer.evictable. by rewrite lookup_insert_eq.
  - rewrite bool_decide_eq_false_2 by lia.
    erewrite bind_Ret by reflexivity.
    eexists. split; [reflexivity|]. simpl. repeat split.
    unfold LRUKReplacer.evictable. by rewrite Hr, Hn.
Qed.

Lemma guard_round_trip (d : bool) bound b page_id frame_id page :
  page_id <> INVALID_PAGE_ID -> page_table_ b !! page_id = Some frame_id ->
  0 <= frame_id -> pages_ b !! Z.to_nat frame_id = Some page ->
  Page.page_id_ page = page_id ->
  0 <= Page.pin_count_ page -> Page.pin_count_ page + 1 < 2 ^ 31 ->
  LRUKReplacer.placed bound (replacer_ b) -> 0 <= bound -> bound + 1 < 2 ^ 64 ->
  LRUKReplacer.invalid_frame (replacer_ b) frame_id = false ->
  exists b1 b2,
    FetchPage zeroed page_id b = Ret (Some frame_id) b1 /\
    BasicPageGuard.Drop (BasicPageGuard.mk true (Some frame_id) d) b1
    = Ret (BasicPageGuard.mk false None d) b2 /\
    pages_ b2 = <[Z.to_nat frame_id :=
                   Page.set_is_dirty (Page.is_dirty_ page || d) page]> (pages_ b) /\
    page_table_ b2 = page_table_ b /\ free_list_ b2 = free_list_ b /\
    disk_ b2 = disk_ b /\
    LRUKReplacer.evictable (LRUKReplacer.node_store_ (replacer_ b2)) frame_id
    = bool_decide (Page.pin_count_ page = 0).
Proof.
  intros Hvalid Hres H0 Hp Hid Hpin0 Hpin Hpl Hb0 Hb Hv.
  assert (Hlen : (Z.to_nat frame_id < length (pages_ b))%nat)
    by (by eapply lookup_lt_Some).
  destruct (FetchPage_hit zeroed bound b page_id frame_id page)
    as (r & n & Hrun & Hn & _ & He & Esz & _); [done|done|done|done|lia|done..|].
  set (b1 := set_pages _ (set_replacer r b)) in Hrun.
  set (page1 := Page.set_pin_count (Page.pin_count_ page + 1) page).
  assert (Hp1 : pages_ b1 !! Z.to_nat frame_id = Some page1).
  { unfold b1. simpl. by apply list_lookup_insert_eq. }
  destruct (UnpinPage_pinned b1 page_id frame_id page1 d r n)
    as (b2 & Hun & Hpages & Hpt & Hfl & Hdisk & _ & Hev); [done..|simpl; lia|done|done|done| |].
  { unfold LRUKReplacer.invalid_frame in *. by rewrite Esz. }
  exists b1, b2. split; [exact Hrun|]. split.
  - unfold BasicPageGuard.Drop. simpl.
    erewrite bind_Ret; [reflexivity|].
    erewrite bind_Ret by (by apply page_at_Some).
    unfold page1 at 1. simpl. rewrite Hid.
    erewrite bind_Ret by exact Hun. reflexivity.
  - rewrite Hpages, Hpt, Hfl, Hdisk, Hev. unfold b1. simpl.
    rewrite list_insert_insert_eq. split; [|split; [done|split; [done|split; [done|]]]].
    + f_equal. unfold page1, Page.set_pin_count, Page.set_is_dirty. simpl.
      f_equal. lia.
    + apply bool_decide_ext. simpl. lia.
Qed.

(** X27.  Fetching a resident page through a guard and dropping the guard
    is a round trip on the frames: after [FetchPageBasic] and [Drop] the
    frame array, page table, free list and disk are as before, and the
    replacer holds the frame evictable exactly when its pin count was 0;
    after [FetchPageWrite] and [WritePageGuard::Drop] the same holds except
    that the frame is marked dirty. *)
Theorem guard_Drop_undoes_FetchPage bound b page_id frame_id page :
  page_id <> INVALID_PAGE_ID -> page_table_ b !! page_id = Some frame_id ->
  0 <= frame_id -> pages_ b !! Z.to_nat frame_id = Some page ->
  Page.page_id_ page = page_id ->
  0 <= Page.pin_count_ page -> Page.pin_count_ page + 1 < 2 ^ 31 ->
  LRUKReplacer.placed bound (replacer_ b) -> 0 <= bound -> bound + 1 < 2 ^ 64 ->
  LRUKReplacer.invalid_frame (replacer_ b) frame_id = false ->
  (exists g b1 b2,
     GuardFactory.FetchPageBasic zeroed page_id b = Ret g b1 /\
     BasicPageGuard.Drop g b1 = Ret (BasicPageGuard.moved_from g) b2 /\
     pages_ b2 = pages_ b /\ page_table_ b2 = page_table_ b /\
     free_list_ b2 = free_list_ b /\ disk_ b2 = disk_ b /\
     LRUKReplacer.evictable (LRUKReplacer.node_store_ (replacer_ b2)) frame_id
     = bool_decide (Page.pin_count_ page = 0)) /\
  (exists g b1 b2,
     GuardFactory.FetchPageWrite zeroed page_id b = Ret g b1 /\
     WritePageGuard.Drop g b1 = Ret (BasicPageGuard.mk false None true) b2 /\
     pages_ b2 = <[Z.to_nat frame_id := Page.set_is_dirty true page]> (pages_ b) /\
     page_table_ b2 = page_table_ b /\
     free_list_ b2 = free_list_ b /\ disk_ b2 = disk_ b /\
     LRUKReplacer.evictable (LRUKReplacer.node_store_ (replacer_ b2)) frame_id
     = bool_decide (Page.pin_count_ page = 0)).
Proof.
  intros Hvalid Hres H0 Hp Hid Hpin0 Hpin Hpl Hb0 Hb Hv. split.
  - destruct (guard_round_trip false bound b page_id frame_id page)
      as (b1 & b2 & Hf & Hd & Hpages & Hrest); [done..|].
    exists (BasicPageGuard.new (Some frame_id)), b1, b2.
    split; [unfold GuardFactory.FetchPageBasic; by erewrite bind_Ret by exact Hf|].
    split; [exact Hd|]. split; [|exact Hrest].
    rewrite Hpages, orb_false_r.
    assert (Page.set_is_dirty (Page.is_dirty_ page) page = page) as -> by by destruct page.
    by apply list_insert_id.
  - destruct (guard_round_trip true bound b page_id frame_id page)
      as (b1 & b2 & Hf & Hd & Hpages & Hrest); [done..|].
    exists (BasicPageGuard.new (Some frame_id)), b1, b2.
    split; [unfold GuardFactory.FetchPageWrite; by erewrite bind_Ret by exact Hf|].
    split; [exact Hd|]. split; [|exact Hrest].
    by rewrite Hpages, orb_true_r.
Qed.
End Props.

Lemma Drop_is_idempotent_witness :
  let b : BufferPoolManager.t Z := new 0 2 2 ∅ in
  let g := BasicPageGuard.new (Some 1) in
  (let* g' := BasicPageGuard.Drop g in BasicPageGuard.Drop g')%M b
  = BasicPageGuard.Drop g b /\
  (forall g' b', BasicPageGuard.Drop g b = Ret g' b' ->
                 g' = BasicPageGuard.moved_from g).
Proof. intros b g. exact (Drop_is_idempotent g b). Defined.

Lemma guard_Drop_undoes_FetchPage_witness :
  exists b : BufferPoolManager.t Z,
    NewPage 0 (new 0 2 2 ∅) = Ret (Some (0, 1)) b /\
    (exists g b1 b2,
       GuardFactory.FetchPageBasic 0 0 b = Ret g b1 /\
       BasicPageGuard.Drop g b1 = Ret (BasicPageGuard.moved_from g) b2 /\
       pages_ b2 = pages_ b /\ page_table_ b2 = page_table_ b /\
       free_list_ b2 = free_list_ b /\ disk_ b2 = disk_ b /\
       LRUKReplacer.evictable (LRUKReplacer.node_store_ (replacer_ b2)) 1
       = bool_decide (1 = 0)) /\
    (exists g b1 b2,
       GuardFactory.FetchPageWrite 0 0 b = Ret g b1 /\
       WritePageGuard.Drop g b1 = Ret (BasicPageGuard.mk false None true) b2 /\
       pages_ b2 = <[Z.to_nat 1 := Page.set_is_dirty true (Page.mk 0 0 1 false)]>
                     (pages_ b) /\
       page_table_ b2 = page_table_ b /\
       free_list_ b2 = free_list_ b /\ disk_ b2 = disk_ b /\
       LRUKReplacer.evictable (LRUKReplacer.node_store_ (replacer_ b2)) 1
       = bool_decide (1 = 0)).
Proof.
  eexists. split; [vm_compute; reflexivity|].
  apply (guard_Drop_undoes_FetchPage 0 2 _ 0 1 (Page.mk 0 0 1 false)).
  - unfold INVALID_PAGE_ID; lia.
  - vm_compute; reflexivity.
  - lia.
  - vm_compute; reflexivity.
  - reflexivity.
  - simpl; lia.
  - simpl; lia.
  - apply (LRUKReplacerProperties.placed_run_inv
             [LRUKReplacer.CRecordAccess 1; LRUKReplacer.CSetEvictable 1 false]
             0 (LRUKReplacer.new 2 2));
      [apply LRUKReplacerFacts.placed_new; lia|lia|vm_compute; reflexivity
      |vm_compute; reflexivity].
  - lia.
  - vm_compute; reflexivity.
  - vm_compute; reflexivity.
Defined.
End PageGuardProperties.

(** ** Observed-remove set: merge laws and observed-remove *)

Module ORSetProperties.
Import ORSet.

Local Notation lt2 := (fun a b : Z * Z => pair_lt a b = true).

Lemma pair_lt_spec a b :
  pair_lt a b = true <-> a.1 < b.1 \/ (a.1 = b.1 /\ a.2 < b.2).
Proof.
  unfold pair_lt.
  rewrite orb_true_iff, andb_true_iff, negb_true_iff, !bool_decide_eq_true,
    bool_decide_eq_false. lia.
Qed.

Lemma pair_lt_irrefl a : pair_lt a a = true -> False.
Proof. rewrite pair_lt_spec. lia. Qed.

Lemma pair_lt_trans a b c :
  pair_lt a b = true -> pair_lt b c = true -> pair_lt a c = true.
Proof. rewrite !pair_lt_spec. lia. Qed.

Lemma pair_lt_total a b : pair_lt a b = false -> pair_lt b a = false -> a = b.
Proof.
  intros H1 H2. apply not_true_iff_false in H1, H2.
  rewrite pair_lt_spec in H1, H2. destruct a, b; simpl in *. f_equal; lia.
Qed.

Lemma set_insert_elem_of x s y : y ∈ set_insert x s <-> y = x \/ y ∈ s.
Proof.
  induction s as [|a s IH]; simpl; [set_solver|].
  destruct (pair_lt x a) eqn:E1; [set_solver|].
  destruct (pair_lt a x) eqn:E2; [rewrite !elem_of_cons, IH; tauto|].
  pose proof (pair_lt_total _ _ E1 E2). set_solver.
Qed.

Lemma set_insert_sorted x s :
  StronglySorted lt2 s -> StronglySorted lt2 (set_insert x s).
Proof.
  induction 1 as [|a s Hs IH Ha]; simpl; [by repeat constructor|].
  destruct (pair_lt x a) eqn:E1.
  - constructor; [by constructor|]. constructor; [done|].
    eapply Forall_impl; [exact Ha|]. intros y Hy. simpl in *.
    by eapply pair_lt_trans.
  - destruct (pair_lt a x) eqn:E2; [|by constructor].
    constructor; [done|]. apply Forall_forall. intros y Hy.
    apply set_insert_elem_of in Hy as [->|Hy]; [done|].
    rewrite Forall_forall in Ha. by apply Ha.
Qed.

Lemma to_set_spec l :
  StronglySorted lt2 (to_set l) /\ forall y, y ∈ to_set l <-> y ∈ l.
Proof.
  unfold to_set.
  assert (forall acc, StronglySorted lt2 acc ->
            StronglySorted lt2 (foldl (fun s x => set_insert x s) acc l) /\
            forall y, y ∈ foldl (fun s x => set_insert x s) acc l <-> y ∈ acc \/ y ∈ l) as H.
  { induction l as [|x l IH]; intros acc Hacc; simpl; [split; [done|set_solver]|].
    destruct (IH (set_insert x acc) (set_insert_sorted x acc Hacc)) as [H1 H2].
    split; [done|]. intros y. rewrite H2, set_insert_elem_of, elem_of_cons. tauto. }
  destruct (H [] ltac:(constructor)) as [H1 H2]. split; [done|].
  intros y. rewrite H2. set_solver.
Qed.

Lemma sorted_NoDup (l : list (Z * Z)) : StronglySorted lt2 l -> NoDup l.
Proof.
  induction 1 as [|a s Hs IH Ha]; constructor; [|done].
  intros Hin. rewrite Forall_forall in Ha. by apply (pair_lt_irrefl a), Ha.
Qed.

(** Two sorted sequences with the same members are the same sequence. *)
Lemma sorted_ext (l1 l2 : list (Z * Z)) :
  StronglySorted lt2 l1 -> StronglySorted lt2 l2 ->
  (forall y, y ∈ l1 <-> y ∈ l2) -> l1 = l2.
Proof.
  intros H1 H2 Hm. apply (StronglySorted_unique_strong lt2); [|done|done|].
  - intros x1 x2 _ _ Ha Hb. exfalso. apply (pair_lt_irrefl x1).
    by eapply pair_lt_trans.
  - apply NoDup_Permutation; [by apply sorted_NoDup..|done].
Qed.

Lemma isInTombstones_spec tombs it : isInTombstones tombs it = true <-> it ∈ tombs.
Proof.
  unfold isInTombstones. rewrite existsb_exists. split.
  - intros (jt & Hin & Heq). apply andb_true_iff in Heq as [H1 H2].
    apply bool_decide_eq_true in H1, H2. apply list_elem_of_In in Hin.
    destruct it, jt; simpl in *; by subst.
  - intros Hin. exists it. split; [by apply list_elem_of_In|].
    by rewrite !bool_decide_eq_true_2.
Qed.

Lemma purge_elem_of tombs els y : y ∈ purge tombs els <-> y ∈ els /\ y ∉ tombs.
Proof.
  induction els as [|it els IH]; simpl; [set_solver|].
  destruct (isInTombstones tombs it) eqn:E.
  - apply isInTombstones_spec in E. rewrite IH. set_solver.
  - apply not_true_iff_false in E. rewrite isInTombstones_spec in E.
    rewrite !elem_of_cons, IH. set_solver.
Qed.

Lemma purge_sorted tombs els :
  StronglySorted lt2 els -> StronglySorted lt2 (purge tombs els).
Proof.
  induction 1 as [|a s Hs IH Ha]; simpl; [constructor|].
  destruct (isInTombstones tombs a); [done|]. constructor; [done|].
  apply Forall_forall. intros y Hy. apply purge_elem_of in Hy as [Hy _].
  rewrite Forall_forall in Ha. by apply Ha.
Qed.

(** What [Merge] leaves: both sequences sorted, the tombstones of both sets,
    and the elements of both sets that are in neither set's tombstones. *)
Lemma Merge_canonical other s :
  StronglySorted lt2 (elements (Merge other s)) /\
  StronglySorted lt2 (tombstones (Merge other s)) /\
  (forall y, y ∈ elements (Merge other s) <->
             (y ∈ elements s \/ y ∈ elements other) /\
             y ∉ tombstones s /\ y ∉ tombstones other) /\
  (forall y, y ∈ tombstones (Merge other s) <->
             y ∈ tombstones s \/ y ∈ tombstones other).
Proof.
  unfold Merge. simpl.
  destruct (to_set_spec (tombstones s ++ tombstones other)) as [Ht1 Ht2].
  destruct (to_set_spec (elements s ++ elements other)) as [He1 He2].
  split; [by apply purge_sorted|]. split; [done|]. split.
  - intros y. rewrite purge_elem_of, He2, Ht2, !elem_of_app. tauto.
  - intros y. by rewrite Ht2, elem_of_app.
Qed.

Lemma canonical_eq s1 s2 :
  StronglySorted lt2 (elements s1) -> StronglySorted lt2 (elements s2) ->
  StronglySorted lt2 (tombstones s1) -> StronglySorted lt2 (tombstones s2) ->
  (forall y, y ∈ elements s1 <-> y ∈ elements s2) ->
  (forall y, y ∈ tombstones s1 <-> y ∈ tombstones s2) ->
  s1 = s2.
Proof.
  intros He1 He2 Ht1 Ht2 He Ht. destruct s1, s2; simpl in *. f_equal.
  - by apply sorted_ext.
  - by apply sorted_ext.
Qed.

(** X28.  [Merge] is a join on replica states: merging is commutative,
    associative and idempotent, as equalities of the resulting element and
    tombstone sequences. *)
Theorem Merge_commutative_associative_idempotent (a b c : ORSet.t) :
  Merge b a = Merge a b /\
  Merge c (Merge b a) = Merge (Merge c b) a /\
  Merge b (Merge b a) = Merge b a.
Proof.
  pose proof (Merge_canonical b a) as (Hba1 & Hba2 & Hba3 & Hba4).
  pose proof (Merge_canonical a b) as (Hab1 & Hab2 & Hab3 & Hab4).
  pose proof (Merge_canonical c (Merge b a)) as (H1 & H2 & H3 & H4).
  pose proof (Merge_canonical c b) as (Hcb1 & Hcb2 & Hcb3 & Hcb4).
  pose proof (Merge_canonical (Merge c b) a) as (H5 & H6 & H7 & H8).
  pose proof (Merge_canonical b (Merge b a)) as (H9 & H10 & H11 & H12).
  split; [|split]; apply canonical_eq; try done.
  - intros y. rewrite Hba3, Hab3. tauto.
  - intros y. rewrite Hba4, Hab4. tauto.
  - intros y. rewrite H3, H7, Hba3, Hba4, Hcb3, Hcb4. tauto.
  - intros y. rewrite H4, H8, Hba4, Hcb4. tauto.
  - intros y. rewrite H11, Hba3, Hba4. tauto.
  - intros y. rewrite H12, Hba4. tauto.
Qed.

Lemma Contains_spec elem s :
  Contains elem s = true <-> exists uid, (elem, uid) ∈ elements s.
Proof.
  unfold Contains. rewrite existsb_exists. split.
  - intros ([e uid] & Hin & Heq). apply bool_decide_eq_true in Heq. simpl in Heq.
    subst e. exists uid. by apply list_elem_of_In.
  - intros [uid Hin]. exists (elem, uid). split; [by apply list_elem_of_In|].
    by apply bool_decide_eq_true_2.
Qed.

(** X29.  After [Merge] the set contains an element exactly when one of the
    two sets held a pair of that element whose uid is in neither set's
    tombstones. *)
Theorem Contains_Merge elem other s :
  Contains elem (Merge other s) = true <->
  exists uid,
    ((elem, uid) ∈ elements s \/ (elem, uid) ∈ elements other) /\
    (elem, uid) ∉ tombstones s /\ (elem, uid) ∉ tombstones other.
Proof.
  rewrite Contains_spec.
  pose proof (Merge_canonical other s) as (_ & _ & H & _).
  split; intros [uid Hu]; exists uid; by apply H.
Qed.

Lemma take_out_spec elem els :
  take_out elem els
  = (filter (fun p => p.1 <> elem) els, filter (fun p => p.1 = elem) els).
Proof.
  induction els as [|it els IH]; simpl; [done|]. rewrite IH.
  case_bool_decide as E.
  - rewrite filter_cons_False by (by intros ?). by rewrite filter_cons_True.
  - rewrite filter_cons_True by done. by rewrite filter_cons_False.
Qed.

(** X30.  Observed-remove: [Remove] erases every pair of the element and
    moves it to the tombstones, so the set no longer contains the element
    and contains every other element as before; a later [Add] of the
    element brings it back exactly when its uid is new, that is neither
    tombstoned before nor among the pairs just removed. *)
Theorem Remove_then_Add elem s :
  Contains elem (Remove elem s) = false /\
  (forall other, other <> elem ->
                 Contains other (Remove elem s) = Contains other s) /\
  tombstones (Remove elem s)
  = tombstones s ++ filter (fun p => p.1 = elem) (elements s) /\
  (forall uid,
     Contains elem (Add elem uid (Remove elem s)) = true <->
     (elem, uid) ∉ tombstones s /\ (elem, uid) ∉ elements s).
Proof.
  unfold Remove. rewrite take_out_spec. simpl.
  assert (Hgone : forall uid, (elem, uid) ∉ filter (fun p => p.1 <> elem) (elements s)).
  { intros uid Hin. apply list_elem_of_filter in Hin as [Hne _]. by apply Hne. }
  split; [|split; [|split; [done|]]].
  - apply not_true_iff_false. rewrite Contains_spec. simpl.
    intros [uid Hin]. by apply Hgone in Hin.
  - intros other Hne. apply eq_true_iff_eq. rewrite !Contains_spec. simpl.
    split; intros [uid Hin]; exists uid.
    + by apply list_elem_of_filter in Hin as [_ Hin].
    + apply list_elem_of_filter. by split.
  - intros uid. rewrite Contains_spec. unfold Add. simpl. split.
    + intros [uid' Hin]. apply purge_elem_of in Hin as [Hin Hout].
      apply elem_of_app in Hin as [Hin|Hin]; [by apply Hgone in Hin|].
      apply list_elem_of_singleton in Hin. inversion Hin; subst uid'.
      rewrite elem_of_app, list_elem_of_filter in Hout. simpl in Hout. tauto.
    + intros [Ht He]. exists uid. apply purge_elem_of. split; [set_solver|].
      rewrite elem_of_app, list_elem_of_filter. simpl. tauto.
Qed.

Lemma Contains_Merge_witness :
  let s := {| elements := [(1, 10); (2, 20)]; tombstones := [(3, 30)] |} in
  let other := {| elements := [(3, 30); (4, 40)]; tombstones := [(2, 20)] |} in
  Contains 4 (Merge other s) = true /\
  (Contains 4 (Merge other s) = true <->
   exists uid,
     ((4, uid) ∈ elements s \/ (4, uid) ∈ elements other) /\
     (4, uid) ∉ tombstones s /\ (4, uid) ∉ tombstones other).
Proof.
  intros s other. split; [reflexivity|]. exact (Contains_Merge 4 other s).
Defined.

Lemma Remove_then_Add_witness :
  let s := {| elements := [(1, 10); (2, 20); (1, 11)]; tombstones := [(3, 30)] |} in
  Contains 1 (Remove 1 s) = false /\
  (forall other, other <> 1 -> Contains other (Remove 1 s) = Contains other s) /\
  tombstones (Remove 1 s) = tombstones s ++ filter (fun p => p.1 = 1) (elements s) /\
  (forall uid,
     Contains 1 (Add 1 uid (Remove 1 s)) = true <->
     (1, uid) ∉ tombstones s /\ (1, uid) ∉ elements s).
Proof. intros s. exact (Remove_then_Add 1 s). Defined.
End ORSetProperties.

(** ** Disk extendible hash table: insert without a split *)

Module DiskExtendibleHashTableProperties.
Import DiskExtendibleHashTable DiskExtendibleHashTableFacts.

Section Props.
Context {K V : Type}.
Variable cmp : K -> K -> Z.
Variable hash_fn : K -> Z.
Variable NDEBUG : bool.
Variable HTABLE_DIRECTORY_ARRAY_SIZE : nat.
Variable bucket_array_size : nat.
Variable zero_entry : K * V.
Hypothesis Hcmp : three_way cmp.

Lemma on_bucket_Ret {A} (T : DiskExtendibleHashTable.t K V)
    page_id b (m : M (Bucket.t K V) A) a b' :
  bpm_ T !! page_id = Some (BucketPage b) -> page_id <> INVALID_PAGE_ID ->
  m b = Ret a b' ->
  on_bucket page_id m T
  = Ret a (set_bpm (<[page_id := BucketPage b']> (bpm_ T)) T).
Proof.
  intros Hp Hv Hm. unfold on_bucket, zoom. rewrite Hp.
  rewrite bool_decide_eq_false_2 by done. by rewrite Hm.
Qed.

(** A key in a live slot of the bucket it is routed to is stored. *)
Lemma routes_stored (T : DiskExtendibleHashTable.t K V) key value bucket_page_id b :
  routes hash_fn NDEBUG T key bucket_page_id b ->
  Bucket.well_formed cmp b = true -> (key, value) ∈ Bucket.live b ->
  stored cmp hash_fn NDEBUG T key value.
Proof.
  intros (h & d & directory_idx & directory_page_id & bucket_idx & Hr) Hwf Hin.
  apply BucketPageProperties.live_elem_of in Hin as (i & Hi & He).
  exists h, d, b, directory_idx, directory_page_id, bucket_idx, bucket_page_id, i.
  tauto.
Qed.

(** Replacing the bucket of one bucket page leaves every route in place. *)
Lemma routes_update (T : DiskExtendibleHashTable.t K V) key bucket_page_id b pid b0 b1 :
  bpm_ T !! pid = Some (BucketPage b0) ->
  routes hash_fn NDEBUG T key bucket_page_id b ->
  routes hash_fn NDEBUG (set_bpm (<[pid := BucketPage b1]> (bpm_ T)) T) key
    bucket_page_id (if bool_decide (bucket_page_id = pid) then b1 else b).
Proof.
  intros Hpid (h & d & directory_idx & directory_page_id & bucket_idx
               & Hhv & Hh & Hdi & Hdp & Hdv & Hd & Hbi & Hbp & Hbv & Hb).
  exists h, d, directory_idx, directory_page_id, bucket_idx. simpl.
  split; [done|]. split.
  { rewrite lookup_insert_ne; [done|]. intros ->. congruence. }
  split; [done|]. split; [done|]. split; [done|]. split.
  { rewrite lookup_insert_ne; [done|]. intros ->. congruence. }
  split; [done|]. split; [done|]. split; [done|].
  case_bool_decide as E.
  - subst pid. by rewrite lookup_insert_eq.
  - by rewrite lookup_insert_ne.
Qed.

(** X13.  [Insert] of a key that is not stored, when header and directory
    lead from its hash to a well-formed bucket that is not full (and whose
    slot behind the live entries does not hold the key): it returns true
    without splitting, [GetValue] of the key then returns the new value,
    and every key stored before is still stored with its value. *)
Theorem Insert_then_GetValue
    (T : DiskExtendibleHashTable.t K V) key value bucket_page_id b :
  routes hash_fn NDEBUG T key bucket_page_id b ->
  Bucket.well_formed cmp b = true ->
  Bucket.size_ b < Bucket.max_size_ b ->
  Bucket.max_size_ b <= Z.of_nat (length (Bucket.array_ b)) ->
  Z.of_nat (length (Bucket.array_ b)) < 2 ^ 31 ->
  (forall v, (key, v) ∉ Bucket.live b) -> Bucket.behind_free b key ->
  exists T',
    Insert cmp hash_fn NDEBUG HTABLE_DIRECTORY_ARRAY_SIZE bucket_array_size zero_entry
      key value T = Ret true T' /\
    GetValue cmp hash_fn NDEBUG key T' = Ret (Some value) T' /\
    (forall key' value', stored cmp hash_fn NDEBUG T key' value' ->
                         stored cmp hash_fn NDEBUG T' key' value').
Proof.
  intros Hroutes Hwf Hfull Hmax Hlen Hout Hfree.
  destruct (BucketPageFacts.well_formed_bounds cmp b Hwf) as [Hsz Hlt].
  destruct (BucketPageProperties.Insert_fresh_aux cmp Hcmp b key value)
    as (b' & p & Hins & Hlb & Hs & Hm & Hl & Hlive); [done..|].
  assert (Hwf' : Bucket.well_formed cmp b' = true).
  { apply (BucketPageProperties.Insert_fresh_well_formed cmp Hcmp b b' key value p);
      (done || lia). }
  assert (Hmem : forall e, e ∈ Bucket.live b -> e ∈ Bucket.live b').
  { intros e He. rewrite Hlive, elem_of_app, elem_of_cons.
    rewrite <- (take_drop (Z.to_nat p) (Bucket.live b)), elem_of_app in He. tauto. }
  assert (Hnew : (key, value) ∈ Bucket.live b').
  { rewrite Hlive, elem_of_app, elem_of_cons. tauto. }
  pose proof Hroutes as (h & d & directory_idx & directory_page_id & bucket_idx
               & Hhv & Hh & Hdi & Hdp & Hdv & Hd & Hbi & Hbp & Hbv & Hb).
  set (T' := set_bpm (<[bucket_page_id := BucketPage b']> (bpm_ T)) T).
  exists T'. split; [|split].
  - unfold Insert. simpl.
    erewrite bind_Ret by reflexivity.
    rewrite bool_decide_eq_false_2 by done.
    erewrite bind_Ret by (by eapply on_header_read).
    erewrite bind_Ret by (by eapply on_header_read).
    rewrite bool_decide_eq_false_2 by done.
    erewrite bind_Ret by reflexivity.
    erewrite bind_Ret by (by eapply on_directory_read).
    erewrite bind_Ret by (by eapply on_directory_read).
    rewrite bool_decide_eq_false_2 by done.
    erewrite bind_Ret by reflexivity.
    erewrite bind_Ret
      by (eapply on_bucket_read; [done..|];
          by apply (BucketPageProperties.Lookup_absent cmp Hcmp)).
    cbv beta iota.
    erewrite bind_Ret by (eapply on_bucket_read; [done..|]; reflexivity).
    rewrite bool_decide_eq_false_2 by lia.
    by apply (on_bucket_Ret T bucket_page_id b).
  - apply GetValue_stored;
      [apply (BucketPageProperties.three_way_refl cmp Hcmp)
      |apply (BucketPageProperties.three_way_gt cmp Hcmp)|].
    pose proof (routes_update T key bucket_page_id b bucket_page_id b b' Hb Hroutes) as Hr.
    rewrite bool_decide_eq_true_2 in Hr by done.
    by apply (routes_stored T' key value bucket_page_id b').
  - intros key' value'
      (h1 & d1 & b1 & directory_idx1 & directory_page_id1 & bucket_idx1 & bucket_page_id1
       & i & Hr1 & Hr2 & Hr3 & Hr4 & Hr5 & Hr6 & Hr7 & Hr8 & Hr9 & Hb1 & Hwf1 & Hi & Hkv).
    assert (Hroutes1 : routes hash_fn NDEBUG T key' bucket_page_id1 b1).
    { exists h1, d1, directory_idx1, directory_page_id1, bucket_idx1. tauto. }
    pose proof (routes_update T key' bucket_page_id1 b1 bucket_page_id b b' Hb Hroutes1)
      as Hr.
    assert (Hin1 : (key', value') ∈ Bucket.live b1).
    { apply BucketPageProperties.live_elem_of. by exists i. }
    case_bool_decide as E.
    + subst bucket_page_id1. rewrite Hb in Hb1. inversion Hb1; subst b1.
      apply (routes_stored T' key' value' bucket_page_id b'); [done|done|].
      by apply Hmem.
    + by apply (routes_stored T' key' value' bucket_page_id1 b1).
Qed.
End Props.

(** Two inserts into a new table, then a third key that goes to the same
    bucket. *)
Lemma Insert_then_GetValue_witness :
  exists T : DiskExtendibleHashTable.t Z Z,
    returned
      (run IntComparator (fun key => key) false 512 511 (0, 0)
         [CInsert 1 10; CInsert 5 50] (new 1 2 3))
    = Some [ABool true; ABool true] /\
    exists T',
      Insert IntComparator (fun key => key) false 512 511 (0, 0) 3 30 T = Ret true T' /\
      GetValue IntComparator (fun key => key) false 3 T' = Ret (Some 30) T' /\
      (forall key' value',
         stored IntComparator (fun key => key) false T key' value' ->
         stored IntComparator (fun key => key) false T' key' value').
Proof.
  pose (T := match run IntComparator (fun key => key) false 512 511 (0, 0)
                     [CInsert 1 10; CInsert 5 50] (new 1 2 3) with
             | Ret _ T => T
             | _ => new 1 2 3
             end).
  exists T. split; [vm_compute; reflexivity|].
  eapply (Insert_then_GetValue IntComparator (fun key => key) false 512 511 (0, 0)
            BucketPageProperties.IntComparator_three_way T 3 30).
  - do 5 eexists.
    split; [vm_compute; discriminate|].
    split; [vm_compute; reflexivity|].
    split; [vm_compute; reflexivity|].
    split; [vm_compute; reflexivity|].
    split; [vm_compute; discriminate|].
    split; [vm_compute; reflexivity|].
    split; [vm_compute; reflexivity|].
    split; [vm_compute; reflexivity|].
    split; [vm_compute; discriminate|].
    vm_compute; reflexivity.
  - vm_compute; reflexivity.
  - vm_compute; reflexivity.
  - vm_compute; discriminate.
  - vm_compute; reflexivity.
  - intros v Hin. apply BucketPageProperties.live_elem_of in Hin as (i & Hi & He).
    match type of Hi with
    | _ <= _ < ?s => assert (Hs : s = 2) by (vm_compute; reflexivity); rewrite Hs in Hi
    end.
    assert (i = 0 \/ i = 1) as [-> | ->] by lia; vm_compute in He; discriminate.
  - right. exists (0, 0). split; [vm_compute; reflexivity|simpl; lia].
Defined.
End DiskExtendibleHashTableProperties.
